(** * Grammar-Mutator: the derivation-tree engine and its JSON generator

    A shallow embedding of [include/tree.h], [src/f1_c_fuzz.c] and
    [src/tree_mutation.c].  The C code works on heap-allocated [node_t] and
    [tree_t] objects linked by pointers, consumes the C library's [random()]
    and reads and writes the global [max_depth]; the embedding threads an
    explicit program state (two typed stores, the global, the stream of
    [random()] results) through a small monad whose outcomes also record
    undefined behaviour.

    [tree.c] and [f1_c_fuzz.h] are not among the sources.  The functions of
    [tree.c] that the sources call ([node_create], [node_set_val],
    [node_clone], [node_free], [node_replace_subnode], [tree_clone], ...) and
    the numbering of the node types are modelled from their documentation in
    [tree.h] and from the specification; each such definition says so.

    The file is laid out as: the data model and the monad; the grammar
    tables; the structural encoding; the engine (generators, structural
    operations, mutation); the vocabulary of the statements; the proofs; and
    the theorems instantiated on concrete runs. *)

From Stdlib Require Import ZArith NArith Lia.
From Stdlib Require Import Strings.Byte.
From stdpp Require Import base option list numbers strings.

Local Open Scope N_scope.

(** ** Data model ([include/tree.h]) *)

(** A non-null pointer to a [node_t] / [tree_t]: an index into the store of that
    type.  A nullable pointer is an [option]. *)
Abbreviation addr := nat (only parsing).
Abbreviation tree_ptr := nat (only parsing).

(** [struct tree_node].  [subnodes] is the ordered child sequence (the array
    [subnodes[0 .. subnode_count)] of [tree.h]; [tree_mutation.c] walks the
    same sequence as a sibling chain), so [subnode_count] is its length.
    The counter that [tree.h] calls [recursive_subnode_size] is the field the
    generated code updates under the name [recursion_edge_size]. *)
Record node_t : Type := Node {
  id : N;
  recursion_edge_size : N;
  non_term_size : N;
  val_buf : option (list byte);
  val_len : N;
  parent : option addr;
  subnodes : list addr
}.

Definition subnode_count (nd : node_t) : N := N.of_nat (length (subnodes nd)).

(** [struct tree]. *)
Record tree_t : Type := Tree {
  root : option addr;
  depth : N;
  data_buf : list byte;
  data_len : N
}.

(** The program state: the two stores (a freed cell stays behind as [None], an
    address is never handed out twice), the global [int max_depth] of
    [f1_c_fuzz.c], and the results [random()] is going to return, with the
    number of them already consumed. *)
Record state : Type := State {
  nodes : list (option node_t);
  trees : list (option tree_t);
  max_depth : Z;
  rand_src : nat → N;
  rand_pos : nat
}.

(** ** Outcomes and the monad of C computations *)

Inductive outcome (A : Type) : Type :=
| Ret (a : A) (s : state)
| Fault
| OutOfFuel.
Arguments Ret {A} a s.
Arguments Fault {A}.
Arguments OutOfFuel {A}.

Definition M (A : Type) : Type := state → outcome A.

Definition ret {A} (a : A) : M A := fun s => Ret a s.
Definition fault {A} : M A := fun _ => Fault.
Definition out_of_fuel {A} : M A := fun _ => OutOfFuel.

Definition bind {A B} (m : M A) (f : A → M B) : M B :=
  fun s => match m s with
           | Ret a s' => f a s'
           | Fault => Fault
           | OutOfFuel => OutOfFuel
           end.

Notation "x <- m ;; k" := (bind m (fun x => k))
  (at level 100, m at next level, right associativity).
Notation "m ;;; k" := (bind m (fun _ => k))
  (at level 100, right associativity).

(** ** Memory primitives *)

Definition cell {A} (st : list (option A)) (a : nat) : option A :=
  match st !! a with Some (Some x) => Some x | _ => None end.

Definition node_at (s : state) (a : addr) : option node_t := cell (nodes s) a.
Definition tree_at (s : state) (t : tree_ptr) : option tree_t := cell (trees s) t.

Definition with_nodes (s : state) (ns : list (option node_t)) : state :=
  State ns (trees s) (max_depth s) (rand_src s) (rand_pos s).
Definition with_trees (s : state) (ts : list (option tree_t)) : state :=
  State (nodes s) ts (max_depth s) (rand_src s) (rand_pos s).

(** Reading through a pointer; a dangling pointer is undefined behaviour. *)
Definition load (a : addr) : M node_t :=
  fun s => match node_at s a with Some nd => Ret nd s | None => Fault end.

(** Writing through a pointer. *)
Definition store (a : addr) (nd : node_t) : M unit :=
  fun s => match node_at s a with
           | Some _ => Ret tt (with_nodes s (<[a := Some nd]> (nodes s)))
           | None => Fault
           end.

(** A read-modify-write of the fields of one node. *)
Definition modify (f : node_t → node_t) (a : addr) : M unit :=
  nd <- load a ;; store a (f nd).

(** [malloc]/[calloc] of a node: the next unused address. *)
Definition alloc (nd : node_t) : M addr :=
  fun s => Ret (length (nodes s)) (with_nodes s (nodes s ++ [Some nd])).

(** [free] of a node. *)
Definition dealloc (a : addr) : M unit :=
  fun s => match node_at s a with
           | Some _ => Ret tt (with_nodes s (<[a := None]> (nodes s)))
           | None => Fault
           end.

Definition load_tree (t : tree_ptr) : M tree_t :=
  fun s => match tree_at s t with Some tr => Ret tr s | None => Fault end.

Definition store_tree (t : tree_ptr) (tr : tree_t) : M unit :=
  fun s => match tree_at s t with
           | Some _ => Ret tt (with_trees s (<[t := Some tr]> (trees s)))
           | None => Fault
           end.

Definition alloc_tree (tr : tree_t) : M tree_ptr :=
  fun s => Ret (length (trees s)) (with_trees s (trees s ++ [Some tr])).

(** [random()]: the next element of the stream. *)
Definition random : M N :=
  fun s => Ret (rand_src s (rand_pos s))
               (State (nodes s) (trees s) (max_depth s) (rand_src s) (S (rand_pos s))).

Definition get_max_depth : M Z := fun s => Ret (max_depth s) s.
Definition set_max_depth (d : Z) : M unit :=
  fun s => Ret tt (State (nodes s) (trees s) d (rand_src s) (rand_pos s)).

(** Arithmetic of [size_t]: 64 bits, wrapping. *)
Definition size_max : N := 2 ^ 64.
Definition size_add (a b : N) : N := (a + b) mod size_max.

(** Arithmetic of [int]: 32 bits, signed.  [depth + 1] on an [int] that
    holds [INT_MAX] overflows, which is undefined behaviour in C (a build
    may wrap around, trap, or assume it away). *)
Definition INT_MAX : Z := 2147483647%Z.

Definition int_succ (i : Z) : M Z :=
  if (i <? INT_MAX)%Z then ret (i + 1)%Z else fault.

(** ** The grammar tables of [f1_c_fuzz.c] *)

(** Modelled from the spec: the enumeration of node types of [f1_c_fuzz.h],
    a header that is not among the sources.  Rule ids are the dense integers
    from 1 in the order of the dispatch table [gen_funcs]; 0 is the marker
    [TERM_NODE] of a literal leaf. *)
Inductive rule : Type :=
| START | JSON | ELEMENT | VALUE | OBJECT | MEMBERS | MEMBER | ARRAY
| ELEMENTS | STRING | CHARACTERS | CHARACTER | ESC | ESCC | NUMBER | INT
| DIGITS | DIGIT | ONENINE | FRAC | EXP | SIGN | WS | SP1 | SYMBOL
| SYMBOL_1 | SYMBOL_2 | SYMBOL_1_1 | CHARACTER_1 | DIGIT_1.

Definition TERM_NODE : N := 0.

Definition rule_id (r : rule) : N :=
  match r with
  | START => 1 | JSON => 2 | ELEMENT => 3 | VALUE => 4 | OBJECT => 5
  | MEMBERS => 6 | MEMBER => 7 | ARRAY => 8 | ELEMENTS => 9 | STRING => 10
  | CHARACTERS => 11 | CHARACTER => 12 | ESC => 13 | ESCC => 14
  | NUMBER => 15 | INT => 16 | DIGITS => 17 | DIGIT => 18 | ONENINE => 19
  | FRAC => 20 | EXP => 21 | SIGN => 22 | WS => 23 | SP1 => 24
  | SYMBOL => 25 | SYMBOL_1 => 26 | SYMBOL_2 => 27 | SYMBOL_1_1 => 28
  | CHARACTER_1 => 29 | DIGIT_1 => 30
  end.

(** C string literals as byte sequences.  The characters a C literal writes
    with an escape are named here. *)
Definition bytes (s : string) : list byte := String.list_byte_of_string s.
Definition dq : byte := x22.   (* the double quote *)
Definition bsl : byte := x5c.  (* the backslash *)
Definition tab : byte := x09.
Definition lf : byte := x0a.
Definition cr : byte := x0d.

(** The literal pools [pool_<rule>] and their length arrays [pool_l_<rule>]
    (lines 14-102). *)
Definition pool_start : list (list byte) :=
  [bytes "null"; bytes "false"; bytes "true"].
Definition pool_l_start : list N :=
  [4; 5; 4].

Definition pool_json : list (list byte) :=
  [bytes "true"; bytes "false"; bytes "null"].
Definition pool_l_json : list N :=
  [4; 5; 4].

Definition pool_element : list (list byte) :=
  [bytes "null"; bytes "false"; bytes "true"].
Definition pool_l_element : list N :=
  [4; 5; 4].

Definition pool_value : list (list byte) :=
  [bytes "null"; bytes "true"; bytes "false"].
Definition pool_l_value : list N :=
  [4; 4; 5].

Definition pool_object : list (list byte) :=
  [bytes "{}"].
Definition pool_l_object : list N :=
  [2].

Definition pool_members : list (list byte) :=
  [[dq; dq] ++ bytes ":true"; [dq; dq] ++ bytes ":null";
   [dq; dq] ++ bytes ":false"].
Definition pool_l_members : list N :=
  [7; 7; 8].

Definition pool_member : list (list byte) :=
  [[dq; dq] ++ bytes ":false"; [dq; dq] ++ bytes ":null";
   [dq; dq] ++ bytes ":true"].
Definition pool_l_member : list N :=
  [8; 7; 7].

Definition pool_array : list (list byte) :=
  [bytes "[]"].
Definition pool_l_array : list N :=
  [2].

Definition pool_elements : list (list byte) :=
  [bytes "true"; bytes "null"; bytes "false"].
Definition pool_l_elements : list N :=
  [4; 4; 5].

Definition pool_string : list (list byte) :=
  [[dq; dq]].
Definition pool_l_string : list N :=
  [2].

Definition pool_characters : list (list byte) :=
  [[]].
Definition pool_l_characters : list N :=
  [0].

Definition pool_character : list (list byte) :=
  [bytes "T"; bytes "3"; bytes "h"; bytes "n"; bytes "i"; bytes "N";
   bytes "V"; bytes "e"; bytes "W"; bytes "z"; bytes "2"; bytes "-";
   bytes "s"; bytes "?"; bytes "|"; bytes "H"; bytes "L"; bytes "U";
   bytes "}"; bytes "1"; bytes "D"; bytes "7"; bytes "&"; bytes "Z";
   bytes "0"; bytes "X"; [dq]; bytes "C"; bytes "J"; bytes "8"; bytes "$";
   bytes "!"; bytes "#"; bytes "Q"; bytes "4"; bytes "@"; bytes "`";
   bytes ";"; bytes "p"; bytes "k"; bytes "("; bytes "<"; bytes "j";
   bytes "P"; bytes "R"; bytes "O"; bytes "/"; bytes "l"; bytes "d";
   bytes "w"; bytes "o"; bytes "^"; bytes "v"; bytes "="; bytes "m";
   bytes "{"; bytes "M"; bytes "y"; bytes "]"; bytes "E"; bytes "_";
   bytes " "; bytes "."; bytes "9"; bytes "B"; bytes "r"; bytes ",";
   bytes "q"; bytes "u"; bytes "G"; bytes "~"; bytes "S"; bytes ">";
   bytes "f"; bytes "t"; bytes "["; bytes "g"; bytes "6"; bytes ":";
   bytes "A"; bytes "Y"; bytes "5"; bytes "*"; bytes "a"; bytes "F";
   bytes "I"; bytes "b"; bytes "%"; bytes ")"; bytes "c"; bytes "x";
   bytes "K"; bytes "+"].
Definition pool_l_character : list N :=
  [1; 1; 1; 1; 1; 1; 1; 1; 1; 1; 1; 1; 1; 1; 1; 1; 1; 1; 1; 1; 1; 1; 1; 1; 1;
   1; 1; 1; 1; 1; 1; 1; 1; 1; 1; 1; 1; 1; 1; 1; 1; 1; 1; 1; 1; 1; 1; 1; 1; 1;
   1; 1; 1; 1; 1; 1; 1; 1; 1; 1; 1; 1; 1; 1; 1; 1; 1; 1; 1; 1; 1; 1; 1; 1; 1;
   1; 1; 1; 1; 1; 1; 1; 1; 1; 1; 1; 1; 1; 1; 1; 1; 1; 1].

Definition pool_esc : list (list byte) :=
  [[bsl] ++ bytes "t"; [bsl] ++ bytes "r"; [bsl] ++ bytes "b"; [bsl; dq];
   [bsl; bsl]; [bsl] ++ bytes "f"; [bsl] ++ bytes "n"].
Definition pool_l_esc : list N :=
  [2; 2; 2; 2; 2; 2; 2].

Definition pool_escc : list (list byte) :=
  [[dq]; bytes "b"; bytes "n"; [bsl]; bytes "r"; bytes "t"; bytes "f"].
Definition pool_l_escc : list N :=
  [1; 1; 1; 1; 1; 1; 1].

Definition pool_number : list (list byte) :=
  [bytes "0"].
Definition pool_l_number : list N :=
  [1].

Definition pool_int : list (list byte) :=
  [bytes "0"].
Definition pool_l_int : list N :=
  [1].

Definition pool_digits : list (list byte) :=
  [bytes "0"].
Definition pool_l_digits : list N :=
  [1].

Definition pool_digit : list (list byte) :=
  [bytes "0"].
Definition pool_l_digit : list N :=
  [1].

Definition pool_onenine : list (list byte) :=
  [bytes "6"; bytes "5"; bytes "8"; bytes "2"; bytes "3"; bytes "1";
   bytes "7"; bytes "9"; bytes "4"].
Definition pool_l_onenine : list N :=
  [1; 1; 1; 1; 1; 1; 1; 1; 1].

Definition pool_frac : list (list byte) :=
  [[]].
Definition pool_l_frac : list N :=
  [0].

Definition pool_exp : list (list byte) :=
  [[]].
Definition pool_l_exp : list N :=
  [0].

Definition pool_sign : list (list byte) :=
  [bytes "-"; []; bytes "+"].
Definition pool_l_sign : list N :=
  [1; 0; 1].

Definition pool_ws : list (list byte) :=
  [[]].
Definition pool_l_ws : list N :=
  [0].

Definition pool_sp1 : list (list byte) :=
  [bytes " "; [tab]; [cr]; [lf]].
Definition pool_l_sp1 : list N :=
  [1; 1; 1; 1].

Definition pool_symbol : list (list byte) :=
  [bytes "," ++ [dq; dq] ++ bytes ":true";
   bytes "," ++ [dq; dq] ++ bytes ":null";
   bytes "," ++ [dq; dq] ++ bytes ":false"].
Definition pool_l_symbol : list N :=
  [8; 8; 9].

Definition pool_symbol_1 : list (list byte) :=
  [bytes ",null"; bytes ",true"; bytes ",false"].
Definition pool_l_symbol_1 : list N :=
  [5; 5; 6].

Definition pool_symbol_2 : list (list byte) :=
  [[]].
Definition pool_l_symbol_2 : list N :=
  [0].

Definition pool_symbol_1_1 : list (list byte) :=
  [[]].
Definition pool_l_symbol_1_1 : list N :=
  [0].

Definition pool_character_1 : list (list byte) :=
  [[]].
Definition pool_l_character_1 : list N :=
  [0].

Definition pool_digit_1 : list (list byte) :=
  [bytes "0"].
Definition pool_l_digit_1 : list N :=
  [1].
(** One statement group of a [case]: what is stored into the next slot of
    [node->subnodes].
    - [Lit s n]: [subnode = node_create_with_val(TERM_NODE, s, n)];
    - [Sub r]: [subnode = gen_r(depth + 1); node->non_term_size += 1];
    - [SubRec r]: as [Sub r], followed by [node->recursion_edge_size += 1]. *)
Inductive symbol : Type :=
| Lit (s : list byte) (n : N)
| Sub (r : rule)
| SubRec (r : rule).

(** The [switch (val)] of every generator, one row per [case], in the order
    of the case labels 0, 1, ...; every case allocates exactly as many slots
    as it has statement groups and fills slot 0, 1, ... in that order. *)
Definition cases_start : list (list symbol) :=
  [ [Sub JSON] ].

Definition cases_json : list (list symbol) :=
  [ [Sub ELEMENT] ].

Definition cases_element : list (list symbol) :=
  [ [Sub WS; Sub VALUE; Sub WS] ].

Definition cases_value : list (list symbol) :=
  [ [Lit (bytes "false") 5];
    [Lit (bytes "null") 4];
    [Lit (bytes "true") 4];
    [Sub ARRAY];
    [Sub OBJECT];
    [Sub NUMBER];
    [Sub STRING] ].

Definition cases_object : list (list symbol) :=
  [ [Lit (bytes "{") 1; Sub WS; Lit (bytes "}") 1];
    [Lit (bytes "{") 1; Sub MEMBERS; Lit (bytes "}") 1] ].

Definition cases_members : list (list symbol) :=
  [ [Sub MEMBER; Sub SYMBOL_2] ].

Definition cases_member : list (list symbol) :=
  [ [Sub WS; Sub STRING; Sub WS; Lit (bytes ":") 1; Sub ELEMENT] ].

Definition cases_array : list (list symbol) :=
  [ [Lit (bytes "[") 1; Sub WS; Lit (bytes "]") 1];
    [Lit (bytes "[") 1; Sub ELEMENTS; Lit (bytes "]") 1] ].

Definition cases_elements : list (list symbol) :=
  [ [Sub ELEMENT; Sub SYMBOL_1_1] ].

Definition cases_string : list (list symbol) :=
  [ [Lit ([dq]) 1; Sub CHARACTERS; Lit ([dq]) 1] ].

Definition cases_characters : list (list symbol) :=
  [ [Sub CHARACTER_1] ].

Definition cases_character : list (list symbol) :=
  [ [Lit (bytes " ") 1];
    [Lit (bytes "!") 1];
    [Lit ([dq]) 1];
    [Lit (bytes "#") 1];
    [Lit (bytes "$") 1];
    [Lit (bytes "%") 1];
    [Lit (bytes "&") 1];
    [Lit (bytes "(") 1];
    [Lit (bytes ")") 1];
    [Lit (bytes "*") 1];
    [Lit (bytes "+") 1];
    [Lit (bytes ",") 1];
    [Lit (bytes "-") 1];
    [Lit (bytes ".") 1];
    [Lit (bytes "/") 1];
    [Lit (bytes "0") 1];
    [Lit (bytes "1") 1];
    [Lit (bytes "2") 1];
    [Lit (bytes "3") 1];
    [Lit (bytes "4") 1];
    [Lit (bytes "5") 1];
    [Lit (bytes "6") 1];
    [Lit (bytes "7") 1];
    [Lit (bytes "8") 1];
    [Lit (bytes "9") 1];
    [Lit (bytes ":") 1];
    [Lit (bytes ";") 1];
    [Lit (bytes "<") 1];
    [Lit (bytes "=") 1];
    [Lit (bytes ">") 1];
    [Lit (bytes "?") 1];
    [Lit (bytes "@") 1];
    [Lit (bytes "A") 1];
    [Lit (bytes "B") 1];
    [Lit (bytes "C") 1];
    [Lit (bytes "D") 1];
    [Lit (bytes "E") 1];
    [Lit (bytes "F") 1];
    [Lit (bytes "G") 1];
    [Lit (bytes "H") 1];
    [Lit (bytes "I") 1];
    [Lit (bytes "J") 1];
    [Lit (bytes "K") 1];
    [Lit (bytes "L") 1];
    [Lit (bytes "M") 1];
    [Lit (bytes "N") 1];
    [Lit (bytes "O") 1];
    [Lit (bytes "P") 1];
    [Lit (bytes "Q") 1];
    [Lit (bytes "R") 1];
    [Lit (bytes "S") 1];
    [Lit (bytes "T") 1];
    [Lit (bytes "U") 1];
    [Lit (bytes "V") 1];
    [Lit (bytes "W") 1];
    [Lit (bytes "X") 1];
    [Lit (bytes "Y") 1];
    [Lit (bytes "Z") 1];
    [Lit (bytes "[") 1];
    [Lit (bytes "]") 1];
    [Lit (bytes "^") 1];
    [Lit (bytes "_") 1];
    [Lit (bytes "`") 1];
    [Lit (bytes "a") 1];
    [Lit (bytes "b") 1];
    [Lit (bytes "c") 1];
    [Lit (bytes "d") 1];
    [Lit (bytes "e") 1];
    [Lit (bytes "f") 1];
    [Lit (bytes "g") 1];
    [Lit (bytes "h") 1];
    [Lit (bytes "i") 1];
    [Lit (bytes "j") 1];
    [Lit (bytes "k") 1];
    [Lit (bytes "l") 1];
    [Lit (bytes "m") 1];
    [Lit (bytes "n") 1];
    [Lit (bytes "o") 1];
    [Lit (bytes "p") 1];
    [Lit (bytes "q") 1];
    [Lit (bytes "r") 1];
    [Lit (bytes "s") 1];
    [Lit (bytes "t") 1];
    [Lit (bytes "u") 1];
    [Lit (bytes "v") 1];
    [Lit (bytes "w") 1];
    [Lit (bytes "x") 1];
    [Lit (bytes "y") 1];
    [Lit (bytes "z") 1];
    [Lit (bytes "{") 1];
    [Lit (bytes "|") 1];
    [Lit (bytes "}") 1];
    [Lit (bytes "~") 1];
    [Sub ESC] ].

Definition cases_esc : list (list symbol) :=
  [ [Lit ([bsl]) 1; Sub ESCC] ].

Definition cases_escc : list (list symbol) :=
  [ [Lit ([dq]) 1];
    [Lit ([bsl]) 1];
    [Lit (bytes "b") 1];
    [Lit (bytes "f") 1];
    [Lit (bytes "n") 1];
    [Lit (bytes "r") 1];
    [Lit (bytes "t") 1] ].

Definition cases_number : list (list symbol) :=
  [ [Sub INT; Sub FRAC; Sub EXP] ].

Definition cases_int : list (list symbol) :=
  [ [Sub DIGIT];
    [Lit (bytes "-") 1; Sub DIGITS];
    [Lit (bytes "-") 1; Sub ONENINE; Sub DIGITS];
    [Sub ONENINE; Sub DIGITS] ].

Definition cases_digits : list (list symbol) :=
  [ [Sub DIGIT_1] ].

Definition cases_digit : list (list symbol) :=
  [ [Lit (bytes "0") 1];
    [Sub ONENINE] ].

Definition cases_onenine : list (list symbol) :=
  [ [Lit (bytes "1") 1];
    [Lit (bytes "2") 1];
    [Lit (bytes "3") 1];
    [Lit (bytes "4") 1];
    [Lit (bytes "5") 1];
    [Lit (bytes "6") 1];
    [Lit (bytes "7") 1];
    [Lit (bytes "8") 1];
    [Lit (bytes "9") 1] ].

Definition cases_frac : list (list symbol) :=
  [ [];
    [Lit (bytes ".") 1; Sub DIGITS] ].

Definition cases_exp : list (list symbol) :=
  [ [];
    [Lit (bytes "E") 1; Sub SIGN; Sub DIGITS];
    [Lit (bytes "e") 1; Sub SIGN; Sub DIGITS] ].

Definition cases_sign : list (list symbol) :=
  [ [];
    [Lit (bytes "+") 1];
    [Lit (bytes "-") 1] ].

Definition cases_ws : list (list symbol) :=
  [ [];
    [Sub SP1; SubRec WS] ].

Definition cases_sp1 : list (list symbol) :=
  [ [Lit ([tab]) 1];
    [Lit ([lf]) 1];
    [Lit ([cr]) 1];
    [Lit (bytes " ") 1] ].

Definition cases_symbol : list (list symbol) :=
  [ [Lit (bytes ",") 1; Sub MEMBERS] ].

Definition cases_symbol_1 : list (list symbol) :=
  [ [Lit (bytes ",") 1; Sub ELEMENTS] ].

Definition cases_symbol_2 : list (list symbol) :=
  [ [];
    [Sub SYMBOL; SubRec SYMBOL_2] ].

Definition cases_symbol_1_1 : list (list symbol) :=
  [ [];
    [Sub SYMBOL_1; SubRec SYMBOL_1_1] ].

Definition cases_character_1 : list (list symbol) :=
  [ [];
    [Sub CHARACTER; SubRec CHARACTER_1] ].

Definition cases_digit_1 : list (list symbol) :=
  [ [Sub DIGIT];
    [Sub DIGIT; SubRec DIGIT_1] ].
(** What distinguishes one generator function from another: its pool, the
    pool's length array, the argument of [map_rand] past the depth bound, the
    argument of [map_rand] before the [switch], and the cases. *)
Record gen_body : Type := Body {
  pool : list (list byte);
  pool_l : list N;
  pool_n : N;
  case_n : N;
  cases : list (list symbol)
}.

Definition body_of (r : rule) : gen_body :=
  match r with
  | START => Body pool_start pool_l_start 3 1 cases_start
  | JSON => Body pool_json pool_l_json 3 1 cases_json
  | ELEMENT => Body pool_element pool_l_element 3 1 cases_element
  | VALUE => Body pool_value pool_l_value 3 7 cases_value
  | OBJECT => Body pool_object pool_l_object 1 2 cases_object
  | MEMBERS => Body pool_members pool_l_members 3 1 cases_members
  | MEMBER => Body pool_member pool_l_member 3 1 cases_member
  | ARRAY => Body pool_array pool_l_array 1 2 cases_array
  | ELEMENTS => Body pool_elements pool_l_elements 3 1 cases_elements
  | STRING => Body pool_string pool_l_string 1 1 cases_string
  | CHARACTERS => Body pool_characters pool_l_characters 1 1 cases_characters
  | CHARACTER => Body pool_character pool_l_character 93 94 cases_character
  | ESC => Body pool_esc pool_l_esc 7 1 cases_esc
  | ESCC => Body pool_escc pool_l_escc 7 7 cases_escc
  | NUMBER => Body pool_number pool_l_number 1 1 cases_number
  | INT => Body pool_int pool_l_int 1 4 cases_int
  | DIGITS => Body pool_digits pool_l_digits 1 1 cases_digits
  | DIGIT => Body pool_digit pool_l_digit 1 2 cases_digit
  | ONENINE => Body pool_onenine pool_l_onenine 9 9 cases_onenine
  | FRAC => Body pool_frac pool_l_frac 1 2 cases_frac
  | EXP => Body pool_exp pool_l_exp 1 3 cases_exp
  | SIGN => Body pool_sign pool_l_sign 3 3 cases_sign
  | WS => Body pool_ws pool_l_ws 1 2 cases_ws
  | SP1 => Body pool_sp1 pool_l_sp1 4 4 cases_sp1
  | SYMBOL => Body pool_symbol pool_l_symbol 3 1 cases_symbol
  | SYMBOL_1 => Body pool_symbol_1 pool_l_symbol_1 3 1 cases_symbol_1
  | SYMBOL_2 => Body pool_symbol_2 pool_l_symbol_2 1 2 cases_symbol_2
  | SYMBOL_1_1 => Body pool_symbol_1_1 pool_l_symbol_1_1 1 2 cases_symbol_1_1
  | CHARACTER_1 => Body pool_character_1 pool_l_character_1 1 2 cases_character_1
  | DIGIT_1 => Body pool_digit_1 pool_l_digit_1 1 2 cases_digit_1
  end.

(** ** The structural encoding *)

(** What structural equality sees of a tree: a terminal carries an id and a
    value, a non-terminal an id and its children in order. *)
#[warnings="-register-all"]
Inductive shape : Type :=
| Leaf (rid : N) (value : list byte)
| Inner (rid : N) (kids : list shape).

(** Modelled from the spec: [node_equal] of [tree.c].  Two nodes are equal
    when both are terminals with the same id and value, or both are
    non-terminals with the same id, as many children, and equal children in
    order. *)
Fixpoint node_equal (a b : shape) : bool :=
  match a, b with
  | Leaf ra va, Leaf rb vb =>
      (ra =? rb) &&
      (length va =? length vb)%nat &&
      forallb (λ p, Byte.eqb p.1 p.2) (zip va vb)
  | Inner ra ka, Inner rb kb =>
      (ra =? rb) &&
      (length ka =? length kb)%nat &&
      (fix all2 (xs ys : list shape) : bool :=
         match xs, ys with
         | x :: xs', y :: ys' => node_equal x y && all2 xs' ys'
         | _, _ => true
         end) ka kb
  | _, _ => false
  end.

(** Fixed-width little-endian numbers. *)
Definition byte_of_N (n : N) : byte := default x00 (Byte.of_N (n mod 256)).

Fixpoint le_bytes (w : nat) (n : N) : list byte :=
  match w with
  | O => []
  | S w' => byte_of_N n :: le_bytes w' (n / 256)
  end.

Fixpoint le_value (bs : list byte) : N :=
  match bs with
  | [] => 0
  | b :: bs' => Byte.to_N b + 256 * le_value bs'
  end.

Definition flag_terminal : byte := x00.
Definition flag_non_terminal : byte := x01.

(** Modelled from the spec: the structural encoding of a tree, the format
    [tree_from_buf] reads.  For each node in pre-order: the rule id (4
    bytes, the width of [uint32_t id]), a flag telling terminals from
    non-terminals, then for a terminal the length of its value (8 bytes, the
    width of [size_t]) and the value, for a non-terminal the number of
    children (8 bytes) and the children. *)
Fixpoint struct_encode (t : shape) : list byte :=
  match t with
  | Leaf rid value =>
      le_bytes 4 rid ++ [flag_terminal] ++
      le_bytes 8 (N.of_nat (length value)) ++ value
  | Inner rid kids =>
      le_bytes 4 rid ++ [flag_non_terminal] ++
      le_bytes 8 (N.of_nat (length kids)) ++
      concat (struct_encode <$> kids)
  end.

(** Reading a [w]-byte number off the front of a buffer. *)
Definition get_le (w : nat) (buf : list byte) : option (N * list byte) :=
  if (length buf <? w)%nat then None
  else Some (le_value (take w buf), drop w buf).

(** [n] items in sequence. *)
Fixpoint decode_seq {A} (dec : list byte → option (A * list byte))
    (n : nat) (buf : list byte) : option (list A * list byte) :=
  match n with
  | O => Some ([], buf)
  | S m =>
      '(x, buf1) ← dec buf;
      '(xs, buf2) ← decode_seq dec m buf1;
      Some (x :: xs, buf2)
  end.

(** The node types of the grammar: [TERM_NODE] and the 30 rules, the indices
    of the 31 entries of [gen_funcs]. *)
Definition known_id (rid : N) : bool := rid <=? 30.

(** One node off the front of a buffer, with what follows it.  A truncated
    buffer, an unknown rule id, a length or a child count that the rest of
    the buffer cannot hold, and an unknown flag are decode errors. *)
Fixpoint decode_node (fuel : nat) (buf : list byte)
    : option (shape * list byte) :=
  match fuel with
  | O => None
  | S k =>
      '(rid, buf1) ← get_le 4 buf;
      if negb (known_id rid) then None else
      match buf1 with
      | [] => None
      | flag :: buf2 =>
          '(n, buf3) ← get_le 8 buf2;
          if (N.of_nat (length buf3) <? n) then None
          else if Byte.eqb flag flag_terminal then
            Some (Leaf rid (take (N.to_nat n) buf3), drop (N.to_nat n) buf3)
          else if Byte.eqb flag flag_non_terminal then
            '(kids, rest) ← decode_seq (decode_node k) (N.to_nat n) buf3;
            Some (Inner rid kids, rest)
          else None
      end
  end.

(** Modelled from the spec: [tree_from_buf] of [tree.c], the decoder of the
    structural encoding; [None] is the decode error.  No node of a buffer
    takes less than a byte, so the length of the buffer bounds the depth of
    the tree. *)
Definition tree_from_buf (data_buf : list byte) : option shape :=
  match decode_node (S (length data_buf)) data_buf with
  | Some (t, []) => Some t
  | _ => None
  end.

(** The trees of the grammar that the C types can hold: every id is a node
    type of the grammar, lengths and child counts have 64 bits. *)
Fixpoint shape_ok (t : shape) : bool :=
  match t with
  | Leaf rid value =>
      known_id rid && (N.of_nat (length value) <? 2 ^ 64)
  | Inner rid kids =>
      known_id rid && (N.of_nat (length kids) <? 2 ^ 64) &&
      forallb shape_ok kids
  end.

(** The number of nodes on the longest path from the root. *)
Fixpoint height (t : shape) : nat :=
  match t with
  | Leaf _ _ => 1
  | Inner _ kids => S (foldr (λ k m, max (height k) m) 0%nat kids)
  end.

Section Engine.

(** ** Node construction ([tree.c]) *)

(** [tree.c] is not among the sources, so the value [node_create] gives the
    counter [non_term_size] of a fresh node is not known; the development is
    parametric in it. *)
Variable node_create_size : N.

(** Modelled from the spec: [node_create] of [tree.c].  It allocates a node
    of the given type with no value, no children and no parent. *)
Definition node_create (nid : N) : M addr :=
  alloc (Node nid 0 node_create_size None 0 None []).

(** Modelled from the spec: [node_set_val] of [tree.c].  It attaches a copy of
    the first [len] bytes of [buf] to the node. *)
Definition node_set_val (node : addr) (buf : list byte) (len : N) : M unit :=
  modify (λ nd, Node (id nd) (recursion_edge_size nd) (non_term_size nd)
                     (Some (take (N.to_nat len) buf)) len
                     (parent nd) (subnodes nd)) node.

(** Modelled from the spec: [node_create_with_val] of [tree.c]. *)
Definition node_create_with_val (nid : N) (buf : list byte) (len : N) : M addr :=
  node <- node_create nid ;;
  node_set_val node buf len ;;;
  ret node.

(** Modelled from the spec: [tree_create] of [tree.c], an empty tree. *)
Definition tree_create : M tree_ptr := alloc_tree (Tree None 0 [] 0).

(** ** The generators ([f1_c_fuzz.c]) *)

(** [static inline int map_rand(int v) { return random() % v; }] *)
Definition map_rand (v : N) : M N :=
  if v =? 0 then fault else r <- random ;; ret (r mod v).

(** [node->non_term_size += 1;] *)
Definition incr_non_term_size (node : addr) : M unit :=
  modify (λ nd, Node (id nd) (recursion_edge_size nd)
                     (size_add (non_term_size nd) 1)
                     (val_buf nd) (val_len nd) (parent nd) (subnodes nd)) node.

(** [node->recursion_edge_size += 1;] *)
Definition incr_recursion_edge_size (node : addr) : M unit :=
  modify (λ nd, Node (id nd) (size_add (recursion_edge_size nd) 1)
                     (non_term_size nd)
                     (val_buf nd) (val_len nd) (parent nd) (subnodes nd)) node.

(** [node->subnodes[i] = subnode;] for the next slot [i].  Nothing else is
    written: the generators leave [subnode->parent] as [node_create] made
    it. *)
Definition put_subnode (node subnode : addr) : M unit :=
  modify (λ nd, Node (id nd) (recursion_edge_size nd) (non_term_size nd)
                     (val_buf nd) (val_len nd) (parent nd)
                     (subnodes nd ++ [subnode])) node.

(** The call [gen(depth + 1)] of a generator one level deeper. *)
Definition deeper (gen : Z → M addr) (depth : Z) : M addr :=
  d <- int_succ depth ;; gen d.

(** The statements of one [case], [gen r] standing for the call
    [gen_r(depth + 1)]. *)
Fixpoint gen_symbols (gen : rule → M addr) (node : addr)
    (syms : list symbol) : M unit :=
  match syms with
  | [] => ret tt
  | Lit str n :: rest =>
      subnode <- node_create_with_val TERM_NODE str n ;;
      put_subnode node subnode ;;;
      gen_symbols gen node rest
  | Sub r :: rest =>
      subnode <- gen r ;;
      incr_non_term_size node ;;;
      put_subnode node subnode ;;;
      gen_symbols gen node rest
  | SubRec r :: rest =>
      subnode <- gen r ;;
      incr_non_term_size node ;;;
      incr_recursion_edge_size node ;;;
      put_subnode node subnode ;;;
      gen_symbols gen node rest
  end.

(** The branch [if (depth > max_depth) { ... }]: a value from the pool.
    Indexing an array outside its bounds is undefined behaviour. *)
Definition gen_pool (b : gen_body) (node : addr) : M unit :=
  val <- map_rand (pool_n b) ;;
  match pool b !! N.to_nat val, pool_l b !! N.to_nat val with
  | Some str, Some str_l => node_set_val node str str_l
  | _, _ => fault
  end.

(** [int val = map_rand(n); switch (val) { ... }]; there is no [default]. *)
Definition gen_switch (b : gen_body) (gen : rule → M addr) (node : addr) : M unit :=
  val <- map_rand (case_n b) ;;
  match cases b !! N.to_nat val with
  | Some syms => gen_symbols gen node syms
  | None => ret tt
  end.

(** The 30 generator functions [gen_start], [gen_json], ... of the source
    are instances of one template and differ in what [body_of] records; this
    is the template, the function of rule [r] at [depth].  The recursion goes
    one level deeper at every call and stops past [max_depth]; [fuel] makes
    it structural.  [depth] and [max_depth] are C [int]s: below the bound
    [depth] is at most [max_depth], so [depth + 1] overflows only in a call
    at depth [INT_MAX] with [max_depth] at [INT_MAX]. *)
Fixpoint gen_fuel (fuel : nat) (r : rule) (depth : Z) : M addr :=
  node <- node_create (rule_id r) ;;
  md <- get_max_depth ;;
  if (depth >? md)%Z then
    (gen_pool (body_of r) node ;;; ret node)
  else
    match fuel with
    | O => out_of_fuel
    | S k =>
        gen_switch (body_of r) (fun r' => deeper (gen_fuel k r') depth) node ;;;
        ret node
    end.

(** The levels left between [depth] and the current [max_depth] bound the
    recursion: with this much fuel the function satisfies the recursion of
    the source ([gen_rule_eq]) and, when [max_depth] is less than [INT_MAX],
    returns ([gen_rule_returns]). *)
Definition gen_rule (r : rule) (depth : Z) : M addr :=
  fun s => gen_fuel (Z.to_nat (max_depth s - depth + 1)) r depth s.

Definition gen_start := gen_rule START.
Definition gen_json := gen_rule JSON.
Definition gen_element := gen_rule ELEMENT.
Definition gen_value := gen_rule VALUE.
Definition gen_object := gen_rule OBJECT.
Definition gen_members := gen_rule MEMBERS.
Definition gen_member := gen_rule MEMBER.
Definition gen_array := gen_rule ARRAY.
Definition gen_elements := gen_rule ELEMENTS.
Definition gen_string := gen_rule STRING.
Definition gen_characters := gen_rule CHARACTERS.
Definition gen_character := gen_rule CHARACTER.
Definition gen_esc := gen_rule ESC.
Definition gen_escc := gen_rule ESCC.
Definition gen_number := gen_rule NUMBER.
Definition gen_int := gen_rule INT.
Definition gen_digits := gen_rule DIGITS.
Definition gen_digit := gen_rule DIGIT.
Definition gen_onenine := gen_rule ONENINE.
Definition gen_frac := gen_rule FRAC.
Definition gen_exp := gen_rule EXP.
Definition gen_sign := gen_rule SIGN.
Definition gen_ws := gen_rule WS.
Definition gen_sp1 := gen_rule SP1.
Definition gen_symbol := gen_rule SYMBOL.
Definition gen_symbol_1 := gen_rule SYMBOL_1.
Definition gen_symbol_2 := gen_rule SYMBOL_2.
Definition gen_symbol_1_1 := gen_rule SYMBOL_1_1.
Definition gen_character_1 := gen_rule CHARACTER_1.
Definition gen_digit_1 := gen_rule DIGIT_1.

(** [gen_func_t gen_funcs[31]]: entry 0 is [NULL]. *)
Definition gen_func_t : Type := Z → M addr.

Definition gen_funcs : list (option gen_func_t) :=
  [ None;
    Some gen_start; Some gen_json; Some gen_element; Some gen_value;
    Some gen_object; Some gen_members; Some gen_member; Some gen_array;
    Some gen_elements; Some gen_string; Some gen_characters;
    Some gen_character; Some gen_esc; Some gen_escc; Some gen_number;
    Some gen_int; Some gen_digits; Some gen_digit; Some gen_onenine;
    Some gen_frac; Some gen_exp; Some gen_sign; Some gen_ws; Some gen_sp1;
    Some gen_symbol; Some gen_symbol_1; Some gen_symbol_2;
    Some gen_symbol_1_1; Some gen_character_1; Some gen_digit_1 ].

(** [tree_t *gen_init__()] *)
Definition gen_init__ : M tree_ptr :=
  tree <- tree_create ;;
  r <- gen_start 0%Z ;;
  tr <- load_tree tree ;;
  store_tree tree (Tree (Some r) (depth tr) (data_buf tr) (data_len tr)) ;;;
  ret tree.

(** ** Structural operations ([tree.c]) *)

(** Loops over a child sequence: collecting results, for effect, and until
    the first success. *)
Fixpoint map_each {A B} (f : A → M B) (l : list A) : M (list B) :=
  match l with
  | [] => ret []
  | x :: xs => y <- f x ;; ys <- map_each f xs ;; ret (y :: ys)
  end.

Fixpoint for_each {A} (f : A → M unit) (l : list A) : M unit :=
  match l with
  | [] => ret tt
  | x :: xs => f x ;;; for_each f xs
  end.

Fixpoint exists_first {A} (f : A → M bool) (l : list A) : M bool :=
  match l with
  | [] => ret false
  | x :: xs => b <- f x ;; if b then ret true else exists_first f xs
  end.

(** The functions below walk the structure under a node.  Their recursion is
    bounded by the number of cells of the node store: on a tree no path is
    longer than that, and a walk that needs more is going round a cycle. *)
Definition heap_fuel (s : state) : nat := length (nodes s).

(** Modelled from the spec: [node_clone] of [tree.c].  Every node is freshly
    allocated with the type, value and counters copied, the children cloned
    in order and their [parent] set to the new owner. *)
Fixpoint node_clone_fuel (fuel : nat) (new_parent : option addr)
    (node : addr) : M addr :=
  match fuel with
  | O => out_of_fuel
  | S k =>
      nd <- load node ;;
      copy <- alloc (Node (id nd) (recursion_edge_size nd) (non_term_size nd)
                          (val_buf nd) (val_len nd) new_parent []) ;;
      subs <- map_each (node_clone_fuel k (Some copy)) (subnodes nd) ;;
      modify (λ c, Node (id c) (recursion_edge_size c) (non_term_size c)
                        (val_buf c) (val_len c) (parent c) subs) copy ;;;
      ret copy
  end.

Definition node_clone (node : addr) : M addr :=
  fun s => node_clone_fuel (heap_fuel s) None node s.

(** Modelled from the spec: [node_free] of [tree.c], a post-order free of the
    node and everything it owns. *)
Fixpoint node_free_fuel (fuel : nat) (node : addr) : M unit :=
  match fuel with
  | O => out_of_fuel
  | S k =>
      nd <- load node ;;
      for_each (node_free_fuel k) (subnodes nd) ;;;
      dealloc node
  end.

Definition node_free (node : addr) : M unit :=
  fun s => node_free_fuel (heap_fuel s) node s.

(** [new_subnode->parent = owner;] *)
Definition set_parent (node : addr) (p : option addr) : M unit :=
  modify (λ nd, Node (id nd) (recursion_edge_size nd) (non_term_size nd)
                     (val_buf nd) (val_len nd) p (subnodes nd)) node.

(** Modelled from the spec: [node_replace_subnode] of [tree.c].  It looks for
    [subnode], compared as a pointer, among the descendants of [root], writes
    [new_subnode] into the slot that held it, sets [new_subnode->parent], and
    leaves [subnode] alone; [false] when no slot under [root] holds
    [subnode]. *)
Fixpoint node_replace_fuel (fuel : nat) (root subnode new_subnode : addr)
    : M bool :=
  match fuel with
  | O => out_of_fuel
  | S k =>
      nd <- load root ;;
      match list_find (λ c, c = subnode) (subnodes nd) with
      | Some (i, _) =>
          modify (λ r, Node (id r) (recursion_edge_size r) (non_term_size r)
                            (val_buf r) (val_len r) (parent r)
                            (<[i := new_subnode]> (subnodes r))) root ;;;
          set_parent new_subnode (Some root) ;;;
          ret true
      | None =>
          exists_first (λ c, node_replace_fuel k c subnode new_subnode) (subnodes nd)
      end
  end.

Definition node_replace_subnode (root subnode new_subnode : addr) : M bool :=
  fun s => node_replace_fuel (heap_fuel s) root subnode new_subnode s.

(** Modelled from the spec: [tree_clone] of [tree.c], a new tree object that
    owns a clone of the root. *)
Definition tree_clone (tree : tree_ptr) : M tree_ptr :=
  tr <- load_tree tree ;;
  r <- match root tr with
       | None => ret None
       | Some n => c <- node_clone n ;; ret (Some c)
       end ;;
  alloc_tree (Tree r (depth tr) (data_buf tr) (data_len tr)).

(** ** The mutation engine ([tree_mutation.c]) *)

(** The [while (subnode)] loop of [_pick_node]: the first child, in order,
    under which the recursive call returns a node. *)
Fixpoint first_picked (pick : addr → M (option addr)) (subs : list addr)
    : M (option addr) :=
  match subs with
  | [] => ret None
  | subnode :: tmp =>
      r <- pick subnode ;;
      match r with
      | Some x => ret (Some x)
      | None => first_picked pick tmp
      end
  end.

(** [node_t *_pick_node(node_t *root)]; [None] is the [NULL] result.  The
    source walks the children from [root->subnodes] along [subnode->next];
    this is the child sequence in order. *)
Fixpoint pick_node_fuel (fuel : nat) (root : addr) : M (option addr) :=
  match fuel with
  | O => out_of_fuel
  | S k =>
      r <- random ;;
      if negb (r mod 2 =? 0) then ret (Some root)
      else
        nd <- load root ;;
        first_picked (pick_node_fuel k) (subnodes nd)
  end.

Definition _pick_node (root : addr) : M (option addr) :=
  fun s => pick_node_fuel (heap_fuel s) root s.

(** [mutated_tree->root = replace_node;] *)
Definition set_root (tree : tree_ptr) (r : addr) : M unit :=
  tr <- load_tree tree ;;
  store_tree tree (Tree (Some r) (depth tr) (data_buf tr) (data_len tr)).

(** [gen_funcs[node->id]] followed by the call through the pointer: reading
    past the table and calling [NULL] are undefined behaviour. *)
Definition dispatch (nid : N) : M gen_func_t :=
  match gen_funcs !! N.to_nat nid with
  | Some (Some gen_func) => ret gen_func
  | _ => fault
  end.

(** The tail of [random_mutation], from the [if (!parent)] on. *)
Definition splice (mutated_tree : tree_ptr) (node : addr)
    (par : option addr) (replace_node : addr) : M tree_ptr :=
  match par with
  | None =>
      node_free node ;;;
      set_root mutated_tree replace_node ;;;
      ret mutated_tree
  | Some p =>
      node_replace_subnode p node replace_node ;;;
      node_free node ;;;
      ret mutated_tree
  end.

(** [tree_t *random_mutation(tree_t *tree)].  With a [NULL] root both ways
    through [_pick_node] end in a dereference of [NULL]. *)
Definition random_mutation (tree : tree_ptr) : M tree_ptr :=
  mutated_tree <- tree_clone tree ;;
  mt <- load_tree mutated_tree ;;
  match root mt with
  | None => fault
  | Some rt =>
      picked <- _pick_node rt ;;
      let node := match picked with Some n => n | None => rt end in
      nd <- load node ;;
      let par := parent nd in
      r <- random ;;
      set_max_depth (Z.of_N (r mod 15) + 1) ;;;
      gen_func <- dispatch (id nd) ;;
      replace_node <- gen_func 0%Z ;;
      splice mutated_tree node par replace_node
  end.

(** * Specification vocabulary *)

(** ** Invariants of a tree *)

(** The structural content of the tree under a node of the store: a node
    that carries a value is a terminal, any other node a non-terminal with
    the content of its children.  [None] when a pointer dangles or the walk
    runs out of fuel. *)
Fixpoint shape_fuel (fuel : nat) (s : state) (a : addr) : option shape :=
  match fuel with
  | O => None
  | S k =>
      nd ← node_at s a;
      match val_buf nd with
      | Some value => Some (Leaf (id nd) value)
      | None =>
          kids ← mapM (shape_fuel k s) (subnodes nd);
          Some (Inner (id nd) kids)
      end
  end.

Definition shape_at (s : state) (a : addr) : option shape :=
  shape_fuel (heap_fuel s) s a.

(** The root node of a tree object. *)
Definition root_of (s : state) (t : tree_ptr) : option addr :=
  tr ← tree_at s t; root tr.

(** A terminal node carries a value. *)
Definition is_terminal (nd : node_t) : bool :=
  match val_buf nd with Some _ => true | None => false end.

(** The size invariant at one node: its [non_term_size] is 1 if it is a
    non-terminal, 0 otherwise, plus the [non_term_size] of its children. *)
Definition size_invariant_at (s : state) (a : addr) : Prop :=
  ∃ nd kids,
    node_at s a = Some nd ∧
    Forall2 (λ c k, node_at s c = Some k) (subnodes nd) kids ∧
    non_term_size nd =
      (if is_terminal nd then 0 else 1) + foldr N.add 0 (non_term_size <$> kids).

(** The parent invariant at one node: each of its children points back to
    it. *)
Definition parent_wired_at (s : state) (a : addr) : Prop :=
  ∃ nd, node_at s a = Some nd ∧
        ∀ c, c ∈ subnodes nd → ∃ k, node_at s c = Some k ∧ parent k = Some a.

(** [x] is a descendant of [root]: a child, or a descendant of a child. *)
Inductive descendant (s : state) : addr → addr → Prop :=
| descendant_child root nd x :
    node_at s root = Some nd → x ∈ subnodes nd → descendant s root x
| descendant_deeper root nd c x :
    node_at s root = Some nd → c ∈ subnodes nd → descendant s c x →
    descendant s root x.

(** The structure under [a] is a tree of live nodes of height at most
    [h]. *)
Fixpoint tree_within (s : state) (h : nat) (a : addr) : Prop :=
  match h with
  | O => False
  | S h' =>
      ∃ nd, node_at s a = Some nd ∧ Forall (tree_within s h') (subnodes nd)
  end.

(** ** Runs from program start *)

(** The state at program start: nothing allocated, [max_depth] at its
    initializer [-1]; [src] is what [random()] is going to return. *)
Definition boot (src : nat → N) : state := State [] [] (-1) src 0.

(** A stream of draws given by its first elements, 0 afterwards. *)
Definition draws (l : list N) : nat → N := λ n, default 0 (l !! n).

(** [gen_init__()] followed by one [random_mutation] of the tree it
    returns. *)
Definition first_mutation : M tree_ptr :=
  tree <- gen_init__ ;; random_mutation tree.

(** The same, followed by a [random_mutation] of the mutated tree. *)
Definition second_mutation : M tree_ptr :=
  tree <- first_mutation ;; random_mutation tree.

(** Draws that make [first_mutation] build the tree [START -> JSON ->
    ELEMENT -> (WS, VALUE, WS)] with [max_depth] 2, and a mutation of that
    tree skip the root and pick the [JSON] node. *)
Definition sample_draws : nat → N := draws [0; 1; 1; 0; 0; 0; 0; 0; 0; 0; 1].

(** The state in which [random_mutation] calls the generator: the draw at
    the current position has been consumed and has set [max_depth]. *)
Definition with_depth_drawn (s : state) : state :=
  State (nodes s) (trees s)
        (Z.of_N (rand_src s (rand_pos s) mod 15) + 1)
        (rand_src s) (S (rand_pos s)).

(** ** Effects on the stores *)

(** [s'] has the trees, the depth bound and the random stream of [s]. *)
Definition same_env (s s' : state) : Prop :=
  trees s' = trees s ∧ max_depth s' = max_depth s ∧ rand_src s' = rand_src s.

(** The node store has not shrunk and its cells below [n] are untouched. *)
Definition keeps_below (n : nat) (s s' : state) : Prop :=
  (length (nodes s) ≤ length (nodes s'))%nat ∧
  ∀ b, (b < n)%nat → nodes s' !! b = nodes s !! b.

(** What a call of the generator of rule [r] guarantees: the node it returns
    is the first cell it allocated, it carries the id of [r] and no parent,
    and nothing that existed before the call has been written. *)
Definition gen_post (r : rule) (s : state) (a : addr) (s' : state) : Prop :=
  a = length (nodes s) ∧ same_env s s' ∧ keeps_below a s s' ∧
  ∃ nd, node_at s' a = Some nd ∧ id nd = rule_id r ∧ parent nd = None.

(** The cells [lo .. hi) of the node store are laid out in allocation
    order: every one is live and its children lie after it, before [hi]. *)
Definition closed_region (lo hi : nat) (s : state) : Prop :=
  ∀ a nd, (lo ≤ a < hi)%nat → node_at s a = Some nd →
          Forall (λ c, (a < c < hi)%nat) (subnodes nd).

(** The cells [copy .. hi) hold a tree rooted at [copy] as [node_clone]
    builds it: every cell is live, its children lie after it, and it is
    listed among the children of the cell its [parent] names, the root having
    the parent [par]. *)
Definition clone_region (par : option addr) (copy hi : nat) (s : state)
    : Prop :=
  (copy < hi)%nat ∧
  ∀ a, (copy ≤ a < hi)%nat →
    ∃ nd, node_at s a = Some nd ∧
          Forall (λ c, (a < c < hi)%nat) (subnodes nd) ∧
          (a = copy → parent nd = par) ∧
          (a ≠ copy → ∃ p ndp, parent nd = Some p ∧ (copy ≤ p < a)%nat ∧
                               node_at s p = Some ndp ∧ a ∈ subnodes ndp).

(** What [node_clone] guarantees: the clone occupies the cells from [copy]
    to the end of the store, and nothing older is written. *)
Definition clone_post (par : option addr) (s : state) (copy : addr)
    (s' : state) : Prop :=
  copy = length (nodes s) ∧ same_env s s' ∧ rand_pos s' = rand_pos s ∧
  keeps_below copy s s' ∧ clone_region par copy (length (nodes s')) s'.

(** From [s] to [s'] some cells of [lo .. hi) were freed and nothing else
    happened. *)
Definition frees_within (lo hi : nat) (s s' : state) : Prop :=
  same_env s s' ∧ rand_pos s' = rand_pos s ∧
  length (nodes s') = length (nodes s) ∧
  ∀ a, nodes s' !! a = nodes s !! a ∨
       ((lo ≤ a < hi)%nat ∧ nodes s' !! a = Some None).

(** The writes of a successful [node_replace_subnode], at the owner [p] of
    the slot [i]. *)
Definition replace_writes (p : addr) (i : nat) (new : addr) (s s' : state)
    : Prop :=
  ∃ s1,
    modify (λ r, Node (id r) (recursion_edge_size r) (non_term_size r)
                      (val_buf r) (val_len r) (parent r)
                      (<[i := new]> (subnodes r))) p s = Ret tt s1 ∧
    set_parent new (Some p) s1 = Ret tt s'.

(** ** Generated trees *)

(** [n] increments of a [size_t] counter. *)
Definition bump (n : nat) (x : N) : N := Nat.iter n (λ y, size_add y 1) x.

(** The statement groups that call a generator, and those that also count a
    recursion edge. *)
Definition is_sub (sym : symbol) : bool :=
  match sym with Lit _ _ => false | Sub _ | SubRec _ => true end.

Definition is_rec (sym : symbol) : bool :=
  match sym with SubRec _ => true | Lit _ _ | Sub _ => false end.

Definition count {A} (p : A → bool) (l : list A) : nat :=
  length (List.filter p l).

(** The child [c] is what the statement group [sym] stored: a childless
    leaf of type [TERM_NODE] holding the first [n] bytes of the literal, or
    a node of the type of the rule whose generator was called. *)
Definition sym_child (s : state) (sym : symbol) (c : addr) : Prop :=
  ∃ k, node_at s c = Some k ∧
    match sym with
    | Lit str n =>
        id k = TERM_NODE ∧ val_buf k = Some (take (N.to_nat n) str) ∧
        val_len k = n ∧ subnodes k = []
    | Sub r | SubRec r => id k = rule_id r
    end.

(** A node as the generated code leaves it: a literal leaf; or the node of
    some rule, which past the depth bound holds an entry of the rule's pool
    and otherwise the children of one case of the rule's [switch], with the
    two counters incremented once per generated child and once per
    recursion edge.  In every case the node has no parent. *)
Definition generated_node (s : state) (nd : node_t) : Prop :=
  parent nd = None ∧
  ((id nd = TERM_NODE ∧ is_Some (val_buf nd) ∧ subnodes nd = [] ∧
    recursion_edge_size nd = 0 ∧ non_term_size nd = node_create_size)
   ∨ ∃ r, id nd = rule_id r ∧
       ((∃ i str, pool (body_of r) !! i = Some str ∧ val_buf nd = Some str ∧
                  val_len nd = N.of_nat (length str) ∧ subnodes nd = [] ∧
                  recursion_edge_size nd = 0 ∧
                  non_term_size nd = node_create_size)
        ∨ (val_buf nd = None ∧
           ∃ syms, syms ∈ cases (body_of r) ∧
                   Forall2 (sym_child s) syms (subnodes nd) ∧
                   recursion_edge_size nd = bump (count is_rec syms) 0 ∧
                   non_term_size nd =
                     bump (count is_sub syms) node_create_size))).

(** The cells [lo .. hi) hold generated nodes, each with its children after
    it. *)
Definition gen_region (lo hi : nat) (s : state) : Prop :=
  ∀ x, (lo ≤ x < hi)%nat →
    ∃ nd, node_at s x = Some nd ∧
          Forall (λ c, (x < c < hi)%nat) (subnodes nd) ∧
          generated_node s nd.

(** The structure under [a] is a derivation of rule [r] of height at most
    [h], leaves included: a pool leaf of [r], or the children of one case
    of [r], literal leaves for its literals and derivations of the rules it
    names. *)
Fixpoint derives (s : state) (h : nat) (r : rule) (a : addr) : Prop :=
  match h with
  | O => False
  | S h' =>
      ∃ nd, node_at s a = Some nd ∧ id nd = rule_id r ∧
        ((∃ str, str ∈ pool (body_of r) ∧ val_buf nd = Some str ∧
                 val_len nd = N.of_nat (length str) ∧ subnodes nd = [])
         ∨ (val_buf nd = None ∧
            ∃ syms, syms ∈ cases (body_of r) ∧
              Forall2 (λ sym c,
                         match sym with
                         | Lit str _ =>
                             (0 < h')%nat ∧
                             ∃ k, node_at s c = Some k ∧ id k = TERM_NODE ∧
                                  val_buf k = Some str ∧
                                  val_len k = N.of_nat (length str) ∧
                                  subnodes k = []
                         | Sub r' | SubRec r' => derives s h' r' c
                         end) syms (subnodes nd)))
  end.

(** The children of a node that are non-terminals, and those of the node's
    own type. *)
Definition non_term_child (s : state) (c : addr) : bool :=
  match node_at s c with
  | Some k => negb (id k =? TERM_NODE)
  | None => false
  end.

Definition same_type_child (s : state) (nd : node_t) (c : addr) : bool :=
  match node_at s c with
  | Some k => id k =? id nd
  | None => false
  end.

(** Checks on one statement group of a case of rule [r]: a literal is
    stored whole, and the recursion edge is counted exactly when the
    generator called is the one of [r] itself. *)
Definition lit_whole (sym : symbol) : bool :=
  match sym with
  | Lit str n => n =? N.of_nat (length str)
  | Sub _ | SubRec _ => true
  end.

Definition rec_self (r : rule) (sym : symbol) : bool :=
  match sym with
  | Lit _ _ => true
  | Sub r' => negb (rule_id r' =? rule_id r)
  | SubRec r' => rule_id r' =? rule_id r
  end.

(** What a generator call is known to do, when the recursion is being
    unfolded: the effect on the store, the region filled and its height. *)
Definition gen_ok (h : nat) (gen : rule → M addr) : Prop :=
  ∀ r s a s',
    gen r s = Ret a s' →
    gen_post r s a s' ∧ (a < length (nodes s'))%nat ∧
    gen_region a (length (nodes s')) s' ∧ tree_within s' h a.

(** ** The pick *)

(** The nodes of the tree under [a] in pre-order: a node, then the nodes
    under each of its children in turn.  [None] when a pointer dangles or
    the walk runs out of fuel. *)
Fixpoint preorder (fuel : nat) (s : state) (a : addr) : option (list addr) :=
  match fuel with
  | O => None
  | S k =>
      nd ← node_at s a;
      kids ← mapM (preorder k s) (subnodes nd);
      Some (a :: concat kids)
  end.

(** One draw per node of [l], from position [pos] of the stream on: the
    first node whose draw is odd, with the position after its draw; no node,
    after a draw for every node of [l], when all the draws are even. *)
Fixpoint first_odd (src : nat → N) (pos : nat) (l : list addr)
    : option addr * nat :=
  match l with
  | [] => (None, pos)
  | x :: rest =>
      if negb (src pos mod 2 =? 0) then (Some x, S pos)
      else first_odd src (S pos) rest
  end.

(** ** Clones *)

(** In the cells [lo .. hi) the child sequences and the parent pointers
    agree: no node is listed twice among the children of a node, and every
    node listed has the lister as its parent. *)
Definition clone_edges (lo hi : nat) (s : state) : Prop :=
  ∀ q ndq, (lo ≤ q < hi)%nat → node_at s q = Some ndq →
    NoDup (subnodes ndq) ∧
    ∀ c, c ∈ subnodes ndq →
         ∃ ndc, node_at s c = Some ndc ∧ parent ndc = Some q.

(** The subtree under [a] is laid out as a clone: [a] and every descendant
    of it is live, lists no child twice and is the parent of the children
    it lists. *)
Definition subtree_ok (s : state) (a : addr) : Prop :=
  ∀ q, q = a ∨ descendant s a q →
    ∃ ndq, node_at s q = Some ndq ∧ NoDup (subnodes ndq) ∧
           ∀ c, c ∈ subnodes ndq →
                ∃ ndc, node_at s c = Some ndc ∧ parent ndc = Some q.

(** The node [copy] of [s'] carries what the node [node] of [s] carries:
    the type, the value, as many children. *)
Definition copies_node (s : state) (node : addr) (s' : state) (copy : addr)
    : Prop :=
  ∀ nd, node_at s node = Some nd →
    ∃ nd', node_at s' copy = Some nd' ∧ id nd' = id nd ∧
           val_buf nd' = val_buf nd ∧ val_len nd' = val_len nd ∧
           length (subnodes nd') = length (subnodes nd).

(** What a clone is, besides its layout: edges and parents agree, the root
    is copied, and a derivation is cloned into a derivation. *)
Definition clone_copy (s : state) (node : addr) (s' : state) (copy : addr)
    : Prop :=
  clone_edges copy (length (nodes s')) s' ∧
  copies_node s node s' copy ∧
  ∀ h r, derives s h r node → derives s' h r copy.

(** ** Draws *)

(** The node types held by the cells of a node store, in address order, and
    the number of cells among them that hold a non-terminal. *)
Definition types_of (st : list (option node_t)) : list (option N) :=
  (λ o : option node_t, id <$> o) <$> st.

Definition is_rule_cell (o : option N) : bool :=
  match o with
  | Some nid => negb (nid =? TERM_NODE)
  | None => false
  end.

Definition rule_cells (st : list (option node_t)) : nat :=
  count is_rule_cell (types_of st).

(** ** The language of the grammar *)

(** [w] is a sentence of rule [r]: the concatenation, for one case of the
    rule, of its literals and of sentences of the rules it names; [h]
    bounds the height of the derivation.  The pools play no part. *)
Fixpoint lang (h : nat) (r : rule) (w : list byte) : Prop :=
  match h with
  | O => False
  | S h' =>
      ∃ syms ws,
        syms ∈ cases (body_of r) ∧ w = concat ws ∧
        Forall2 (λ sym v,
                   match sym with
                   | Lit str _ => v = str
                   | Sub r' | SubRec r' => lang h' r' v
                   end) syms ws
  end.

(** A decision procedure for [lang], by trying every case and every way of
    cutting the word. *)
Fixpoint bytes_eqb (a b : list byte) : bool :=
  match a, b with
  | [], [] => true
  | x :: a', y :: b' => Byte.eqb x y && bytes_eqb a' b'
  | _, _ => false
  end.

Fixpoint match_syms (m : rule → list byte → bool) (syms : list symbol)
    (w : list byte) : bool :=
  match syms with
  | [] => bytes_eqb w []
  | Lit str _ :: rest =>
      bytes_eqb str (take (length str) w) &&
      match_syms m rest (drop (length str) w)
  | Sub r :: rest | SubRec r :: rest =>
      existsb (λ n, m r (take n w) && match_syms m rest (drop n w))
              (seq 0 (S (length w)))
  end.

Fixpoint matches (h : nat) (r : rule) (w : list byte) : bool :=
  match h with
  | O => false
  | S h' => existsb (λ syms, match_syms (matches h') syms w)
                    (cases (body_of r))
  end.

(** What the tree under [a] stands for: the values at its leaves, from left
    to right.  [None] when a pointer dangles or the walk runs out of
    fuel. *)
Fixpoint yield (fuel : nat) (s : state) (a : addr) : option (list byte) :=
  match fuel with
  | O => None
  | S k =>
      nd ← node_at s a;
      match val_buf nd with
      | Some value => Some value
      | None =>
          ws ← mapM (yield k s) (subnodes nd);
          Some (concat ws)
      end
  end.


(** ** Mutations *)

(** [repl] stands in the tree [t'] of [s'] where [node] stood in [s2]: at
    the root of the tree when [node], its root, has no parent; otherwise in
    the slot that held [node] in the child sequence of its parent, which is
    otherwise as it was, and with that parent as its [parent]. *)
Definition takes_place (s2 : state) (node : addr) (s' : state)
    (t' : tree_ptr) (repl : addr) : Prop :=
  ∃ nd, node_at s2 node = Some nd ∧
    match parent nd with
    | None => root_of s2 t' = Some node ∧ root_of s' t' = Some repl
    | Some p =>
        ∃ ndp i ndr,
          node_at s2 p = Some ndp ∧ subnodes ndp !! i = Some node ∧
          node_at s' p =
            Some (Node (id ndp) (recursion_edge_size ndp) (non_term_size ndp)
                       (val_buf ndp) (val_len ndp) (parent ndp)
                       (<[i := repl]> (subnodes ndp))) ∧
          node_at s' repl = Some ndr ∧ parent ndr = Some p
    end.





(** * Verification *)

(** ** Running a computation step by step *)

Lemma bind_Ret {A B} (m : M A) (f : A → M B) s b s' :
  bind m f s = Ret b s' → ∃ a s1, m s = Ret a s1 ∧ f a s1 = Ret b s'.
Proof.
  unfold bind. destruct (m s) as [a s1| |]; [|discriminate..].
  intros H. by exists a, s1.
Qed.

Lemma ret_Ret {A} (a b : A) s s' : ret a s = Ret b s' → b = a ∧ s' = s.
Proof. unfold ret. by intros [= -> ->]. Qed.

Lemma load_Ret a s nd s' :
  load a s = Ret nd s' → s' = s ∧ node_at s a = Some nd.
Proof. unfold load. destruct (node_at s a); by intros [= -> ->]. Qed.

Lemma store_Ret a nd s u s' :
  store a nd s = Ret u s' →
  s' = with_nodes s (<[a := Some nd]> (nodes s)) ∧ is_Some (node_at s a).
Proof. unfold store. destruct (node_at s a) eqn:E; [|done]. intros [= _ <-]. eauto. Qed.

Lemma alloc_Ret nd s a s' :
  alloc nd s = Ret a s' →
  a = length (nodes s) ∧ s' = with_nodes s (nodes s ++ [Some nd]).
Proof. unfold alloc. by intros [= <- <-]. Qed.

Lemma dealloc_Ret a s u s' :
  dealloc a s = Ret u s' →
  s' = with_nodes s (<[a := None]> (nodes s)) ∧ is_Some (node_at s a).
Proof. unfold dealloc. destruct (node_at s a) eqn:E; [|done]. intros [= _ <-]. eauto. Qed.

Lemma random_Ret s r s' :
  random s = Ret r s' →
  r = rand_src s (rand_pos s) ∧
  s' = State (nodes s) (trees s) (max_depth s) (rand_src s) (S (rand_pos s)).
Proof. unfold random. by intros [= <- <-]. Qed.

Lemma map_rand_Ret v s r s' :
  map_rand v s = Ret r s' →
  v ≠ 0 ∧ r = rand_src s (rand_pos s) mod v ∧
  s' = State (nodes s) (trees s) (max_depth s) (rand_src s) (S (rand_pos s)).
Proof.
  unfold map_rand. destruct (N.eqb_spec v 0) as [->|Hv]; [done|].
  intros (r0 & s1 & [-> ->]%random_Ret & [-> ->]%ret_Ret)%bind_Ret. done.
Qed.

(** Inverts a hypothesis [m s = Ret a s'] along the structure of [m]. *)
Ltac run_inv H :=
  lazymatch type of H with
  | bind _ _ _ = Ret _ _ =>
      let a := fresh "a" in
      let s := fresh "s" in
      let H1 := fresh "Hm" in
      apply bind_Ret in H as (a & s & H1 & H); run_inv H1; run_inv H
  | ret _ _ = Ret _ _ => apply ret_Ret in H as [? ?]; subst
  | load _ _ = Ret _ _ =>
      let E := fresh "Hload" in apply load_Ret in H as [? E]; subst
  | store _ _ _ = Ret _ _ =>
      let E := fresh "Hlive" in apply store_Ret in H as [? E]; subst
  | alloc _ _ = Ret _ _ => apply alloc_Ret in H as [? ?]; subst
  | dealloc _ _ = Ret _ _ =>
      let E := fresh "Hlive" in apply dealloc_Ret in H as [? E]; subst
  | random _ = Ret _ _ => apply random_Ret in H as [? ?]; subst
  | map_rand _ _ = Ret _ _ =>
      let E := fresh "Hv" in apply map_rand_Ret in H as (E & ? & ?); subst
  | fault _ = Ret _ _ => discriminate H
  | out_of_fuel _ = Ret _ _ => discriminate H
  | _ => idtac
  end.

(** ** The node store *)

Lemma cell_lookup {A} (st : list (option A)) a x :
  cell st a = Some x ↔ st !! a = Some (Some x).
Proof.
  unfold cell. destruct (st !! a) as [[y|]|]; split; intros; simplify_eq; done.
Qed.

Lemma cell_lt {A} (st : list (option A)) a x :
  cell st a = Some x → (a < length st)%nat.
Proof. rewrite cell_lookup. apply lookup_lt_Some. Qed.

Lemma cell_insert_eq {A} (st : list (option A)) a x :
  (a < length st)%nat → cell (<[a := Some x]> st) a = Some x.
Proof. intros. apply cell_lookup. by apply list_lookup_insert_eq. Qed.

Lemma cell_insert_ne {A} (st : list (option A)) a b o :
  a ≠ b → cell (<[a := o]> st) b = cell st b.
Proof. intros. unfold cell. by rewrite list_lookup_insert_ne. Qed.

Lemma cell_app_l {A} (st ext : list (option A)) a :
  (a < length st)%nat → cell (st ++ ext) a = cell st a.
Proof. intros. unfold cell. by rewrite lookup_app_l. Qed.

Lemma cell_app_new {A} (st : list (option A)) x :
  cell (st ++ [Some x]) (length st) = Some x.
Proof. apply cell_lookup. by rewrite lookup_app_r, Nat.sub_diag. Qed.

Lemma modify_Ret f a s u s' :
  modify f a s = Ret u s' →
  ∃ nd, node_at s a = Some nd ∧
        s' = with_nodes s (<[a := Some (f nd)]> (nodes s)).
Proof. intros H. unfold modify in H. run_inv H. eauto. Qed.

Lemma same_env_refl s : same_env s s.
Proof. done. Qed.

Lemma same_env_trans s1 s2 s3 : same_env s1 s2 → same_env s2 s3 → same_env s1 s3.
Proof. unfold same_env. intros (?&?&?) (?&?&?). repeat split; congruence. Qed.

Lemma keeps_below_refl n s : keeps_below n s s.
Proof. split; [lia | done]. Qed.

Lemma keeps_below_trans n s1 s2 s3 :
  keeps_below n s1 s2 → keeps_below n s2 s3 → keeps_below n s1 s3.
Proof.
  intros [L1 K1] [L2 K2]. split; [lia|].
  intros b Hb. rewrite K2, K1; done.
Qed.

Lemma keeps_below_mono n m s s' :
  (m ≤ n)%nat → keeps_below n s s' → keeps_below m s s'.
Proof. intros Hm [L K]. split; [done|]. intros b Hb. apply K. lia. Qed.

Lemma keeps_below_node_at n s s' a :
  keeps_below n s s' → (a < n)%nat → node_at s' a = node_at s a.
Proof. intros [_ K] Ha. unfold node_at, cell. by rewrite K. Qed.

Lemma modify_effect f a s u s' :
  modify f a s = Ret u s' →
  same_env s s' ∧ rand_pos s' = rand_pos s ∧
  length (nodes s') = length (nodes s) ∧
  (∃ nd, node_at s a = Some nd ∧ node_at s' a = Some (f nd)) ∧
  (∀ b, b ≠ a → nodes s' !! b = nodes s !! b).
Proof.
  intros (nd & Hnd & ->)%modify_Ret. simpl.
  repeat split; try done.
  - apply length_insert.
  - exists nd. split; [done|]. apply cell_insert_eq. by eapply cell_lt.
  - intros b Hb. by apply list_lookup_insert_ne.
Qed.

Lemma modify_keeps_below f a s u s' n :
  modify f a s = Ret u s' → (n ≤ a)%nat → keeps_below n s s'.
Proof.
  intros (_ & _ & L & _ & K)%modify_effect Hn. split; [lia|].
  intros b Hb. apply K. lia.
Qed.

Lemma node_create_effect nid s a s' :
  node_create nid s = Ret a s' →
  a = length (nodes s) ∧ same_env s s' ∧ rand_pos s' = rand_pos s ∧
  nodes s' = nodes s ++ [Some (Node nid 0 node_create_size None 0 None [])].
Proof. unfold node_create. intros H. run_inv H. done. Qed.

Lemma node_create_keeps_below nid s a s' :
  node_create nid s = Ret a s' → keeps_below a s s'.
Proof.
  intros (-> & _ & _ & E)%node_create_effect. split.
  - rewrite E, length_app. lia.
  - intros b Hb. rewrite E. by apply lookup_app_l.
Qed.

Lemma node_create_with_val_effect nid buf len s a s' :
  node_create_with_val nid buf len s = Ret a s' →
  a = length (nodes s) ∧ same_env s s' ∧ keeps_below a s s' ∧
  node_at s' a = Some (Node nid 0 node_create_size
                            (Some (take (N.to_nat len) buf)) len None []).
Proof.
  unfold node_create_with_val, node_set_val. intros H. run_inv H.
  pose proof (node_create_keeps_below _ _ _ _ Hm) as K1.
  apply node_create_effect in Hm as (-> & E1 & _ & N1).
  pose proof (modify_keeps_below _ _ _ _ _ _ Hm0 (Nat.le_refl _)) as K2.
  apply modify_effect in Hm0 as (E2 & _ & _ & (nd & Hnd & Hnd') & _).
  repeat split.
  - by eapply same_env_trans.
  - by eapply same_env_trans.
  - by eapply same_env_trans.
  - destruct K1, K2. lia.
  - intros b Hb. destruct K1 as [_ K1], K2 as [_ K2]. rewrite K2, K1; done.
  - unfold node_at in Hnd. rewrite N1, cell_app_new in Hnd.
    by injection Hnd as <-.
Qed.

Lemma map_rand_effect v s r s' :
  map_rand v s = Ret r s' →
  same_env s s' ∧ nodes s' = nodes s ∧ r < v.
Proof.
  intros (Hv & -> & ->)%map_rand_Ret. repeat split.
  by apply N.mod_lt.
Qed.

(** ** The generators and the store *)

Lemma deeper_Ret (gen : Z → M addr) depth s a s' :
  deeper gen depth s = Ret a s' →
  (depth < INT_MAX)%Z ∧ gen (depth + 1)%Z s = Ret a s'.
Proof.
  unfold deeper, int_succ, bind.
  destruct (Z.ltb_spec depth INT_MAX) as [Hlt|_]; [|done]. done.
Qed.

Lemma deeper_run (gen : Z → M addr) depth s :
  (depth < INT_MAX)%Z → deeper gen depth s = gen (depth + 1)%Z s.
Proof.
  intros Hlt. unfold deeper, int_succ, bind.
  by destruct (Z.ltb_spec depth INT_MAX) as [_|Hge]; [|lia].
Qed.

Lemma deeper_ext (g1 g2 : Z → M addr) depth s :
  g1 (depth + 1)%Z s = g2 (depth + 1)%Z s →
  deeper g1 depth s = deeper g2 depth s.
Proof.
  intros H. unfold deeper, int_succ, bind.
  by destruct (depth <? INT_MAX)%Z.
Qed.

Lemma gen_symbols_effect (gen : rule → M addr) node syms :
  (∀ r s a s', gen r s = Ret a s' → gen_post r s a s') →
  ∀ s u s' nd,
    node_at s node = Some nd →
    gen_symbols gen node syms s = Ret u s' →
    same_env s s' ∧ keeps_below node s s' ∧
    ∃ nd', node_at s' node = Some nd' ∧ id nd' = id nd ∧
           parent nd' = parent nd ∧ val_buf nd' = val_buf nd.
Proof.
  intros Hgen. induction syms as [|sym rest IH]; intros s u s' nd Hnd H.
  - simpl in H. run_inv H. split; [done|]. split; [apply keeps_below_refl|].
    by exists nd.
  - pose proof (cell_lt _ _ _ Hnd) as Hlt.
    destruct sym as [str n|r|r]; simpl in H.
    + apply bind_Ret in H as (sub & s1 & H1 & H).
      apply bind_Ret in H as ([] & s2 & H2 & H).
      apply node_create_with_val_effect in H1 as (-> & E1 & K1 & _).
      pose proof (modify_keeps_below _ _ _ _ _ _ H2 (Nat.le_refl _)) as K2.
      apply modify_effect in H2 as (E2 & _ & _ & (nd1 & Hnd1 & Hnd2) & _).
      rewrite (keeps_below_node_at _ _ _ _ K1 Hlt), Hnd in Hnd1.
      injection Hnd1 as <-.
      destruct (IH _ _ _ _ Hnd2 H) as (E3 & K3 & nd' & ? & ? & ? & ?).
      split; [eauto using same_env_trans|]. split.
      * apply (keeps_below_trans _ _ s1); [|by apply (keeps_below_trans _ _ s2)].
        apply (keeps_below_mono (length (nodes s))); [lia | done].
      * by exists nd'.
    + apply bind_Ret in H as (sub & s1 & H1 & H).
      apply bind_Ret in H as ([] & s2 & H2 & H).
      apply bind_Ret in H as ([] & s3 & H3 & H).
      apply Hgen in H1 as (-> & E1 & K1 & _).
      pose proof (modify_keeps_below _ _ _ _ _ _ H2 (Nat.le_refl _)) as K2.
      apply modify_effect in H2 as (E2 & _ & _ & (nd1 & Hnd1 & Hnd2) & _).
      rewrite (keeps_below_node_at _ _ _ _ K1 Hlt), Hnd in Hnd1.
      injection Hnd1 as <-.
      pose proof (modify_keeps_below _ _ _ _ _ _ H3 (Nat.le_refl _)) as K3.
      apply modify_effect in H3 as (E3 & _ & _ & (nd3 & Hnd3 & Hnd4) & _).
      rewrite Hnd2 in Hnd3. injection Hnd3 as <-.
      destruct (IH _ _ _ _ Hnd4 H) as (E4 & K4 & nd' & ? & ? & ? & ?).
      split; [eauto using same_env_trans|]. split.
      * apply (keeps_below_trans _ _ s1);
          [|apply (keeps_below_trans _ _ s2); [done|];
            by apply (keeps_below_trans _ _ s3)].
        apply (keeps_below_mono (length (nodes s))); [lia | done].
      * by exists nd'.
    + apply bind_Ret in H as (sub & s1 & H1 & H).
      apply bind_Ret in H as ([] & s2 & H2 & H).
      apply bind_Ret in H as ([] & s3 & H3 & H).
      apply bind_Ret in H as ([] & s4 & H4 & H).
      apply Hgen in H1 as (-> & E1 & K1 & _).
      pose proof (modify_keeps_below _ _ _ _ _ _ H2 (Nat.le_refl _)) as K2.
      apply modify_effect in H2 as (E2 & _ & _ & (nd1 & Hnd1 & Hnd2) & _).
      rewrite (keeps_below_node_at _ _ _ _ K1 Hlt), Hnd in Hnd1.
      injection Hnd1 as <-.
      pose proof (modify_keeps_below _ _ _ _ _ _ H3 (Nat.le_refl _)) as K3.
      apply modify_effect in H3 as (E3 & _ & _ & (nd3 & Hnd3 & Hnd4) & _).
      rewrite Hnd2 in Hnd3. injection Hnd3 as <-.
      pose proof (modify_keeps_below _ _ _ _ _ _ H4 (Nat.le_refl _)) as K4.
      apply modify_effect in H4 as (E4 & _ & _ & (nd5 & Hnd5 & Hnd6) & _).
      rewrite Hnd4 in Hnd5. injection Hnd5 as <-.
      destruct (IH _ _ _ _ Hnd6 H) as (E5 & K5 & nd' & ? & ? & ? & ?).
      split; [eauto using same_env_trans|]. split.
      * apply (keeps_below_trans _ _ s1);
          [|apply (keeps_below_trans _ _ s2); [done|];
            apply (keeps_below_trans _ _ s3); [done|];
            by apply (keeps_below_trans _ _ s4)].
        apply (keeps_below_mono (length (nodes s))); [lia | done].
      * by exists nd'.
Qed.

Lemma gen_fuel_effect fuel :
  ∀ r depth s a s', gen_fuel fuel r depth s = Ret a s' → gen_post r s a s'.
Proof.
  induction fuel as [|k IH]; intros r depth s a s' H; simpl in H.
  all: apply bind_Ret in H as (node & s1 & H1 & H).
  all: apply bind_Ret in H as (md & s2 & H2 & H).
  all: unfold get_max_depth in H2; injection H2 as <- <-.
  all: pose proof (node_create_keeps_below _ _ _ _ H1) as K1.
  all: apply node_create_effect in H1 as (-> & E1 & _ & N1).
  all: assert (node_at s1 (length (nodes s)) =
               Some (Node (rule_id r) 0 node_create_size None 0 None []))
         as Hnode by (unfold node_at; rewrite N1; apply cell_app_new).
  all: destruct (depth >? max_depth s1)%Z.
  2: discriminate H.
  3: {
    apply bind_Ret in H as ([] & s3 & H3 & H). run_inv H.
    unfold gen_switch in H3.
    apply bind_Ret in H3 as (val & s4 & H4 & H3).
    apply map_rand_effect in H4 as (E4 & N4 & _).
    assert (node_at s4 (length (nodes s)) =
            Some (Node (rule_id r) 0 node_create_size None 0 None []))
      as Hnode4 by (unfold node_at; rewrite N4; apply Hnode).
    assert (keeps_below (length (nodes s)) s1 s4) as K4
      by (split; [by rewrite N4 | intros; by rewrite N4]).
    destruct (cases (body_of r) !! N.to_nat val) as [syms|].
    - eapply gen_symbols_effect in H3 as (E5 & K5 & nd' & ? & ? & ? & ?);
        [| intros r' s0 a0 s0' [_ Hd]%deeper_Ret; eapply IH; exact Hd
         | exact Hnode4].
      split; [done|]. split; [eauto using same_env_trans|]. split.
      + eauto using keeps_below_trans.
      + exists nd'. simpl in *. repeat split; congruence.
    - run_inv H3. split; [done|]. split; [eauto using same_env_trans|].
      split; [eauto using keeps_below_trans|]. eauto. }
  all: apply bind_Ret in H as ([] & s3 & H3 & H); run_inv H.
  all: unfold gen_pool in H3.
  all: apply bind_Ret in H3 as (val & s4 & H4 & H3).
  all: apply map_rand_effect in H4 as (E4 & N4 & _).
  all: destruct (pool (body_of r) !! N.to_nat val) as [str|]; [|discriminate H3].
  all: destruct (pool_l (body_of r) !! N.to_nat val) as [str_l|];
         [|discriminate H3].
  all: unfold node_set_val in H3.
  all: pose proof (modify_keeps_below _ _ _ _ _ _ H3 (Nat.le_refl _)) as K3.
  all: apply modify_effect in H3 as (E3 & _ & _ & (nd1 & Hnd1 & Hnd2) & _).
  all: assert (node_at s4 (length (nodes s)) =
               Some (Node (rule_id r) 0 node_create_size None 0 None []))
         as Hnode4 by (unfold node_at; rewrite N4; apply Hnode).
  all: rewrite Hnode4 in Hnd1; injection Hnd1 as <-.
  all: assert (keeps_below (length (nodes s)) s1 s4) as K4
         by (split; [by rewrite N4 | intros; by rewrite N4]).
  all: split; [done|]; split; [eauto using same_env_trans|]; split;
         [eauto using keeps_below_trans|]; eauto.
Qed.

Lemma gen_rule_effect r depth s a s' :
  gen_rule r depth s = Ret a s' → gen_post r s a s'.
Proof. apply gen_fuel_effect. Qed.

(** ** The pools *)

(** Every pool has as many entries as the bound of the draw that indexes it,
    and its length array holds the byte length of each entry. *)
Lemma pool_tables r :
  pool_n (body_of r) = N.of_nat (length (pool (body_of r))) ∧
  pool_n (body_of r) ≠ 0 ∧
  pool_l (body_of r) = (λ str, N.of_nat (length str)) <$> pool (body_of r).
Proof. destruct r; vm_compute; repeat split; discriminate. Qed.

(** The dispatch table holds, at the id of every rule, that rule's
    generator. *)
Lemma gen_funcs_rule r :
  gen_funcs !! N.to_nat (rule_id r) = Some (Some (gen_rule r)).
Proof. by destruct r. Qed.

(** C10.  Past the depth bound every generator emits a pool terminal.  For
    every rule [r], whose generator is the entry of [gen_funcs] at its id,
    and every [depth] strictly greater than the current [max_depth], the call
    returns; the node returned has the id of [r], no children, and as its
    value the entry of [r]'s pool at the index drawn, with [val_len] the byte
    length of that entry.  And in every pool the length array pairs each
    entry with its exact byte length. *)
Theorem gen_past_max_depth_pool_terminal (r : rule) (d : Z) (s : state) :
  (d > max_depth s)%Z →
  gen_funcs !! N.to_nat (rule_id r) = Some (Some (gen_rule r)) ∧
  (∀ i str, pool (body_of r) !! i = Some str →
            pool_l (body_of r) !! i = Some (N.of_nat (length str))) ∧
  ∃ a s' nd i str,
    gen_rule r d s = Ret a s' ∧ node_at s' a = Some nd ∧
    i = N.to_nat (rand_src s (rand_pos s) mod N.of_nat (length (pool (body_of r)))) ∧
    pool (body_of r) !! i = Some str ∧
    id nd = rule_id r ∧ subnodes nd = [] ∧
    val_buf nd = Some str ∧ val_len nd = N.of_nat (length str).
Proof.
  intros Hd. destruct (pool_tables r) as (Hn & Hn0 & Hl).
  split; [apply gen_funcs_rule|]. split.
  { intros i str Hi. by rewrite Hl, list_lookup_fmap, Hi. }
  rewrite <- Hn.
  set (v := rand_src s (rand_pos s) mod pool_n (body_of r)).
  assert (v < pool_n (body_of r)) as Hv by (by apply N.mod_lt).
  destruct (lookup_lt_is_Some_2 (pool (body_of r)) (N.to_nat v)) as [str Hstr];
    [lia|].
  assert (pool_l (body_of r) !! N.to_nat v = Some (N.of_nat (length str)))
    as Hstr_l by (by rewrite Hl, list_lookup_fmap, Hstr).
  unfold gen_rule. replace (Z.to_nat (max_depth s - d + 1)) with 0%nat by lia.
  simpl. unfold bind at 1. simpl.
  unfold bind at 1. unfold get_max_depth. cbn [max_depth with_nodes].
  assert ((d >? max_depth s)%Z = true) as -> by lia.
  unfold bind at 1, gen_pool. unfold bind at 1, map_rand.
  destruct (N.eqb_spec (pool_n (body_of r)) 0) as [|_]; [done|].
  unfold bind at 1, random. simpl. unfold ret at 1. fold v.
  rewrite Hstr, Hstr_l.
  unfold node_set_val, modify, bind, load, store, node_at. simpl.
  rewrite cell_app_new. simpl. rewrite cell_app_new. unfold ret.
  eexists _, _, _, _, str. split; [reflexivity|]. simpl.
  split; [apply cell_insert_eq; rewrite length_app; simpl; lia|].
  repeat split; simpl; try done.
  rewrite Nat2N.id. by rewrite take_ge.
Qed.

(** ** Generated trees and the pick: what the code does

    The four theorems below run the embedding from program start. *)

(** C1 (the code breaks it).  [_pick_node] returns [NULL]: on the tree that
    [gen_init__] builds at program start, a single leaf, an even first draw
    makes it skip the root and find no child. *)
Theorem pick_node_returns_null :
  ∃ t s a s',
    gen_init__ (boot (draws [])) = Ret t s ∧ root_of s t = Some a ∧
    _pick_node a s = Ret None s'.
Proof.
  eexists _, _, _, _. split; [cbv -[size_add]; reflexivity|].
  split; [reflexivity|]. cbv -[size_add]. reflexivity.
Qed.

(** C2 (the code breaks it).  After [gen_init__] and one [random_mutation]
    with all draws 0, the root [START] node and its only child, the [JSON]
    node, carry the same [non_term_size], whatever value [node_create] starts
    the counter from: the root does not satisfy the size invariant. *)
Theorem generated_tree_breaks_size_invariant :
  ∃ t s a,
    first_mutation (boot (draws [])) = Ret t s ∧ root_of s t = Some a ∧
    ¬ size_invariant_at s a.
Proof.
  eexists _, _, _. split; [cbv -[size_add]; reflexivity|].
  split; [reflexivity|].
  intros (nd & kids & Hnd & Hkids & Heq).
  cbv -[size_add] in Hnd. injection Hnd as <-.
  cbv -[size_add node_at] in Hkids.
  apply Forall2_cons_inv_l in Hkids as (k & kids' & Hk & Hnil & ->).
  apply Forall2_nil_inv_l in Hnil as ->.
  cbv -[size_add] in Hk. injection Hk as <-.
  cbv -[size_add N.add] in Heq. lia.
Qed.

(** C6 (the code breaks it).  In the same tree the [JSON] node, which the
    root owns as its child, has no parent. *)
Theorem generated_tree_has_no_parent_links :
  ∃ t s a,
    first_mutation (boot (draws [])) = Ret t s ∧ root_of s t = Some a ∧
    ¬ parent_wired_at s a.
Proof.
  eexists _, _, _. split; [cbv -[size_add]; reflexivity|].
  split; [reflexivity|].
  intros (nd & Hnd & Hwired).
  cbv -[size_add] in Hnd. injection Hnd as <-. simpl in Hwired.
  destruct (Hwired 3%nat) as (k & Hk & Hp); [by apply list_elem_of_singleton|].
  cbv -[size_add] in Hk. injection Hk as <-. discriminate Hp.
Qed.

(** C5 (the code breaks it).  A second [random_mutation] picks a literal
    leaf, whose id is [TERM_NODE]; the entry of [gen_funcs] at that id is
    [NULL], and the call through it is undefined behaviour. *)
Theorem random_mutation_calls_null_generator :
  let src := draws [0; 1; 2; 0; 0; 0; 0; 0; 0; 0; 0; 0; 0; 0; 1] in
  second_mutation (boot src) = Fault ∧
  ∃ t s mt s1 rt picked s2 nd,
    first_mutation (boot src) = Ret t s ∧
    tree_clone t s = Ret mt s1 ∧ root_of s1 mt = Some rt ∧
    _pick_node rt s1 = Ret (Some picked) s2 ∧
    node_at s2 picked = Some nd ∧ id nd = TERM_NODE ∧
    gen_funcs !! N.to_nat (id nd) = Some None.
Proof.
  split; [by cbv -[size_add]|].
  eexists _, _, _, _, _, _, _, _.
  split; [cbv -[size_add]; reflexivity|].
  split; [cbv -[size_add]; reflexivity|].
  split; [reflexivity|].
  split; [cbv -[size_add]; reflexivity|].
  split; [reflexivity|]. by split.
Qed.

(** ** Cloning *)

Lemma map_each_clone_effect (clone : addr → M addr) (owner : addr) :
  (∀ c s a s', clone c s = Ret a s' → clone_post (Some owner) s a s') →
  ∀ l s subs s',
    map_each clone l s = Ret subs s' →
    same_env s s' ∧ rand_pos s' = rand_pos s ∧
    keeps_below (length (nodes s)) s s' ∧
    Forall (λ c, (length (nodes s) ≤ c < length (nodes s'))%nat) subs ∧
    ∀ a, (length (nodes s) ≤ a < length (nodes s'))%nat →
      ∃ nd, node_at s' a = Some nd ∧
            Forall (λ c, (a < c < length (nodes s'))%nat) (subnodes nd) ∧
            (a ∈ subs → parent nd = Some owner) ∧
            (a ∉ subs → ∃ p ndp, parent nd = Some p ∧
                                 (length (nodes s) ≤ p < a)%nat ∧
                                 node_at s' p = Some ndp ∧ a ∈ subnodes ndp).
Proof.
  intros Hclone. induction l as [|c l IH]; intros s subs s' H; simpl in H.
  - run_inv H. split; [done|]. split; [done|].
    split; [apply keeps_below_refl|]. split; [constructor|]. intros a Ha. lia.
  - apply bind_Ret in H as (y & s1 & H1 & H).
    apply bind_Ret in H as (ys & s2 & H2 & H). run_inv H.
    apply Hclone in H1 as (-> & E1 & R1 & K1 & L1 & C1).
    apply IH in H2 as (E2 & R2 & K2 & F2 & C2).
    pose proof (proj1 K2) as L2.
    split; [eauto using same_env_trans|]. split; [congruence|]. split.
    { apply (keeps_below_trans _ _ s1); [done|].
      apply (keeps_below_mono (length (nodes s1))); [lia | done]. }
    split.
    { constructor; [lia|]. eapply Forall_impl; [exact F2|].
      simpl. intros; lia. }
    intros a Ha. destruct (decide (a < length (nodes s1))%nat) as [Hlt|Hge].
    + destruct (C1 a) as (nd & Hnd & Fnd & Proot & Pin); [lia|].
      exists nd. split; [by rewrite (keeps_below_node_at _ _ _ _ K2 Hlt)|].
      split. { eapply Forall_impl; [exact Fnd|]. simpl. intros; lia. }
      split.
      * intros [->|Hin]%elem_of_cons; [by apply Proot|].
        rewrite Forall_forall in F2. apply F2 in Hin. lia.
      * intros Hnotin. rewrite not_elem_of_cons in Hnotin.
        destruct Hnotin as [Hne _].
        destruct (Pin Hne) as (p & ndp & Hp & Hrange & Hndp & Hin).
        exists p, ndp. split; [done|]. split; [lia|]. split; [|done].
        rewrite (keeps_below_node_at _ _ _ _ K2); [done | lia].
    + destruct (C2 a) as (nd & Hnd & Fnd & Pin & Pout); [lia|].
      exists nd. split; [done|]. split; [done|]. split.
      * intros [->|Hin]%elem_of_cons; [lia | by apply Pin].
      * intros Hnotin. rewrite not_elem_of_cons in Hnotin.
        destruct Hnotin as [_ Hnotin].
        destruct (Pout Hnotin) as (p & ndp & Hp & Hrange & Hndp & Hin).
        exists p, ndp. split; [done|]. split; [lia|]. done.
Qed.

Lemma node_clone_fuel_effect fuel :
  ∀ par node s copy s',
    node_clone_fuel fuel par node s = Ret copy s' → clone_post par s copy s'.
Proof.
  induction fuel as [|k IH]; intros par node s copy s' H; simpl in H;
    [discriminate H|].
  apply bind_Ret in H as (nd & sl & [-> Hnd]%load_Ret & H).
  apply bind_Ret in H as (cp & sa & [-> ->]%alloc_Ret & H).
  apply bind_Ret in H as (subs & s2 & H2 & H).
  apply bind_Ret in H as ([] & s3 & H3 & [-> ->]%ret_Ret).
  remember (with_nodes s _) as s1 eqn:Es1.
  assert (same_env s s1) as E1 by (by rewrite Es1).
  assert (rand_pos s1 = rand_pos s) as R1 by (by rewrite Es1).
  assert (length (nodes s1) = S (length (nodes s))) as Ls1
    by (rewrite Es1; simpl; rewrite length_app; simpl; lia).
  assert (node_at s1 (length (nodes s)) =
          Some (Node (id nd) (recursion_edge_size nd) (non_term_size nd)
                     (val_buf nd) (val_len nd) par [])) as Hcp
    by (rewrite Es1; apply cell_app_new).
  eapply map_each_clone_effect in H2 as (E2 & R2 & K2 & F2 & C2);
    [| intros; eapply IH; eassumption].
  pose proof (proj1 K2) as L2.
  rewrite <- (keeps_below_node_at _ _ _ _ K2) in Hcp by lia.
  apply modify_effect in H3 as (E3 & R3 & L3 & (c0 & Hc0 & Hc3) & K3).
  rewrite Hcp in Hc0. injection Hc0 as <-. simpl in Hc3.
  split; [done|]. split.
  { eapply same_env_trans; [|exact E3]. eapply same_env_trans; [|exact E2].
    done. }
  split; [by rewrite R3, R2, R1|]. split.
  { split; [lia|]. intros b Hb. rewrite K3 by lia.
    rewrite (proj2 K2) by lia. rewrite Es1. simpl. by apply lookup_app_l. }
  split; [lia|].
  intros a Ha. destruct (decide (a = length (nodes s))) as [->|Hne].
  - eexists. split; [exact Hc3|]. simpl. split.
    { eapply Forall_impl; [exact F2|]. simpl. intros; lia. }
    split; [done|]. done.
  - destruct (C2 a) as (nda & Hnda & Fnda & Pin & Pout); [lia|].
    assert (node_at s3 a = Some nda) as Hnda'.
    { unfold node_at, cell. rewrite K3 by done. exact Hnda. }
    exists nda. split; [done|]. split.
    { eapply Forall_impl; [exact Fnda|]. simpl. intros; lia. }
    split; [done|]. intros _.
    destruct (decide (a ∈ subs)) as [Hin|Hnotin].
    + exists (length (nodes s)). eexists. split; [by apply Pin|].
      split; [lia|]. split; [exact Hc3|]. done.
    + destruct (Pout Hnotin) as (p & ndp & Hp & Hrange & Hndp & Hin).
      exists p, ndp. split; [done|]. split; [lia|]. split; [|done].
      unfold node_at, cell. rewrite K3 by lia. exact Hndp.
Qed.

Lemma closed_region_sub lo lo' hi s :
  (lo ≤ lo')%nat → closed_region lo hi s → closed_region lo' hi s.
Proof. intros Hlo C a nd Ha. apply C. lia. Qed.

Lemma clone_region_closed par copy hi s :
  clone_region par copy hi s → closed_region copy hi s.
Proof.
  intros (_ & C) a nd Ha Hnd.
  destruct (C a Ha) as (nd' & Hnd' & F & _). congruence.
Qed.

Lemma clone_region_keeps par copy hi s s' :
  (∀ a, (a < hi)%nat → nodes s' !! a = nodes s !! a) →
  clone_region par copy hi s → clone_region par copy hi s'.
Proof.
  intros K (L & C). split; [done|]. intros a Ha.
  destruct (C a Ha) as (nd & Hnd & F & Proot & Pin).
  exists nd. unfold node_at, cell in *. rewrite K by lia.
  split; [done|]. split; [done|]. split; [done|].
  intros Hne. destruct (Pin Hne) as (p & ndp & Hp & Hr & Hndp & Hin).
  exists p, ndp. rewrite K by lia. done.
Qed.

(** ** Picking *)

(** [_pick_node] writes nothing, and what it returns lies in the region it
    was started in. *)
Lemma pick_node_fuel_effect fuel :
  ∀ root s r s',
    pick_node_fuel fuel root s = Ret r s' →
    nodes s' = nodes s ∧ same_env s s' ∧
    ∀ hi n, closed_region root hi s → (root < hi)%nat → r = Some n →
            (root ≤ n < hi)%nat.
Proof.
  induction fuel as [|k IH]; intros root s r s' H; simpl in H;
    [discriminate H|].
  apply bind_Ret in H as (d & s1 & [_ Hs1]%random_Ret & H).
  assert (nodes s1 = nodes s) as N0 by (by rewrite Hs1).
  assert (same_env s s1) as E0 by (by rewrite Hs1).
  clear Hs1.
  destruct (negb (d mod 2 =? 0)).
  { apply ret_Ret in H as [-> ->]. split; [done|]. split; [done|].
    intros; simplify_eq; lia. }
  apply bind_Ret in H as (nd & s2 & [-> Hnd]%load_Ret & H).
  assert (∀ l s0 r0 s0',
    first_picked (pick_node_fuel k) l s0 = Ret r0 s0' →
    nodes s0' = nodes s0 ∧ same_env s0 s0' ∧
    ∀ hi n, closed_region root hi s0 → Forall (λ c, (root < c < hi)%nat) l →
            r0 = Some n → (root ≤ n < hi)%nat) as Hloop.
  { induction l as [|c l IHl]; intros s0 r0 s0' H0; simpl in H0.
    - apply ret_Ret in H0 as [-> ->]. split; [done|]. split; [done|].
      intros; discriminate.
    - apply bind_Ret in H0 as (rc & sc & Hc & H0).
      apply IH in Hc as (Nc & Ec & Pc).
      destruct rc as [x|].
      + apply ret_Ret in H0 as [-> ->]. split; [done|]. split; [done|].
        intros hi n Hclosed Hall [= <-].
        apply Forall_cons in Hall as [Hc _].
        assert (c ≤ x < hi)%nat; [|lia].
        eapply Pc; [|lia|done]. eapply closed_region_sub; [|exact Hclosed].
        lia.
      + apply IHl in H0 as (Nl & El & Pl).
        split; [congruence|]. split; [eauto using same_env_trans|].
        intros hi n Hclosed Hall ->.
        apply Forall_cons in Hall as [_ Hall].
        eapply Pl; [|exact Hall|done].
        intros a nda Ha Hnda. apply (Hclosed a nda Ha).
        unfold node_at in *. by rewrite <- Nc. }
  apply Hloop in H as (N1 & E1 & P1).
  split; [congruence|]. split; [eauto using same_env_trans|].
  intros hi n Hclosed Hroot ->.
  assert (closed_region root hi s1) as Hclosed1.
  { intros a nda Ha Hnda. apply (Hclosed a nda Ha).
    unfold node_at in *. by rewrite <- N0. }
  eapply P1; [exact Hclosed1| |done].
  by apply (Hclosed1 root nd).
Qed.

(** The coin flip at the root: on an odd draw [_pick_node] returns the root,
    whatever the size of the tree under it. *)
Lemma pick_node_odd_draw root s :
  heap_fuel s ≠ 0%nat → rand_src s (rand_pos s) mod 2 ≠ 0 →
  _pick_node root s =
    Ret (Some root)
        (State (nodes s) (trees s) (max_depth s) (rand_src s) (S (rand_pos s))).
Proof.
  intros Hfuel Hodd. unfold _pick_node.
  destruct (heap_fuel s) as [|k]; [done|]. simpl.
  unfold bind, random.
  by destruct (N.eqb_spec (rand_src s (rand_pos s) mod 2) 0).
Qed.


(** ** Freeing *)

Lemma frees_within_refl lo hi s : frees_within lo hi s s.
Proof. repeat split. by left. Qed.

Lemma frees_within_trans lo hi s1 s2 s3 :
  frees_within lo hi s1 s2 → frees_within lo hi s2 s3 →
  frees_within lo hi s1 s3.
Proof.
  intros (E1 & R1 & L1 & F1) (E2 & R2 & L2 & F2).
  split; [eauto using same_env_trans|]. split; [congruence|].
  split; [congruence|]. intros a.
  destruct (F2 a) as [->|?]; [apply F1 | by right].
Qed.

Lemma frees_within_mono lo lo' hi s s' :
  (lo ≤ lo')%nat → frees_within lo' hi s s' → frees_within lo hi s s'.
Proof.
  intros Hlo (E & R & L & F). repeat split; try apply E; try done.
  intros a. destruct (F a) as [?|[? ?]]; [by left | right]. split; [lia|done].
Qed.

Lemma frees_within_node_at lo hi s s' a nd :
  frees_within lo hi s s' → node_at s' a = Some nd → node_at s a = Some nd.
Proof.
  intros (_ & _ & _ & F). unfold node_at, cell.
  destruct (F a) as [->|[_ ->]]; done.
Qed.

Lemma frees_within_outside lo hi s s' a :
  frees_within lo hi s s' → ¬ (lo ≤ a < hi)%nat →
  nodes s' !! a = nodes s !! a.
Proof. intros (_ & _ & _ & F) Ha. destruct (F a) as [?|[? _]]; done. Qed.

Lemma frees_within_closed lo hi lo' s s' :
  frees_within lo hi s s' → closed_region lo' hi s → closed_region lo' hi s'.
Proof.
  intros F C a nd Ha Hnd. apply (C a nd Ha).
  by eapply frees_within_node_at.
Qed.

Lemma node_free_fuel_effect fuel :
  ∀ node s u s' hi,
    closed_region node hi s → (node < hi)%nat →
    node_free_fuel fuel node s = Ret u s' → frees_within node hi s s'.
Proof.
  induction fuel as [|k IH]; intros node s u s' hi Hclosed Hlt H; simpl in H;
    [discriminate H|].
  apply bind_Ret in H as (nd & s0 & [-> Hnd]%load_Ret & H).
  apply bind_Ret in H as ([] & s1 & H1 & H).
  assert (∀ l s0 u0 s0',
    closed_region node hi s0 → Forall (λ c, (node < c < hi)%nat) l →
    for_each (node_free_fuel k) l s0 = Ret u0 s0' →
    frees_within (S node) hi s0 s0') as Hloop.
  { induction l as [|c l IHl]; intros s0 u0 s0' Hc0 Hall H0; simpl in H0.
    - apply ret_Ret in H0 as [-> ->]. apply frees_within_refl.
    - apply bind_Ret in H0 as ([] & sc & Hc & H0).
      apply Forall_cons in Hall as [Hc1 Hall].
      eapply IH in Hc; [| eapply closed_region_sub; [|exact Hc0]; lia | lia].
      apply (frees_within_mono (S node)) in Hc; [|lia].
      eapply frees_within_trans; [exact Hc|].
      eapply IHl; [|exact Hall|exact H0].
      eapply frees_within_closed; [exact Hc|done]. }
  eapply Hloop in H1; [|done|by apply (Hclosed node nd)].
  apply (frees_within_mono node) in H1; [|lia].
  eapply frees_within_trans; [exact H1|].
  apply dealloc_Ret in H as [-> Hlive].
  split; [done|]. split; [done|]. split; [apply length_insert|].
  intros a. destruct (decide (a = node)) as [->|Hne].
  - right. split; [lia|]. simpl. apply list_lookup_insert_eq.
    destruct Hlive as [x Hx]. by eapply cell_lt.
  - left. simpl. by apply list_lookup_insert_ne.
Qed.

(** ** The tree store and the dispatch table *)

Lemma load_tree_Ret t s tr s' :
  load_tree t s = Ret tr s' → s' = s ∧ tree_at s t = Some tr.
Proof. unfold load_tree. destruct (tree_at s t); by intros [= -> ->]. Qed.

Lemma store_tree_Ret t tr s u s' :
  store_tree t tr s = Ret u s' →
  s' = with_trees s (<[t := Some tr]> (trees s)) ∧ is_Some (tree_at s t).
Proof.
  unfold store_tree. destruct (tree_at s t) eqn:E; [|done].
  intros [= _ <-]. eauto.
Qed.

Lemma gen_funcs_lookup n g :
  gen_funcs !! n = Some (Some g) →
  ∃ r, n = N.to_nat (rule_id r) ∧ g = gen_rule r.
Proof.
  do 31 (destruct n as [|n];
         [simpl; intros [= <-];
          try (eexists; split; [|reflexivity]; reflexivity)|]);
    done.
Qed.

Lemma dispatch_Ret nid s g s' :
  dispatch nid s = Ret g s' → s' = s ∧ ∃ r, nid = rule_id r ∧ g = gen_rule r.
Proof.
  unfold dispatch.
  destruct (gen_funcs !! N.to_nat nid) as [[g0|]|] eqn:E; [|done..].
  intros [-> ->]%ret_Ret. split; [done|].
  apply gen_funcs_lookup in E as (r & Hr & ->). exists r.
  split; [by apply N2Nat.inj | done].
Qed.

Lemma tree_clone_effect tree s mt s1 :
  tree_clone tree s = Ret mt s1 →
  ∃ tr r,
    tree_at s tree = Some tr ∧ mt = length (trees s) ∧
    trees s1 = trees s ++ [Some (Tree r (depth tr) (data_buf tr) (data_len tr))] ∧
    max_depth s1 = max_depth s ∧ rand_src s1 = rand_src s ∧
    rand_pos s1 = rand_pos s ∧
    keeps_below (length (nodes s)) s s1 ∧
    match root tr with
    | None => r = None
    | Some _ =>
        r = Some (length (nodes s)) ∧
        clone_region None (length (nodes s)) (length (nodes s1)) s1
    end.
Proof.
  unfold tree_clone. intros H.
  apply bind_Ret in H as (tr & s0 & [-> Htr]%load_tree_Ret & H).
  apply bind_Ret in H as (r & s2 & Hr & H).
  unfold alloc_tree in H. injection H as <- <-.
  exists tr, r. split; [done|]. simpl.
  destruct (root tr) as [n|].
  - apply bind_Ret in Hr as (c & s3 & Hc & [-> ->]%ret_Ret).
    apply node_clone_fuel_effect in Hc as (-> & (Et & Em & Es) & Rp & K & C).
    rewrite Et, Em, Es, Rp. done.
  - apply ret_Ret in Hr as [-> ->]. repeat split; try done.
Qed.

(** ** Splicing *)

(** When the node to replace is a child of [root], [node_replace_subnode]
    writes the new node into the first slot of [root] that holds it and sets
    the new node's parent. *)
Lemma node_replace_child root sub new s nd b s' :
  node_at s root = Some nd → sub ∈ subnodes nd →
  node_replace_subnode root sub new s = Ret b s' →
  ∃ i s1,
    subnodes nd !! i = Some sub ∧ b = true ∧
    modify (λ r, Node (id r) (recursion_edge_size r) (non_term_size r)
                      (val_buf r) (val_len r) (parent r)
                      (<[i := new]> (subnodes r))) root s = Ret tt s1 ∧
    set_parent new (Some root) s1 = Ret tt s'.
Proof.
  intros Hnd Hin. unfold node_replace_subnode, heap_fuel.
  pose proof (cell_lt _ _ _ Hnd) as Hlt.
  destruct (length (nodes s)) as [|k]; [lia|]. simpl. intros H.
  apply bind_Ret in H as (nd' & s0 & [-> Hnd']%load_Ret & H).
  rewrite Hnd in Hnd'. injection Hnd' as <-.
  destruct (list_find (λ c, c = sub) (subnodes nd)) as [[i x]|] eqn:Hfind.
  - apply list_find_Some in Hfind as (Hi & -> & _).
    apply bind_Ret in H as ([] & s1 & H1 & H).
    apply bind_Ret in H as ([] & s2 & H2 & [-> ->]%ret_Ret).
    by exists i, s1.
  - apply list_find_None in Hfind. rewrite Forall_forall in Hfind.
    by destruct (Hfind sub Hin).
Qed.

(** The tail of [random_mutation], run on a clone laid out in [lo .. hi)
    with the replacement allocated after it: nothing older than the clone is
    written, no tree object but the clone's is written, and the replacement
    ends up where the picked node was -- at the root of the tree when the
    picked node has no parent (it is the root of the clone then), in the
    picked node's slot of its parent otherwise. *)
Lemma splice_effect lo hi mt node nd repl ndr s t s' :
  clone_region None lo hi s → (lo ≤ node < hi)%nat →
  node_at s node = Some nd →
  (hi ≤ repl)%nat → node_at s repl = Some ndr →
  splice mt node (parent nd) repl s = Ret t s' →
  t = mt ∧ max_depth s' = max_depth s ∧
  length (nodes s') = length (nodes s) ∧
  (∀ a, (a < lo)%nat → nodes s' !! a = nodes s !! a) ∧
  length (trees s') = length (trees s) ∧
  (∀ u, u ≠ mt → trees s' !! u = trees s !! u) ∧
  match parent nd with
  | None =>
      node = lo ∧ root_of s' mt = Some repl ∧ node_at s' repl = Some ndr
  | Some p =>
      ∃ ndp i,
        (lo ≤ p < node)%nat ∧ node_at s p = Some ndp ∧
        subnodes ndp !! i = Some node ∧
        node_at s' p =
          Some (Node (id ndp) (recursion_edge_size ndp) (non_term_size ndp)
                     (val_buf ndp) (val_len ndp) (parent ndp)
                     (<[i := repl]> (subnodes ndp))) ∧
        node_at s' repl =
          Some (Node (id ndr) (recursion_edge_size ndr) (non_term_size ndr)
                     (val_buf ndr) (val_len ndr) (Some p) (subnodes ndr))
  end.
Proof.
  intros Hreg Hnode Hnd Hrepl Hndr H.
  pose proof (clone_region_closed _ _ _ _ Hreg) as Hclosed.
  destruct Hreg as [_ Hreg].
  destruct (Hreg node Hnode) as (nd' & Hnd' & _ & Proot & Pin).
  rewrite Hnd in Hnd'. injection Hnd' as <-.
  unfold splice in H. destruct (parent nd) as [p|] eqn:Hpar.
  - (* the picked node has a parent *)
    assert (node ≠ lo) as Hne by (intros ->; by specialize (Proot eq_refl)).
    destruct (Pin Hne) as (p' & ndp & [= <-] & Hp & Hndp & Hin).
    apply bind_Ret in H as (b & s1 & H1 & H).
    apply bind_Ret in H as ([] & s2 & H2 & [-> ->]%ret_Ret).
    eapply node_replace_child in H1 as (i & s0 & Hi & -> & Hm & Hsp);
      [|exact Hndp|exact Hin].
    apply modify_effect in Hm as (E0 & _ & L0 & (x & Hx & Hx') & K0).
    rewrite Hndp in Hx. injection Hx as <-.
    apply modify_effect in Hsp as (E1 & _ & L1 & (y & Hy & Hy') & K1).
    assert (node_at s0 repl = Some ndr) as Hndr0.
    { unfold node_at, cell. rewrite K0 by lia. exact Hndr. }
    rewrite Hndr0 in Hy. injection Hy as <-.
    assert (closed_region node hi s1) as Hclosed1.
    { intros a nda Ha Hnda. apply (Hclosed a nda); [lia|].
      unfold node_at, cell in *. rewrite K1, K0 in Hnda by lia. done. }
    eapply node_free_fuel_effect in H2 as F; [|exact Hclosed1|lia].
    pose proof F as (E2 & _ & L2 & _).
    destruct E0 as (T0 & M0 & _), E1 as (T1 & M1 & _), E2 as (T2 & M2 & _).
    split; [done|]. split; [congruence|]. split; [congruence|]. split.
    { intros a Ha. rewrite (frees_within_outside _ _ _ _ a F) by lia.
      rewrite K1, K0 by lia. done. }
    split; [congruence|]. split; [intros; congruence|].
    exists ndp, i. split; [done|]. split; [done|]. split; [done|]. split.
    + unfold node_at, cell.
      rewrite (frees_within_outside _ _ _ _ p F) by lia.
      rewrite K1 by lia. exact Hx'.
    + unfold node_at, cell.
      rewrite (frees_within_outside _ _ _ _ repl F) by lia. exact Hy'.
  - (* the picked node is the root of the clone *)
    assert (node = lo) as ->.
    { destruct (decide (node = lo)) as [|Hne]; [done|].
      by destruct (Pin Hne) as (? & ? & ? & _). }
    apply bind_Ret in H as ([] & s1 & H1 & H).
    apply bind_Ret in H as ([] & s2 & H2 & [-> ->]%ret_Ret).
    eapply node_free_fuel_effect in H1 as F; [|exact Hclosed|lia].
    pose proof F as ((T1 & M1 & _) & _ & L1 & _).
    unfold set_root in H2.
    apply bind_Ret in H2 as (tr & s3 & [-> Htr]%load_tree_Ret & H2).
    apply store_tree_Ret in H2 as [-> _]. simpl.
    split; [done|]. split; [done|]. split; [done|]. split.
    { intros a Ha. by rewrite (frees_within_outside _ _ _ _ a F) by lia. }
    split; [by rewrite length_insert, T1|]. split.
    { intros u Hu. by rewrite list_lookup_insert_ne, T1. }
    split; [done|]. split.
    + unfold root_of, tree_at. simpl. rewrite cell_insert_eq; [done|].
      by eapply cell_lt.
    + unfold node_at, cell. simpl.
      rewrite (frees_within_outside _ _ _ _ repl F) by lia. exact Hndr.
Qed.

(** ** One run of [random_mutation] *)

(** The phases of a run that returns: the clone [s1], the pick [s2], the
    draw of the depth bound, the generation of the replacement [s4], and the
    splice. *)
Lemma random_mutation_run tree s t' s' :
  random_mutation tree s = Ret t' s' →
  ∃ s1 picked s2 node nd r repl s4 ndr,
    tree_clone tree s = Ret t' s1 ∧ t' = length (trees s) ∧
    (∀ u, (u < length (trees s))%nat → trees s1 !! u = trees s !! u) ∧
    keeps_below (length (nodes s)) s s1 ∧
    root_of s1 t' = Some (length (nodes s)) ∧
    clone_region None (length (nodes s)) (length (nodes s1)) s1 ∧
    _pick_node (length (nodes s)) s1 = Ret picked s2 ∧
    nodes s2 = nodes s1 ∧ trees s2 = trees s1 ∧
    node = default (length (nodes s)) picked ∧
    (length (nodes s) ≤ node < length (nodes s1))%nat ∧
    node_at s2 node = Some nd ∧
    id nd = rule_id r ∧
    gen_funcs !! N.to_nat (id nd) = Some (Some (gen_rule r)) ∧
    gen_rule r 0 (with_depth_drawn s2) = Ret repl s4 ∧
    repl = length (nodes s1) ∧
    gen_post r (with_depth_drawn s2) repl s4 ∧
    node_at s4 repl = Some ndr ∧ id ndr = rule_id r ∧
    clone_region None (length (nodes s)) (length (nodes s1)) s4 ∧
    node_at s4 node = Some nd ∧
    (∀ a, (a < length (nodes s1))%nat → nodes s4 !! a = nodes s2 !! a) ∧
    rand_src s2 = rand_src s ∧
    splice t' node (parent nd) repl s4 = Ret t' s'.
Proof.
  unfold random_mutation. intros H.
  apply bind_Ret in H as (mt & s1 & Hclone & H).
  apply bind_Ret in H as (mtr & s1' & [-> Hmtr]%load_tree_Ret & H).
  pose proof Hclone as Hc.
  apply tree_clone_effect in Hc as (tr & r0 & Htr & -> & T1 & M1 & S1 & R1 & K1 & Hroot).
  assert (tree_at s1 (length (trees s)) =
          Some (Tree r0 (depth tr) (data_buf tr) (data_len tr))) as Hmt
    by (unfold tree_at; rewrite T1; apply cell_app_new).
  rewrite Hmt in Hmtr. injection Hmtr as <-. simpl in H.
  destruct (root tr) as [n|]; [|rewrite Hroot in H; discriminate H].
  destruct Hroot as [-> Hreg].
  set (lo := length (nodes s)) in *. set (hi := length (nodes s1)) in *.
  apply bind_Ret in H as (picked & s2 & Hpick & H).
  pose proof Hpick as Hp.
  apply pick_node_fuel_effect in Hp as (N2 & (T2 & M2 & S2) & Pin).
  apply bind_Ret in H as (nd & s2' & [-> Hnd]%load_Ret & H).
  apply bind_Ret in H as (d & s3 & [-> ->]%random_Ret & H).
  apply bind_Ret in H as ([] & s3' & Hset & H).
  unfold set_max_depth in Hset. injection Hset as <-. simpl in H.
  fold (with_depth_drawn s2) in H.
  apply bind_Ret in H as (g & s3'' & [-> (r & Hr & ->)]%dispatch_Ret & H).
  apply bind_Ret in H as (repl & s4 & Hgen & H).
  pose proof Hgen as Hg.
  apply gen_rule_effect in Hg as (Hrepl & E4 & K4 & ndr & Hndr & Hid & Hpar).
  simpl in Hrepl. rewrite N2 in Hrepl. fold hi in Hrepl.
  assert (lo ≤ default lo picked < hi)%nat as Hnode.
  { destruct picked as [x|]; simpl.
    - eapply Pin; [by eapply clone_region_closed|apply Hreg|done].
    - destruct Hreg. lia. }
  assert (match picked with Some x => x | None => lo end = default lo picked)
    as Hdef by (by destruct picked).
  rewrite Hdef in *.
  assert (∀ a, (a < hi)%nat → nodes s4 !! a = nodes s1 !! a) as K14.
  { intros a Ha. rewrite (proj2 K4) by lia. simpl. by rewrite N2. }
  assert (splice (length (trees s)) (default lo picked) (parent nd) repl s4 =
          Ret t' s') as Hsplice by exact H.
  assert (t' = length (trees s)) as ->.
  { unfold splice in Hsplice. destruct (parent nd).
    - apply bind_Ret in Hsplice as (? & ? & _ & Hs).
      by apply bind_Ret in Hs as (? & ? & _ & [-> _]%ret_Ret).
    - apply bind_Ret in Hsplice as (? & ? & _ & Hs).
      by apply bind_Ret in Hs as (? & ? & _ & [-> _]%ret_Ret). }
  exists s1, picked, s2, (default lo picked), nd, r, repl, s4, ndr.
  split; [done|]. split; [done|]. split.
  { intros u Hu. rewrite T1. by apply lookup_app_l. }
  split; [done|]. split.
  { unfold root_of. by rewrite Hmt. }
  split; [done|]. split; [done|]. split; [done|]. split; [done|].
  split; [done|]. split; [done|]. split; [done|]. split; [done|]. split.
  { rewrite Hr. apply gen_funcs_rule. }
  split; [done|]. split; [done|]. split.
  { split; [by simpl; rewrite N2|]. split; [done|]. split; [done|]. eauto. }
  split; [done|]. split; [done|]. split.
  { eapply clone_region_keeps; [exact K14|exact Hreg]. }
  split.
  { unfold node_at, cell in *. rewrite K14 by lia. by rewrite <- N2. }
  split; [intros a Ha; by rewrite N2, K14|].
  split; [congruence|done].
Qed.

Lemma prefix_of_lookup {A} (l1 l2 : list A) :
  (length l1 ≤ length l2)%nat →
  (∀ i, (i < length l1)%nat → l2 !! i = l1 !! i) →
  l1 `prefix_of` l2.
Proof.
  intros Hlen Hlook. exists (drop (length l1) l2).
  rewrite <- (take_drop (length l1) l2) at 1. f_equal.
  apply list_eq. intros i. destruct (decide (i < length l1)%nat) as [Hi|Hi].
  - rewrite lookup_take_lt by done. by apply Hlook.
  - rewrite lookup_take_ge by lia. symmetry. apply lookup_ge_None. lia.
Qed.

(** C3.  [random_mutation] does not modify its input.  When the call returns,
    the node store and the tree store it started from are prefixes of the
    stores it leaves: every node that existed before the call -- in
    particular every node of the input tree, with its id, value, counters,
    parent and children -- and every tree object -- in particular the input
    tree, with its root pointer and its rendered buffer [data_buf],
    [data_len] -- is unchanged and still allocated.  What the call returns is
    a tree object that did not exist before. *)
Theorem random_mutation_keeps_input (tree : tree_ptr) (s : state)
    (t' : tree_ptr) (s' : state) :
  random_mutation tree s = Ret t' s' →
  nodes s `prefix_of` nodes s' ∧ trees s `prefix_of` trees s' ∧
  t' = length (trees s) ∧
  tree_at s' tree = tree_at s tree ∧
  (∀ a nd, node_at s a = Some nd → node_at s' a = Some nd).
Proof.
  intros H.
  apply random_mutation_run in H
    as (s1 & picked & s2 & node & nd & r & repl & s4 & ndr & Hclone & -> & T1
        & K1 & Hroot & Hreg & Hpick & N2 & T2 & -> & Hnode & Hnd & Hid
        & Hdisp & Hgen & -> & Hpost & Hndr & Hidr & Hreg4 & Hnd4 & _ & _
        & Hsplice).
  destruct Hpost as (_ & (T4 & _ & _) & K4 & _).
  eapply splice_effect in Hsplice
    as (_ & _ & L5 & K5 & LT5 & T5 & _); [|done..].
  assert (length (trees s1) = S (length (trees s))) as LT1.
  { apply tree_clone_effect in Hclone as (? & ? & _ & _ & -> & _).
    rewrite length_app. simpl. lia. }
  assert (tree_at s tree ≠ None) as Htree.
  { apply tree_clone_effect in Hclone as (? & ? & -> & _). done. }
  assert (nodes s `prefix_of` nodes s') as Pn.
  { apply prefix_of_lookup.
    - rewrite L5. destruct K4 as [L4 _]. simpl in L4. destruct K1 as [L1 _].
      rewrite N2 in L4. lia.
    - intros a Ha. rewrite K5 by done. destruct Hreg as [Hlt _].
      rewrite (proj2 K4) by lia. simpl. rewrite N2. by apply K1. }
  assert (trees s `prefix_of` trees s') as Pt.
  { apply prefix_of_lookup.
    - rewrite LT5, T4. simpl. rewrite T2. lia.
    - intros u Hu. rewrite T5 by lia. rewrite T4. simpl. rewrite T2.
      by apply T1. }
  split; [done|]. split; [done|]. split; [done|]. split.
  - destruct (tree_at s tree) as [tr|] eqn:E; [|done].
    unfold tree_at in *. rewrite cell_lookup in *.
    by apply (prefix_lookup_Some _ _ _ _ E Pt).
  - intros a nda. unfold node_at. rewrite !cell_lookup. intros E.
    by apply (prefix_lookup_Some _ _ _ _ E Pn).
Qed.

(** ** The generators return *)

Lemma bind_run {A B} (m : M A) (f : A → M B) s a s1 :
  m s = Ret a s1 → bind m f s = f a s1.
Proof. unfold bind. by intros ->. Qed.

Lemma modify_live f a s nd :
  node_at s a = Some nd →
  modify f a s = Ret tt (with_nodes s (<[a := Some (f nd)]> (nodes s))).
Proof. intros H. unfold modify, bind, load, store. by rewrite H, H. Qed.

Lemma node_create_with_val_returns nid buf len s :
  ∃ a s', node_create_with_val nid buf len s = Ret a s'.
Proof.
  unfold node_create_with_val, node_create.
  erewrite bind_run by reflexivity.
  unfold node_set_val. erewrite bind_run; [by eexists _, _|].
  apply modify_live. apply cell_app_new.
Qed.

Lemma case_tables r : case_n (body_of r) ≠ 0.
Proof. by destruct r. Qed.

Lemma map_rand_returns v s :
  v ≠ 0 →
  map_rand v s =
    Ret (rand_src s (rand_pos s) mod v)
        (State (nodes s) (trees s) (max_depth s) (rand_src s) (S (rand_pos s))).
Proof.
  intros Hv. unfold map_rand. destruct (N.eqb_spec v 0) as [|_]; [done|].
  by unfold bind, random, ret.
Qed.

Lemma gen_pool_returns r node s nd :
  node_at s node = Some nd → ∃ s', gen_pool (body_of r) node s = Ret tt s'.
Proof.
  intros Hnd. destruct (pool_tables r) as (Hn & Hn0 & Hl).
  unfold gen_pool. erewrite bind_run by (by apply map_rand_returns).
  set (v := rand_src s (rand_pos s) mod pool_n (body_of r)).
  assert (v < pool_n (body_of r)) as Hv by (by apply N.mod_lt).
  destruct (lookup_lt_is_Some_2 (pool (body_of r)) (N.to_nat v)) as [str Hstr];
    [lia|].
  rewrite Hstr, Hl, list_lookup_fmap, Hstr. simpl.
  eexists. by apply modify_live.
Qed.

Lemma gen_symbols_returns (md : Z) (gen : rule → M addr) node :
  (∀ r s, max_depth s = md → ∃ a s', gen r s = Ret a s') →
  (∀ r s a s', gen r s = Ret a s' → gen_post r s a s') →
  ∀ syms s nd,
    max_depth s = md → node_at s node = Some nd →
    ∃ u s', gen_symbols gen node syms s = Ret u s'.
Proof.
  intros Hret Hpost. induction syms as [|sym rest IH]; intros s nd Hmd Hnd.
  { by eexists _, _. }
  pose proof (cell_lt _ _ _ Hnd) as Hlt.
  assert (∀ s1 nd1 f,
    max_depth s1 = md → node_at s1 node = Some nd1 →
    ∃ u s', (modify f node ;;; gen_symbols gen node rest) s1 = Ret u s')
    as Hstep.
  { intros s1 nd1 f Hmd1 Hnd1.
    erewrite bind_run by (by apply modify_live).
    eapply IH; [done|]. unfold node_at. simpl.
    apply cell_insert_eq. by eapply cell_lt. }
  destruct sym as [str n|r|r]; simpl.
  - destruct (node_create_with_val_returns TERM_NODE str n s)
      as (sub & s1 & H1).
    erewrite bind_run by exact H1.
    apply node_create_with_val_effect in H1 as (-> & (_ & M1 & _) & K1 & _).
    eapply Hstep; [congruence|].
    by rewrite (keeps_below_node_at _ _ _ _ K1 Hlt).
  - destruct (Hret r s Hmd) as (sub & s1 & H1).
    erewrite bind_run by exact H1.
    apply Hpost in H1 as (-> & (_ & M1 & _) & K1 & _).
    erewrite bind_run by (apply modify_live;
      by rewrite (keeps_below_node_at _ _ _ _ K1 Hlt)).
    eapply Hstep; [simpl; congruence|]. unfold node_at. simpl.
    apply cell_insert_eq. destruct K1. lia.
  - destruct (Hret r s Hmd) as (sub & s1 & H1).
    erewrite bind_run by exact H1.
    apply Hpost in H1 as (-> & (_ & M1 & _) & K1 & _).
    erewrite bind_run by (apply modify_live;
      by rewrite (keeps_below_node_at _ _ _ _ K1 Hlt)).
    erewrite bind_run by (apply modify_live; unfold node_at; simpl;
      apply cell_insert_eq; destruct K1; lia).
    eapply Hstep; [simpl; congruence|]. unfold node_at. simpl.
    apply cell_insert_eq. rewrite length_insert. destruct K1. lia.
Qed.

Lemma gen_fuel_returns fuel :
  ∀ r depth s,
    (max_depth s < INT_MAX)%Z →
    (Z.to_nat (max_depth s - depth + 1) ≤ fuel)%nat →
    ∃ a s', gen_fuel fuel r depth s = Ret a s'.
Proof.
  induction fuel as [|k IH]; intros r depth s Hint Hfuel; simpl.
  all: unfold node_create; erewrite bind_run by reflexivity.
  all: unfold get_max_depth at 1; erewrite bind_run by reflexivity.
  all: cbn [max_depth with_nodes].
  all: destruct (Z.gtb_spec depth (max_depth s)) as [Hgt|Hle].
  all: try (edestruct (gen_pool_returns r) as [s' Hs'];
            [|erewrite bind_run by exact Hs'; by eexists _, _];
            apply cell_app_new).
  { lia. }
  set (s1 := with_nodes s _).
  assert (∃ u s', gen_switch (body_of r) (λ r', deeper (gen_fuel k r') depth)
                             (length (nodes s)) s1 = Ret u s')
    as (u & s' & Hs').
  { unfold gen_switch.
    erewrite bind_run by (apply map_rand_returns, case_tables).
    destruct (cases (body_of r) !! _) as [syms|]; [|by eexists _, _].
    eapply (gen_symbols_returns (max_depth s)).
    - intros r' s0 Hmd. rewrite deeper_run by lia.
      apply IH; rewrite Hmd; lia.
    - intros r' s0 a s0' [_ Hd]%deeper_Ret. by eapply gen_fuel_effect.
    - done.
    - apply cell_app_new. }
  erewrite bind_run by exact Hs'. by eexists _, _.
Qed.

(** A generator call returns, whatever the depth, in a state whose
    [max_depth] is less than [INT_MAX]. *)
Lemma gen_rule_returns r depth s :
  (max_depth s < INT_MAX)%Z → ∃ a s', gen_rule r depth s = Ret a s'.
Proof. intros Hint. apply gen_fuel_returns; [done|lia]. Qed.

(** C4.  [random_mutation] preserves rule identity at the mutated position.
    The entry of [gen_funcs] at the id of a rule is that rule's generator; a
    call of it that returns, returns a node that carries that id; and it
    returns whenever [max_depth] is less than [INT_MAX], as it is in
    [random_mutation].  In a run of [random_mutation] that returns, the node
    regenerated is the node [_pick_node] returned in the clone, or the
    clone's root when it returned [NULL]; the replacement is the node the
    generator dispatched on the id of this node returns at depth 0, a node
    that did not exist before that call; it carries the id this node has,
    and it ends up where this node was: it is the root of the returned tree
    when the node has no parent (the node is the root of the clone then),
    and otherwise it sits in the slot of the parent's child sequence that
    held the node, with the parent as its [parent]. *)
Theorem random_mutation_preserves_rule_id (tree : tree_ptr) (s : state)
    (t' : tree_ptr) (s' : state) :
  random_mutation tree s = Ret t' s' →
  (∀ r, gen_funcs !! N.to_nat (rule_id r) = Some (Some (gen_rule r))) ∧
  (∀ r d s0 a s0',
      gen_rule r d s0 = Ret a s0' →
      ∃ nd0, node_at s0' a = Some nd0 ∧ id nd0 = rule_id r) ∧
  (∀ r d s0, (max_depth s0 < INT_MAX)%Z →
             ∃ a s0', gen_rule r d s0 = Ret a s0') ∧
  ∃ s1 rt picked s2 node nd r repl s4 ndr,
    tree_clone tree s = Ret t' s1 ∧ root_of s1 t' = Some rt ∧
    _pick_node rt s1 = Ret picked s2 ∧ node = default rt picked ∧
    node_at s2 node = Some nd ∧
    gen_funcs !! N.to_nat (id nd) = Some (Some (gen_rule r)) ∧
    gen_rule r 0 (with_depth_drawn s2) = Ret repl s4 ∧
    node_at s2 repl = None ∧
    node_at s' repl = Some ndr ∧ id ndr = id nd ∧
    match parent nd with
    | None => node = rt ∧ root_of s' t' = Some repl
    | Some p =>
        ∃ ndp ndp' i,
          node_at s2 p = Some ndp ∧ subnodes ndp !! i = Some node ∧
          node_at s' p = Some ndp' ∧
          subnodes ndp' = <[i := repl]> (subnodes ndp) ∧
          parent ndr = Some p
    end.
Proof.
  intros H. split; [apply gen_funcs_rule|]. split.
  { intros r d s0 a s0' Hgen.
    apply gen_rule_effect in Hgen as (_ & _ & _ & nd0 & ? & ? & _). eauto. }
  split; [intros r d s0; apply gen_rule_returns|].
  apply random_mutation_run in H
    as (s1 & picked & s2 & node & nd & r & repl & s4 & ndr & Hclone & -> & T1
        & K1 & Hroot & Hreg & Hpick & N2 & T2 & -> & Hnode & Hnd & Hid
        & Hdisp & Hgen & -> & Hpost & Hndr & Hidr & Hreg4 & Hnd4 & K4 & _
        & Hsplice).
  eapply splice_effect in Hsplice
    as (_ & _ & _ & _ & _ & _ & Hplace); [|done..].
  assert (node_at s2 (length (nodes s1)) = None) as Hnew.
  { unfold node_at, cell. rewrite N2.
    by rewrite (lookup_ge_None_2 (nodes s1) (length (nodes s1))). }
  exists s1, (length (nodes s)), picked, s2, (default (length (nodes s)) picked),
    nd, r.
  destruct (parent nd) as [p|].
  - destruct Hplace as (ndp & i & Hp & Hndp & Hi & Hndp' & Hndr').
    eexists (length (nodes s1)), s4, _. split; [done|]. split; [done|].
    split; [done|]. split; [done|]. split; [done|]. split; [done|].
    split; [done|]. split; [done|]. split; [exact Hndr'|]. simpl.
    split; [congruence|]. eexists ndp, _, i.
    split; [|split; [done|split; [exact Hndp'|done]]].
    unfold node_at, cell in *. rewrite <- K4 by lia. exact Hndp.
  - destruct Hplace as (Hlo & Hroot' & Hndr').
    exists (length (nodes s1)), s4, ndr. split; [done|]. split; [done|].
    split; [done|]. split; [done|]. split; [done|]. split; [done|].
    split; [done|]. split; [done|]. split; [done|].
    split; [congruence|]. done.
Qed.

(** ** Replacing a subnode *)

Lemma tree_within_no_self_child s h a nd :
  tree_within s h a → node_at s a = Some nd → a ∉ subnodes nd.
Proof.
  revert a nd. induction h as [|h IH]; intros a nd Ht Hnd Hin.
  - done.
  - destruct Ht as (nd' & Hnd' & Hall).
    rewrite Hnd in Hnd'. injection Hnd' as <-.
    rewrite Forall_forall in Hall. eapply IH; [by apply Hall|done..].
Qed.

Lemma tree_within_descendant s h root x :
  tree_within s h root → descendant s root x → ∃ h', tree_within s h' x.
Proof.
  intros Ht Hd. revert h Ht.
  induction Hd as [root nd x Hnd Hin|root nd c x Hnd Hin Hd IH]; intros h Ht.
  - destruct h as [|h]; [done|]. destruct Ht as (nd' & Hnd' & Hall).
    rewrite Hnd in Hnd'. injection Hnd' as <-.
    rewrite Forall_forall in Hall. eauto.
  - destruct h as [|h]; [done|]. destruct Ht as (nd' & Hnd' & Hall).
    rewrite Hnd in Hnd'. injection Hnd' as <-.
    rewrite Forall_forall in Hall. eauto.
Qed.

Lemma node_replace_fuel_spec old new fuel :
  ∀ root s,
    tree_within s fuel root → is_Some (node_at s new) →
    ∃ b s',
      node_replace_fuel fuel root old new s = Ret b s' ∧
      (b = false → s' = s ∧ ¬ descendant s root old) ∧
      (b = true →
       ∃ p ndp i,
         (p = root ∨ descendant s root p) ∧ node_at s p = Some ndp ∧
         subnodes ndp !! i = Some old ∧ replace_writes p i new s s').
Proof.
  induction fuel as [|k IH]; intros root s Ht Hnew; [done|].
  destruct Ht as (nd & Hnd & Hall). simpl.
  erewrite bind_run by (unfold load; by rewrite Hnd).
  destruct (list_find (λ c, c = old) (subnodes nd)) as [[i x]|] eqn:Hfind.
  - apply list_find_Some in Hfind as (Hi & -> & _).
    destruct Hnew as [ndn Hndn].
    erewrite bind_run by (by apply modify_live).
    set (s1 := with_nodes s _).
    assert (is_Some (node_at s1 new)) as [ndn1 Hndn1].
    { unfold node_at, s1. simpl. destruct (decide (root = new)) as [->|Hne].
      - rewrite cell_insert_eq; [eauto | by eapply cell_lt].
      - rewrite cell_insert_ne by done. eauto. }
    erewrite bind_run by (by apply modify_live).
    eexists true, _. split; [done|]. split; [done|]. intros _.
    exists root, nd, i. split; [by left|]. split; [done|]. split; [done|].
    exists s1. split; [by apply modify_live|].
    exact (modify_live _ new s1 ndn1 Hndn1).
  - apply list_find_None in Hfind.
    assert (∀ l, Forall (tree_within s k) l →
      ∃ b s',
        exists_first (λ c, node_replace_fuel k c old new) l s = Ret b s' ∧
        (b = false → s' = s ∧ ∀ c, c ∈ l → ¬ descendant s c old) ∧
        (b = true →
         ∃ c p ndp i,
           c ∈ l ∧ (p = c ∨ descendant s c p) ∧ node_at s p = Some ndp ∧
           subnodes ndp !! i = Some old ∧ replace_writes p i new s s'))
      as Hloop.
    { induction l as [|c l IHl]; intros Hl; simpl.
      - eexists false, s. split; [done|]. split; [|done].
        intros _. split; [done|]. intros c Hc. by apply elem_of_nil in Hc.
      - apply Forall_cons in Hl as [Hc Hl].
        destruct (IH c s Hc Hnew) as (b & s' & Hrun & Hfalse & Htrue).
        erewrite bind_run by exact Hrun. destruct b.
        + eexists true, s'. split; [done|]. split; [done|]. intros _.
          destruct (Htrue eq_refl) as (p & ndp & i & Hp & Hndp & Hi & Hw).
          exists c, p, ndp, i. split; [by left|]. done.
        + destruct (Hfalse eq_refl) as [-> Hnot].
          destruct (IHl Hl) as (b & s' & Hrun' & Hfalse' & Htrue').
          exists b, s'. split; [done|]. split.
          * intros Hb. destruct (Hfalse' Hb) as [-> Hnot'].
            split; [done|]. intros c' [->|Hc']%elem_of_cons; eauto.
          * intros Hb.
            destruct (Htrue' Hb) as (c' & p & ndp & i & Hc' & Hrest).
            exists c', p, ndp, i. split; [by right | done]. }
    destruct (Hloop _ Hall) as (b & s' & Hrun & Hfalse & Htrue).
    exists b, s'. split; [done|]. split.
    + intros Hb. destruct (Hfalse Hb) as [-> Hnot]. split; [done|].
      intros Hd. inversion Hd as [r nd' x Hnd' Hin|r nd' c x Hnd' Hin Hd'];
        subst; rewrite Hnd in Hnd'; injection Hnd' as <-.
      * rewrite Forall_forall in Hfind. by apply (Hfind old).
      * by apply (Hnot c).
    + intros Hb.
      destruct (Htrue Hb) as (c & p & ndp & i & Hc & Hp & Hndp & Hi & Hw).
      exists p, ndp, i. split; [|done]. right.
      destruct Hp as [->|Hp].
      * by eapply descendant_child.
      * by eapply descendant_deeper.
Qed.

Lemma node_at_lookup s s' a :
  nodes s' !! a = nodes s !! a → node_at s' a = node_at s a.
Proof. unfold node_at, cell. by intros ->. Qed.

Lemma descendant_snoc s root p nd x :
  descendant s root p → node_at s p = Some nd → x ∈ subnodes nd →
  descendant s root x.
Proof.
  intros Hd Hnd Hin.
  induction Hd as [root ndr p Hndr Hp|root ndr c p Hndr Hc Hd IH].
  - eapply descendant_deeper; [done..|]. by eapply descendant_child.
  - eapply descendant_deeper; [done..|]. by apply IH.
Qed.

(** C9.  [node_replace_subnode] on a tree (the structure under [root] is a
    tree of live nodes, [new_subnode] is live).  The call returns.  It frees
    nothing: every node that was live is live afterwards, and the replaced
    node, unless it is the new node itself, is left exactly as it was.  It
    returns [false] exactly when the node to replace is not, as a pointer, a
    descendant of [root], and then it has changed nothing.  When it returns
    [true], some node [p] -- [root] or one of its descendants -- held the
    replaced node in slot [i] of its children, and afterwards the children
    of [p] are the same sequence with the new node in slot [i], and the new
    node's parent is [p]. *)
Theorem node_replace_subnode_contract (root old new : addr) (s : state) :
  tree_within s (heap_fuel s) root → is_Some (node_at s new) →
  ∃ b s',
    node_replace_subnode root old new s = Ret b s' ∧
    length (nodes s') = length (nodes s) ∧
    (∀ a, is_Some (node_at s a) → is_Some (node_at s' a)) ∧
    (old ≠ new → node_at s' old = node_at s old) ∧
    (b = false ↔ ¬ descendant s root old) ∧
    (b = false → s' = s) ∧
    (b = true →
     ∃ p ndp ndp' ndn' i,
       (p = root ∨ descendant s root p) ∧ node_at s p = Some ndp ∧
       subnodes ndp !! i = Some old ∧
       node_at s' p = Some ndp' ∧
       subnodes ndp' = <[i := new]> (subnodes ndp) ∧
       node_at s' new = Some ndn' ∧ parent ndn' = Some p).
Proof.
  intros Ht Hnew.
  destruct (node_replace_fuel_spec old new _ _ _ Ht Hnew)
    as (b & s' & Hrun & Hfalse & Htrue).
  exists b, s'. split; [exact Hrun|]. destruct b.
  - destruct (Htrue eq_refl) as (p & ndp & i & Hp & Hndp & Hi & s1 & Hw1 & Hw2).
    apply modify_effect in Hw1 as (_ & _ & L1 & (x & Hx & Hx1) & K1).
    rewrite Hndp in Hx. injection Hx as <-.
    apply modify_effect in Hw2 as (_ & _ & L2 & (y & Hy & Hy2) & K2).
    assert (old ∈ subnodes ndp) as Hold by (by eapply list_elem_of_lookup_2).
    assert (descendant s root old) as Hdesc.
    { destruct Hp as [->|Hp]; [by eapply descendant_child|].
      by eapply descendant_snoc. }
    assert (old ≠ p) as Hne.
    { intros ->.
      assert (∃ h, tree_within s h p) as [h Hh].
      { destruct Hp as [->|Hp]; [eauto|]. by eapply tree_within_descendant. }
      by eapply tree_within_no_self_child. }
    split; [congruence|]. split.
    { intros a [nda Hnda]. destruct (decide (a = new)) as [->|Hn]; [eauto|].
      rewrite (node_at_lookup s1 s' a) by (by apply K2).
      destruct (decide (a = p)) as [->|Hap]; [eauto|].
      rewrite (node_at_lookup s s1 a) by (by apply K1). eauto. }
    split.
    { intros Hon. rewrite (node_at_lookup s1 s' old) by (by apply K2).
      apply node_at_lookup. by apply K1. }
    split; [split; [done | by intros []]|]. split; [done|]. intros _.
    destruct (decide (p = new)) as [->|Hpn].
    + rewrite Hx1 in Hy. injection Hy as <-.
      eexists new, ndp, _, _, i. split; [done|]. split; [done|].
      split; [done|]. split; [exact Hy2|]. split; [done|].
      split; [exact Hy2|done].
    + eexists p, ndp, _, _, i. split; [done|]. split; [done|].
      split; [done|]. split.
      { rewrite (node_at_lookup s1 s' p) by (by apply K2). exact Hx1. }
      split; [done|]. split; [exact Hy2|done].
  - destruct (Hfalse eq_refl) as [-> Hnot].
    split; [done|]. split; [done|]. split; [done|].
    split; [done|]. split; [done|]. done.
Qed.

(** ** The recursion of the generators *)

Lemma gen_symbols_ext (md : Z) (g1 g2 : rule → M addr) node syms :
  (∀ r s, max_depth s = md → g1 r s = g2 r s) →
  (∀ r s a s', g1 r s = Ret a s' → max_depth s' = max_depth s) →
  ∀ s, max_depth s = md →
       gen_symbols g1 node syms s = gen_symbols g2 node syms s.
Proof.
  intros Hext Hmd. induction syms as [|sym rest IH]; intros s Hs; [done|].
  assert (∀ f s1, max_depth s1 = md →
    (modify f node ;;; gen_symbols g1 node rest) s1 =
    (modify f node ;;; gen_symbols g2 node rest) s1) as Hstep.
  { intros f s1 Hs1. unfold bind.
    destruct (modify f node s1) as [[] s2| |] eqn:Hm; [|done..].
    apply IH. apply modify_effect in Hm as ((_ & -> & _) & _). done. }
  destruct sym as [str n|r|r]; simpl.
  - unfold bind at 1 3.
    destruct (node_create_with_val TERM_NODE str n s) as [sub s1| |] eqn:H1;
      [|done..].
    apply Hstep.
    apply node_create_with_val_effect in H1 as (_ & (_ & -> & _) & _). done.
  - unfold bind at 1 4. rewrite <- (Hext r s Hs).
    destruct (g1 r s) as [sub s1| |] eqn:H1; [|done..].
    apply Hmd in H1. unfold bind at 1 3.
    destruct (incr_non_term_size node s1) as [[] s2| |] eqn:H2; [|done..].
    apply Hstep.
    apply modify_effect in H2 as ((_ & -> & _) & _). congruence.
  - unfold bind at 1 5. rewrite <- (Hext r s Hs).
    destruct (g1 r s) as [sub s1| |] eqn:H1; [|done..].
    apply Hmd in H1. unfold bind at 1 4.
    destruct (incr_non_term_size node s1) as [[] s2| |] eqn:H2; [|done..].
    unfold bind at 1 3.
    destruct (incr_recursion_edge_size node s2) as [[] s3| |] eqn:H3;
      [|done..].
    apply Hstep.
    apply modify_effect in H3 as ((_ & -> & _) & _).
    apply modify_effect in H2 as ((_ & -> & _) & _). congruence.
Qed.

Lemma gen_switch_ext (md : Z) (g1 g2 : rule → M addr) b node s :
  (∀ r s, max_depth s = md → g1 r s = g2 r s) →
  (∀ r s a s', g1 r s = Ret a s' → max_depth s' = max_depth s) →
  max_depth s = md →
  gen_switch b g1 node s = gen_switch b g2 node s.
Proof.
  intros Hext Hmd Hs. unfold gen_switch, bind.
  destruct (map_rand (case_n b) s) as [val s1| |] eqn:Hval; [|done..].
  apply map_rand_Ret in Hval as (_ & _ & ->).
  destruct (cases b !! N.to_nat val) as [syms|]; [|done].
  by apply (gen_symbols_ext md).
Qed.

Lemma gen_fuel_unfold fuel r depth s :
  gen_fuel fuel r depth s =
  let node := length (nodes s) in
  let s1 := with_nodes s (nodes s ++
              [Some (Node (rule_id r) 0 node_create_size None 0 None [])]) in
  if (depth >? max_depth s)%Z then
    (gen_pool (body_of r) node ;;; ret node) s1
  else
    match fuel with
    | O => OutOfFuel
    | S k =>
        (gen_switch (body_of r) (λ r', deeper (gen_fuel k r') depth) node ;;;
         ret node) s1
    end.
Proof.
  destruct fuel; simpl; unfold bind at 1, node_create, alloc;
    unfold bind at 1, get_max_depth; cbn [max_depth with_nodes];
    by destruct (depth >? max_depth s)%Z.
Qed.

Lemma gen_fuel_enough fuel :
  ∀ fuel' r depth s,
    (Z.to_nat (max_depth s - depth + 1) ≤ fuel)%nat →
    (Z.to_nat (max_depth s - depth + 1) ≤ fuel')%nat →
    gen_fuel fuel r depth s = gen_fuel fuel' r depth s.
Proof.
  induction fuel as [|k IH]; intros fuel' r depth s Hk Hk'.
  all: rewrite !gen_fuel_unfold; cbv zeta.
  all: destruct (Z.gtb_spec depth (max_depth s)) as [Hgt|Hle]; [done|].
  { lia. }
  destruct fuel' as [|k']; [lia|].
  unfold bind at 1 2.
  erewrite (gen_switch_ext (max_depth s)); [done| | |done].
  - intros r' s0 Hs0. apply deeper_ext. apply IH; rewrite Hs0; lia.
  - intros r' s0 a s0' [_ H0]%deeper_Ret.
    by apply gen_fuel_effect in H0 as (_ & (_ & ? & _) & _).
Qed.

(** The generator of rule [r] satisfies the recursion of the source: create
    the node; past [max_depth] give it a value from the pool; otherwise draw
    a case and fill the children, generating each non-terminal child with
    the generator of its rule one level deeper. *)
Lemma gen_rule_eq r depth s :
  gen_rule r depth s =
  (node <- node_create (rule_id r) ;;
   if (depth >? max_depth s)%Z then
     (gen_pool (body_of r) node ;;; ret node)
   else
     (gen_switch (body_of r) (λ r', deeper (gen_rule r') depth) node ;;;
      ret node)) s.
Proof.
  unfold gen_rule at 1. rewrite gen_fuel_unfold. cbv zeta.
  unfold bind at 3. unfold node_create, alloc.
  destruct (Z.gtb_spec depth (max_depth s)) as [Hgt|Hle]; [done|].
  destruct (Z.to_nat (max_depth s - depth + 1)) as [|k] eqn:Hk; [lia|].
  unfold bind at 1 2.
  erewrite (gen_switch_ext (max_depth s)); [done| | |done].
  - intros r' s0 Hs0. apply deeper_ext. unfold gen_rule.
    apply gen_fuel_enough; rewrite Hs0; lia.
  - intros r' s0 a s0' [_ H0]%deeper_Ret.
    by apply gen_fuel_effect in H0 as (_ & (_ & ? & _) & _).
Qed.

(** At depth [INT_MAX] with [max_depth] at [INT_MAX] the bound does not stop
    the recursion, and [gen_start], whose only case calls [gen_json], goes
    on to compute [depth + 1]: the call is undefined. *)
Lemma gen_start_overflow s :
  max_depth s = INT_MAX → gen_start INT_MAX s = Fault.
Proof.
  intros Hmd. unfold gen_start, gen_rule. rewrite Hmd.
  change (Z.to_nat (INT_MAX - INT_MAX + 1)) with 1%nat.
  rewrite gen_fuel_unfold. cbv zeta. cbn [max_depth with_nodes]. rewrite Hmd.
  change (INT_MAX >? INT_MAX)%Z with false. cbv iota.
  unfold bind at 1, gen_switch. unfold bind at 1.
  rewrite map_rand_returns by done.
  cbn [body_of case_n cases]. rewrite N.mod_1_r. done.
Qed.

(** ** Three generators written out

    [gen_element], [gen_member] and [gen_ws] as the source has them,
    statement by statement. *)

Lemma bind_ext {A B} (m : M A) (f g : A → M B) s :
  (∀ a s', f a s' = g a s') → bind m f s = bind m g s.
Proof. intros H. unfold bind. by destruct (m s). Qed.

Lemma bind_ext_l {A B} (m m' : M A) (f : A → M B) s :
  m s = m' s → bind m f s = bind m' f s.
Proof. unfold bind. by intros ->. Qed.

Lemma lookup_past_end {A} (l : list A) (v : N) :
  N.of_nat (length l) ≤ v → l !! N.to_nat v = None.
Proof. intros H. apply lookup_ge_None. lia. Qed.

Lemma gen_element_eq depth s :
  gen_element depth s =
  (node <- node_create (rule_id ELEMENT) ;;
   if (depth >? max_depth s)%Z then
     ((val <- map_rand 3 ;;
       match pool_element !! N.to_nat val, pool_l_element !! N.to_nat val with
       | Some str, Some str_l => node_set_val node str str_l
       | _, _ => fault
       end) ;;;
      ret node)
   else
     ((val <- map_rand 1 ;;
       match val with
       | 0 =>
           subnode <- deeper gen_ws depth ;;
           incr_non_term_size node ;;;
           put_subnode node subnode ;;;
           subnode <- deeper gen_value depth ;;
           incr_non_term_size node ;;;
           put_subnode node subnode ;;;
           subnode <- deeper gen_ws depth ;;
           incr_non_term_size node ;;;
           put_subnode node subnode ;;;
           ret tt
       | _ => ret tt
       end) ;;;
      ret node)) s.
Proof.
  unfold gen_element. rewrite gen_rule_eq.
  apply bind_ext. intros node s1.
  destruct (depth >? max_depth s)%Z; [done|].
  apply bind_ext_l. unfold gen_switch. apply bind_ext. intros val s2.
  destruct val as [|p]; [done|].
  by rewrite lookup_past_end by (simpl; lia).
Qed.

Lemma gen_member_eq depth s :
  gen_member depth s =
  (node <- node_create (rule_id MEMBER) ;;
   if (depth >? max_depth s)%Z then
     ((val <- map_rand 3 ;;
       match pool_member !! N.to_nat val, pool_l_member !! N.to_nat val with
       | Some str, Some str_l => node_set_val node str str_l
       | _, _ => fault
       end) ;;;
      ret node)
   else
     ((val <- map_rand 1 ;;
       match val with
       | 0 =>
           subnode <- deeper gen_ws depth ;;
           incr_non_term_size node ;;;
           put_subnode node subnode ;;;
           subnode <- deeper gen_string depth ;;
           incr_non_term_size node ;;;
           put_subnode node subnode ;;;
           subnode <- deeper gen_ws depth ;;
           incr_non_term_size node ;;;
           put_subnode node subnode ;;;
           subnode <- node_create_with_val TERM_NODE (bytes ":") 1 ;;
           put_subnode node subnode ;;;
           subnode <- deeper gen_element depth ;;
           incr_non_term_size node ;;;
           put_subnode node subnode ;;;
           ret tt
       | _ => ret tt
       end) ;;;
      ret node)) s.
Proof.
  unfold gen_member. rewrite gen_rule_eq.
  apply bind_ext. intros node s1.
  destruct (depth >? max_depth s)%Z; [done|].
  apply bind_ext_l. unfold gen_switch. apply bind_ext. intros val s2.
  destruct val as [|p]; [done|].
  by rewrite lookup_past_end by (simpl; lia).
Qed.

Lemma gen_ws_eq depth s :
  gen_ws depth s =
  (node <- node_create (rule_id WS) ;;
   if (depth >? max_depth s)%Z then
     ((val <- map_rand 1 ;;
       match pool_ws !! N.to_nat val, pool_l_ws !! N.to_nat val with
       | Some str, Some str_l => node_set_val node str str_l
       | _, _ => fault
       end) ;;;
      ret node)
   else
     ((val <- map_rand 2 ;;
       match val with
       | 0 => ret tt
       | 1 =>
           subnode <- deeper gen_sp1 depth ;;
           incr_non_term_size node ;;;
           put_subnode node subnode ;;;
           subnode <- deeper gen_ws depth ;;
           incr_non_term_size node ;;;
           incr_recursion_edge_size node ;;;
           put_subnode node subnode ;;;
           ret tt
       | _ => ret tt
       end) ;;;
      ret node)) s.
Proof.
  unfold gen_ws at 1. rewrite gen_rule_eq.
  apply bind_ext. intros node s1.
  destruct (depth >? max_depth s)%Z; [done|].
  apply bind_ext_l. unfold gen_switch. apply bind_ext. intros val s2.
  destruct val as [|[p|p|]]; [done| | |done].
  all: by rewrite lookup_past_end by (simpl; lia).
Qed.

(** ** The structural encoding: round trip *)

Lemma shape_ind_nested (P : shape → Prop) :
  (∀ rid value, P (Leaf rid value)) →
  (∀ rid kids, Forall P kids → P (Inner rid kids)) →
  ∀ t, P t.
Proof.
  intros HLeaf HInner. fix IH 1. intros [rid value|rid kids].
  - apply HLeaf.
  - apply HInner. induction kids as [|k kids IHk]; constructor; [apply IH|done].
Qed.

Lemma byte_of_N_to_N n : Byte.to_N (byte_of_N n) = n mod 256.
Proof.
  unfold byte_of_N.
  assert (n mod 256 < 256) as Hlt by (by apply N.mod_lt).
  pose proof (Byte.to_of_N_option_map (n mod 256)) as H.
  destruct (N.leb_spec (n mod 256) 255) as [_|Hgt]; [|lia].
  destruct (Byte.of_N (n mod 256)) as [b|]; [|done].
  simpl in *. by injection H.
Qed.

Lemma le_bytes_length w n : length (le_bytes w n) = w.
Proof. revert n. induction w as [|w IH]; intros n; simpl; [done|]. by rewrite IH. Qed.

Lemma le_value_bytes w n :
  n < 256 ^ N.of_nat w → le_value (le_bytes w n) = n.
Proof.
  revert n. induction w as [|w IH]; intros n Hn.
  - simpl in *. lia.
  - cbn [le_bytes le_value]. rewrite byte_of_N_to_N, IH.
    + symmetry. rewrite N.add_comm. apply N.div_mod. done.
    + rewrite Nat2N.inj_succ, N.pow_succ_r' in Hn.
      apply N.Div0.div_lt_upper_bound. done.
Qed.

Lemma get_le_bytes w n rest :
  n < 256 ^ N.of_nat w → get_le w (le_bytes w n ++ rest) = Some (n, rest).
Proof.
  intros Hn. unfold get_le.
  destruct (Nat.ltb_spec (length (le_bytes w n ++ rest)) w) as [Hlt|_].
  { rewrite length_app, le_bytes_length in Hlt. lia. }
  rewrite take_app_length' by (by rewrite le_bytes_length).
  rewrite drop_app_length' by (by rewrite le_bytes_length).
  by rewrite le_value_bytes.
Qed.

(** Every tree of the store has a structural content. *)
Lemma shape_fuel_tree s h a :
  tree_within s h a → is_Some (shape_fuel h s a).
Proof.
  revert a. induction h as [|h IH]; intros a Ht; [done|].
  destruct Ht as (nd & Hnd & Hall). simpl. rewrite Hnd. simpl.
  destruct (val_buf nd) as [value|]; [eauto|].
  assert (is_Some (mapM (shape_fuel h s) (subnodes nd))) as [kids Hkids].
  { apply mapM_is_Some. eapply Forall_impl; [exact Hall|]. apply IH. }
  rewrite Hkids. simpl. eauto.
Qed.


Lemma struct_encode_length t : (13 ≤ length (struct_encode t))%nat.
Proof. destruct t; simpl; lia. Qed.

Lemma concat_encode_length kids :
  (length kids ≤ length (concat (struct_encode <$> kids)))%nat.
Proof.
  induction kids as [|k kids IH]; [done|].
  rewrite fmap_cons. cbn [concat length].
  rewrite length_app. pose proof (struct_encode_length k). lia.
Qed.

Lemma height_le_length t : (height t ≤ length (struct_encode t))%nat.
Proof.
  induction t as [rid value|rid kids IH] using shape_ind_nested; simpl; [lia|].
  assert (foldr (λ k m, max (height k) m) 0%nat kids
          ≤ length (concat (struct_encode <$> kids)))%nat; [|lia].
  induction IH as [|k kids Hk _ IHk]; [done|].
  rewrite fmap_cons. cbn [concat foldr]. rewrite length_app. lia.
Qed.

Lemma decode_seq_encode (dec : list byte → option (shape * list byte)) kids :
  Forall (λ k, ∀ rest, dec (struct_encode k ++ rest) = Some (k, rest)) kids →
  ∀ rest,
    decode_seq dec (length kids) (concat (struct_encode <$> kids) ++ rest)
    = Some (kids, rest).
Proof.
  induction 1 as [|k kids Hk _ IH]; intros rest; [done|].
  rewrite fmap_cons. cbn [concat length decode_seq].
  rewrite <- app_assoc, Hk. simpl. by rewrite IH.
Qed.

Lemma known_id_width rid : known_id rid = true → rid < 256 ^ N.of_nat 4.
Proof.
  unfold known_id. intros H%N.leb_le.
  change (256 ^ N.of_nat 4) with 4294967296. lia.
Qed.

Lemma decode_node_encode t :
  shape_ok t = true →
  ∀ fuel rest,
    (height t ≤ fuel)%nat →
    decode_node fuel (struct_encode t ++ rest) = Some (t, rest).
Proof.
  induction t as [rid value|rid kids IH] using shape_ind_nested;
    intros Hok fuel rest Hfuel.
  - destruct fuel as [|k]; [simpl in Hfuel; lia|].
    simpl in Hok. apply andb_prop in Hok as [Hrid Hlen].
    apply N.ltb_lt in Hlen.
    change (2 ^ 64) with (256 ^ N.of_nat 8) in Hlen.
    cbn [decode_node struct_encode]. rewrite <- !app_assoc.
    rewrite get_le_bytes by (by apply known_id_width).
    cbn -[le_bytes get_le known_id]. rewrite Hrid. cbn -[le_bytes get_le].
    rewrite get_le_bytes by done. cbn -[le_bytes get_le take drop decode_seq].
    destruct (N.ltb_spec (N.of_nat (length (value ++ rest)))
                         (N.of_nat (length value))) as [Hlt|_].
    { rewrite length_app in Hlt. lia. }
    rewrite Nat2N.id, take_app_length, drop_app_length. done.
  - destruct fuel as [|k]; [simpl in Hfuel; lia|].
    simpl in Hok. apply andb_prop in Hok as [Hok Hkids].
    apply andb_prop in Hok as [Hrid Hlen].
    apply N.ltb_lt in Hlen.
    change (2 ^ 64) with (256 ^ N.of_nat 8) in Hlen.
    cbn [decode_node struct_encode]. rewrite <- !app_assoc.
    rewrite get_le_bytes by (by apply known_id_width).
    cbn -[le_bytes get_le known_id]. rewrite Hrid. cbn -[le_bytes get_le].
    rewrite get_le_bytes by done. cbn -[le_bytes get_le take drop decode_seq].
    destruct (N.ltb_spec
                (N.of_nat (length (concat (struct_encode <$> kids) ++ rest)))
                (N.of_nat (length kids))) as [Hlt|_].
    { rewrite length_app in Hlt. pose proof (concat_encode_length kids). lia. }
    rewrite Nat2N.id, decode_seq_encode; [done|].
    simpl in Hfuel. apply Nat.succ_le_mono in Hfuel.
    rewrite forallb_forall in Hkids.
    clear Hlen. induction IH as [|c kids Hc _ IHk]; constructor.
    + intros rest'. apply Hc.
      * apply Hkids. by left.
      * simpl in Hfuel. lia.
    + apply IHk.
      * intros x Hx. apply Hkids. by right.
      * simpl in Hfuel. lia.
Qed.

Lemma node_equal_refl t : node_equal t t = true.
Proof.
  induction t as [rid value|rid kids IH] using shape_ind_nested; simpl.
  - rewrite N.eqb_refl, Nat.eqb_refl. simpl.
    induction value as [|b value IHv]; simpl; [done|].
    rewrite IHv. by rewrite (Byte.byte_dec_lb (eq_refl b)).
  - rewrite N.eqb_refl, Nat.eqb_refl. simpl.
    induction IH as [|k kids Hk _ IHk]; [done|]. by rewrite Hk, IHk.
Qed.

(** C7.  The structural round trip.  For every tree of the grammar that
    the C types can hold -- every id a node type of the grammar, zero-child
    non-terminals and terminals with an empty value included -- the decoder
    applied to the structural encoding of the tree returns a tree, which is
    the tree encoded, and so is structurally equal to it: the same ids, the
    same values, the same ordered shape.  An id that is no node type of the
    grammar is a decode error, whatever follows it in the buffer.  (A tree
    is taken by its structural content; every tree of the store has one,
    [shape_fuel_tree].) *)
Theorem struct_round_trip (t : shape) :
  shape_ok t = true →
  (∃ t', tree_from_buf (struct_encode t) = Some t' ∧
         node_equal t t' = true ∧ t' = t) ∧
  ∀ rid rest,
    rid < 2 ^ 32 → known_id rid = false →
    tree_from_buf (le_bytes 4 rid ++ rest) = None.
Proof.
  intros Hok. split.
  - exists t. split; [|split; [apply node_equal_refl | done]].
    unfold tree_from_buf.
    rewrite <- (app_nil_r (struct_encode t)) at 2.
    rewrite decode_node_encode; [done..|].
    pose proof (height_le_length t). lia.
  - intros rid rest Hrid Hknown. unfold tree_from_buf.
    change (2 ^ 32) with (256 ^ N.of_nat 4) in Hrid.
    cbn [decode_node]. rewrite get_le_bytes by done.
    cbn -[known_id]. by rewrite Hknown.
Qed.

(** ** The tables of the generators *)

Lemma case_count r :
  case_n (body_of r) = N.of_nat (length (cases (body_of r))).
Proof. by destruct r. Qed.

Lemma case_checks r :
  forallb (forallb (λ sym, lit_whole sym && rec_self r sym))
          (cases (body_of r)) = true.
Proof. destruct r; vm_compute; reflexivity. Qed.

Lemma case_sym_checks r syms sym :
  syms ∈ cases (body_of r) → sym ∈ syms →
  lit_whole sym = true ∧ rec_self r sym = true.
Proof.
  intros Hsyms Hsym. pose proof (case_checks r) as H.
  rewrite forallb_forall in H.
  apply list_elem_of_In, H in Hsyms. rewrite forallb_forall in Hsyms.
  apply list_elem_of_In, Hsyms in Hsym. by apply andb_prop in Hsym.
Qed.

Lemma rule_id_inj r r' : rule_id r = rule_id r' → r = r'.
Proof. destruct r, r'; simpl; intros H; try reflexivity; discriminate H. Qed.

Lemma rule_id_range r : 1 ≤ rule_id r ≤ 30.
Proof. destruct r; simpl; lia. Qed.

Lemma rule_id_not_term r : rule_id r ≠ TERM_NODE.
Proof. unfold TERM_NODE. pose proof (rule_id_range r). lia. Qed.

(** ** Frames of the generated region *)

Lemma bump_S n x : bump n (size_add x 1) = bump (S n) x.
Proof. unfold bump. exact (Nat.iter_swap n _ (λ y, size_add y 1) x). Qed.

Lemma sym_child_frame s s' sym c :
  nodes s' !! c = nodes s !! c → sym_child s sym c → sym_child s' sym c.
Proof.
  intros E (k & Hk & H). exists k. by rewrite (node_at_lookup s s' c E).
Qed.

Lemma Forall2_Forall_impl {A B} (P Q : A → B → Prop) (R : B → Prop) l k :
  Forall2 P l k → Forall R k → (∀ x y, R y → P x y → Q x y) → Forall2 Q l k.
Proof.
  intros H. induction H as [|x y l k Hxy H IH]; intros HR Himp; [constructor|].
  apply Forall_cons in HR as [Hy HR]. constructor; eauto.
Qed.

Lemma generated_node_frame s s' nd :
  (∀ c, c ∈ subnodes nd → nodes s' !! c = nodes s !! c) →
  generated_node s nd → generated_node s' nd.
Proof.
  intros K [Hpar H]. split; [done|].
  destruct H as [H|(r & Hr & [H|(Hval & syms & Hsyms & Hkids & Hc)])].
  - by left.
  - right. exists r. split; [done|]. by left.
  - right. exists r. split; [done|]. right. split; [done|].
    exists syms. split; [done|]. split; [|done].
    eapply Forall2_Forall_impl; [exact Hkids| |].
    + apply Forall_forall. intros c Hin. exact (K c Hin).
    + intros sym c E. by apply sym_child_frame.
Qed.

Lemma gen_region_frame lo hi s s' :
  (∀ b, (lo ≤ b < hi)%nat → nodes s' !! b = nodes s !! b) →
  gen_region lo hi s → gen_region lo hi s'.
Proof.
  intros K G x Hx. destruct (G x Hx) as (nd & Hnd & Hall & Hgen).
  exists nd. split; [by rewrite (node_at_lookup s s' x (K x Hx))|].
  split; [done|]. eapply generated_node_frame; [|exact Hgen].
  intros c Hc. rewrite Forall_forall in Hall. apply K.
  specialize (Hall c Hc). lia.
Qed.

Lemma gen_region_app lo mid hi s :
  (lo ≤ mid ≤ hi)%nat →
  gen_region lo mid s → gen_region mid hi s → gen_region lo hi s.
Proof.
  intros Hm G1 G2 x Hx. destruct (decide (x < mid)%nat) as [Hlt|Hge].
  - destruct (G1 x) as (nd & Hnd & Hall & Hgen); [lia|].
    exists nd. split; [done|]. split; [|done].
    eapply Forall_impl; [exact Hall|]. simpl. intros; lia.
  - apply G2. lia.
Qed.

Lemma gen_region_empty lo s : gen_region lo lo s.
Proof. intros x Hx. lia. Qed.

Lemma tree_within_mono s h h' a :
  (h ≤ h')%nat → tree_within s h a → tree_within s h' a.
Proof.
  revert h' a. induction h as [|h IH]; intros h' a Hh Ht; [done|].
  destruct h' as [|h']; [lia|]. destruct Ht as (nd & Hnd & Hall).
  exists nd. split; [done|]. eapply Forall_impl; [exact Hall|].
  intros c Hc. apply IH; [lia|done].
Qed.

Lemma tree_within_frame lo hi s s' h a :
  gen_region lo hi s →
  (∀ b, (lo ≤ b < hi)%nat → nodes s' !! b = nodes s !! b) →
  (lo ≤ a < hi)%nat → tree_within s h a → tree_within s' h a.
Proof.
  intros G K. revert a. induction h as [|h IH]; intros a Ha Ht; [done|].
  destruct Ht as (nd & Hnd & Hall).
  exists nd. split; [by rewrite (node_at_lookup s s' a (K a Ha))|].
  destruct (G a Ha) as (nd' & Hnd' & Hbound & _).
  rewrite Hnd in Hnd'. injection Hnd' as <-.
  rewrite Forall_forall in *. intros c Hc. apply IH; [|by apply Hall].
  specialize (Hbound c Hc). lia.
Qed.


(** ** The region a generator fills *)

(** One statement group done: the child allocated at the end of the store
    and the owner updated, nothing else written. *)
Lemma attach_step h node nd s s1 s2 nd2 :
  node_at s node = Some nd →
  gen_region (S node) (length (nodes s)) s →
  Forall (λ c, (node < c < length (nodes s))%nat ∧ tree_within s h c)
         (subnodes nd) →
  keeps_below (length (nodes s)) s s1 →
  (length (nodes s) < length (nodes s1))%nat →
  gen_region (length (nodes s)) (length (nodes s1)) s1 →
  tree_within s1 h (length (nodes s)) →
  length (nodes s2) = length (nodes s1) →
  (∀ b, b ≠ node → nodes s2 !! b = nodes s1 !! b) →
  node_at s2 node = Some nd2 →
  subnodes nd2 = subnodes nd ++ [length (nodes s)] →
  gen_region (S node) (length (nodes s2)) s2 ∧
  Forall (λ c, (node < c < length (nodes s2))%nat ∧ tree_within s2 h c)
         (subnodes nd2).
Proof.
  intros Hnd G Hkids K1 L1 G1 T1 L2 K2 Hnd2 Hsub.
  pose proof (cell_lt _ _ _ Hnd) as Hlt.
  assert (gen_region (S node) (length (nodes s1)) s1) as G01.
  { apply (gen_region_app _ (length (nodes s))); [lia| |done].
    eapply gen_region_frame; [|exact G]. intros b Hb. apply K1. lia. }
  assert (gen_region (S node) (length (nodes s2)) s2) as G2.
  { rewrite L2. eapply gen_region_frame; [|exact G01].
    intros b Hb. apply K2. lia. }
  split; [done|]. rewrite Hsub, L2. apply Forall_app. split.
  - eapply Forall_impl; [exact Hkids|]. simpl. intros c [Hc Ht].
    split; [lia|].
    eapply (tree_within_frame (S node) (length (nodes s1)) s1);
      [done| |lia|].
    + intros b Hb. apply K2. lia.
    + eapply (tree_within_frame (S node) (length (nodes s)) s);
        [done| |lia|done].
      intros b Hb. apply K1. lia.
  - constructor; [|constructor]. split; [lia|].
    eapply (tree_within_frame (S node) (length (nodes s1)) s1);
      [done| |lia|done].
    intros b Hb. apply K2. lia.
Qed.


Lemma node_create_with_val_length nid buf len s a s' :
  node_create_with_val nid buf len s = Ret a s' →
  length (nodes s') = S (length (nodes s)).
Proof.
  unfold node_create_with_val, node_set_val. intros H.
  apply bind_Ret in H as (node & s1 & H1 & H).
  apply bind_Ret in H as ([] & s2 & H2 & [_ ->]%ret_Ret).
  apply node_create_effect in H1 as (_ & _ & _ & N1).
  apply modify_effect in H2 as (_ & _ & L2 & _).
  rewrite L2, N1, length_app. simpl. lia.
Qed.

Lemma gen_symbols_region h (gen : rule → M addr) node :
  gen_ok h gen → (1 ≤ h)%nat →
  ∀ syms s u s' nd,
    node_at s node = Some nd →
    gen_region (S node) (length (nodes s)) s →
    Forall (λ c, (node < c < length (nodes s))%nat ∧ tree_within s h c)
           (subnodes nd) →
    gen_symbols gen node syms s = Ret u s' →
    ∃ nd' kids,
      node_at s' node = Some nd' ∧
      subnodes nd' = subnodes nd ++ kids ∧
      Forall2 (sym_child s') syms kids ∧
      Forall (λ c, (node < c < length (nodes s'))%nat ∧ tree_within s' h c)
             (subnodes nd') ∧
      gen_region (S node) (length (nodes s')) s' ∧
      id nd' = id nd ∧ parent nd' = parent nd ∧
      val_buf nd' = val_buf nd ∧ val_len nd' = val_len nd ∧
      recursion_edge_size nd' =
        bump (count is_rec syms) (recursion_edge_size nd) ∧
      non_term_size nd' = bump (count is_sub syms) (non_term_size nd) ∧
      ∀ b, (b < length (nodes s))%nat → b ≠ node →
           nodes s' !! b = nodes s !! b.
Proof.
  intros Hgen Hh. induction syms as [|sym rest IH]; intros s u s' nd Hnd G Hkids H.
  { simpl in H. apply ret_Ret in H as [-> ->]. exists nd, [].
    rewrite app_nil_r. repeat split; done. }
  pose proof (cell_lt _ _ _ Hnd) as Hlt.
  destruct sym as [str n|r|r]; simpl in H.
  - apply bind_Ret in H as (sub & s1 & H1 & H).
    apply bind_Ret in H as ([] & s3 & H3 & H).
    pose proof (node_create_with_val_length _ _ _ _ _ _ H1) as L1.
    apply node_create_with_val_effect in H1 as (-> & E1 & K1 & Hk).
    apply modify_effect in H3 as (_ & _ & L3 & (x3 & Hx3 & Hy3) & K3).
    rewrite (keeps_below_node_at _ _ _ _ K1 Hlt), Hnd in Hx3.
    injection Hx3 as <-.
    edestruct (attach_step h node nd s s1 s3) as [G3 F3];
      [exact Hnd|exact G|exact Hkids|exact K1|lia| | |exact L3|exact K3
      |exact Hy3|reflexivity|].
    { intros x Hx. assert (x = length (nodes s)) as -> by lia.
      eexists. split; [exact Hk|]. split; [constructor|].
      split; [done|]. left. simpl. eauto. }
    { destruct h as [|h]; [lia|]. eexists. split; [exact Hk|]. constructor. }
    destruct (IH _ _ _ _ Hy3 G3 F3 H)
      as (nd' & kids & Hnd' & Hsub' & Hsym & F' & G' & Hid & Hpar & Hval
          & Hlen & Hrec & Hnts & Hframe).
    exists nd', (length (nodes s) :: kids).
    split; [done|]. split; [rewrite Hsub'; simpl; by rewrite <- app_assoc|].
    split.
    { constructor; [|done]. apply (sym_child_frame s3); [apply Hframe; lia|].
      apply (sym_child_frame s1); [apply K3; lia|]. eexists. split; [exact Hk|].
      done. }
    split; [done|]. split; [done|]. simpl in *.
    split; [done|]. split; [done|]. split; [done|]. split; [done|].
    split; [done|]. split; [done|].
    intros b Hb Hne. rewrite Hframe by lia. rewrite K3 by done.
    apply K1. done.
  - apply bind_Ret in H as (sub & s1 & H1 & H).
    apply bind_Ret in H as ([] & s2 & H2 & H).
    apply bind_Ret in H as ([] & s3 & H3 & H).
    apply Hgen in H1 as ((-> & E1 & K1 & k & Hk & Hkid & _) & L1 & G1 & T1).
    apply modify_effect in H2 as (_ & _ & L2 & (x2 & Hx2 & Hy2) & K2).
    rewrite (keeps_below_node_at _ _ _ _ K1 Hlt), Hnd in Hx2.
    injection Hx2 as <-.
    apply modify_effect in H3 as (_ & _ & L3 & (x3 & Hx3 & Hy3) & K3).
    rewrite Hy2 in Hx3. injection Hx3 as <-.
    edestruct (attach_step h node nd s s1 s3) as [G3 F3];
      [exact Hnd|exact G|exact Hkids|exact K1|exact L1|exact G1|exact T1
      |congruence|intros b Hb; by rewrite K3, K2|exact Hy3|reflexivity|].
    destruct (IH _ _ _ _ Hy3 G3 F3 H)
      as (nd' & kids & Hnd' & Hsub' & Hsym & F' & G' & Hid & Hpar & Hval
          & Hlen & Hrec & Hnts & Hframe).
    exists nd', (length (nodes s) :: kids).
    split; [done|]. split; [rewrite Hsub'; simpl; by rewrite <- app_assoc|].
    split.
    { constructor; [|done]. apply (sym_child_frame s3); [apply Hframe; lia|].
      apply (sym_child_frame s1); [rewrite K3, K2 by lia; done|].
      by exists k. }
    split; [done|]. split; [done|]. simpl in *.
    split; [done|]. split; [done|]. split; [done|]. split; [done|].
    split; [done|]. split; [by rewrite Hnts, bump_S|].
    intros b Hb Hne. rewrite Hframe by lia. rewrite K3, K2 by done.
    apply K1. done.
  - apply bind_Ret in H as (sub & s1 & H1 & H).
    apply bind_Ret in H as ([] & s2 & H2 & H).
    apply bind_Ret in H as ([] & s3 & H3 & H).
    apply bind_Ret in H as ([] & s4 & H4 & H).
    apply Hgen in H1 as ((-> & E1 & K1 & k & Hk & Hkid & _) & L1 & G1 & T1).
    apply modify_effect in H2 as (_ & _ & L2 & (x2 & Hx2 & Hy2) & K2).
    rewrite (keeps_below_node_at _ _ _ _ K1 Hlt), Hnd in Hx2.
    injection Hx2 as <-.
    apply modify_effect in H3 as (_ & _ & L3 & (x3 & Hx3 & Hy3) & K3).
    rewrite Hy2 in Hx3. injection Hx3 as <-.
    apply modify_effect in H4 as (_ & _ & L4 & (x4 & Hx4 & Hy4) & K4).
    rewrite Hy3 in Hx4. injection Hx4 as <-.
    edestruct (attach_step h node nd s s1 s4) as [G4 F4];
      [exact Hnd|exact G|exact Hkids|exact K1|exact L1|exact G1|exact T1
      |congruence|intros b Hb; by rewrite K4, K3, K2|exact Hy4|reflexivity|].
    destruct (IH _ _ _ _ Hy4 G4 F4 H)
      as (nd' & kids & Hnd' & Hsub' & Hsym & F' & G' & Hid & Hpar & Hval
          & Hlen & Hrec & Hnts & Hframe).
    exists nd', (length (nodes s) :: kids).
    split; [done|]. split; [rewrite Hsub'; simpl; by rewrite <- app_assoc|].
    split.
    { constructor; [|done]. apply (sym_child_frame s4); [apply Hframe; lia|].
      apply (sym_child_frame s1); [rewrite K4, K3, K2 by lia; done|].
      by exists k. }
    split; [done|]. split; [done|]. simpl in *.
    split; [done|]. split; [done|]. split; [done|]. split; [done|].
    split; [by rewrite Hrec, bump_S|]. split; [by rewrite Hnts, bump_S|].
    intros b Hb Hne. rewrite Hframe by lia. rewrite K4, K3, K2 by done.
    apply K1. done.
Qed.


Lemma gen_fuel_region fuel :
  ∀ r depth s a s',
    gen_fuel fuel r depth s = Ret a s' →
    gen_post r s a s' ∧ (a < length (nodes s'))%nat ∧
    gen_region a (length (nodes s')) s' ∧ tree_within s' (S fuel) a.
Proof.
  induction fuel as [|k IH]; intros r depth s a s' H.
  all: split; [by eapply gen_fuel_effect|].
  all: rewrite gen_fuel_unfold in H; cbv zeta in H.
  all: remember (with_nodes s _) as s1 eqn:Es1.
  all: assert (length (nodes s1) = S (length (nodes s))) as Ls1
         by (rewrite Es1; simpl; rewrite length_app; simpl; lia).
  all: assert (node_at s1 (length (nodes s)) =
               Some (Node (rule_id r) 0 node_create_size None 0 None []))
         as Hnode by (rewrite Es1; apply cell_app_new).
  all: destruct (depth >? max_depth s)%Z.
  2: discriminate H.
  3: {
    apply bind_Ret in H as ([] & s2 & H2 & [-> ->]%ret_Ret).
    unfold gen_switch in H2.
    apply bind_Ret in H2 as (val & s3 & H3 & H2).
    apply map_rand_effect in H3 as (_ & N3 & Hval).
    rewrite case_count in Hval.
    destruct (lookup_lt_is_Some_2 (cases (body_of r)) (N.to_nat val))
      as [syms Hsyms]; [lia|].
    rewrite Hsyms in H2.
    assert (node_at s3 (length (nodes s)) =
            Some (Node (rule_id r) 0 node_create_size None 0 None []))
      as Hnode3 by (unfold node_at; rewrite N3; exact Hnode).
    eapply (gen_symbols_region (S k)) in H2
      as (nd' & kids & Hnd' & Hsub & Hsym & F & G & Hid & Hpar & Hval'
          & Hlen & Hrec & Hnts & _);
      [|intros r' s0 a0 s0' [_ H0]%deeper_Ret; exact (IH _ _ _ _ _ H0)
       |lia|exact Hnode3
       |rewrite N3, Ls1; apply gen_region_empty|constructor].
    simpl in *.
    pose proof (cell_lt _ _ _ Hnd') as Hlt.
    split; [done|]. split.
    - intros x Hx. destruct (decide (x = length (nodes s))) as [->|Hne].
      + exists nd'. split; [done|]. split.
        { eapply Forall_impl; [exact F|]. simpl. by intros c [? _]. }
        split; [done|]. right. exists r. split; [done|]. right.
        split; [done|]. exists syms.
        split; [by eapply list_elem_of_lookup_2|].
        split; [by rewrite Hsub|]. done.
      + apply G. lia.
    - exists nd'. split; [done|].
      eapply Forall_impl; [exact F|]. simpl. by intros c [_ ?]. }
  all: apply bind_Ret in H as ([] & s2 & H2 & [-> ->]%ret_Ret).
  all: unfold gen_pool in H2.
  all: apply bind_Ret in H2 as (val & s3 & H3 & H2).
  all: apply map_rand_effect in H3 as (_ & N3 & Hval).
  all: destruct (pool_tables r) as (_ & _ & Hl).
  all: destruct (pool (body_of r) !! N.to_nat val) as [str|] eqn:Hstr;
         [|discriminate H2].
  all: rewrite Hl, list_lookup_fmap, Hstr in H2; simpl in H2.
  all: unfold node_set_val in H2.
  all: apply modify_effect in H2 as (_ & _ & L2 & (x & Hx & Hy) & _).
  all: assert (node_at s3 (length (nodes s)) =
               Some (Node (rule_id r) 0 node_create_size None 0 None []))
         as Hnode3 by (unfold node_at; rewrite N3; exact Hnode).
  all: rewrite Hnode3 in Hx; injection Hx as <-; simpl in Hy.
  all: rewrite Nat2N.id, take_ge in Hy by lia.
  all: rewrite L2, N3, Ls1.
  all: split; [lia|]; split; [|eexists; split; [exact Hy|constructor]].
  all: intros y Hy'; assert (y = length (nodes s)) as -> by lia.
  all: eexists; split; [exact Hy|]; split; [constructor|].
  all: split; [done|]; right; exists r; split; [done|]; left.
  all: exists (N.to_nat val), str; done.
Qed.

Lemma gen_rule_region r depth s a s' :
  gen_rule r depth s = Ret a s' →
  gen_post r s a s' ∧ (a < length (nodes s'))%nat ∧
  gen_region a (length (nodes s')) s' ∧
  tree_within s' (S (Z.to_nat (max_depth s - depth + 1))) a.
Proof. apply gen_fuel_region. Qed.


(** ** What the generators build *)

Lemma Forall2_elem_impl {A B} (P Q : A → B → Prop) l k :
  Forall2 P l k → (∀ x y, x ∈ l → y ∈ k → P x y → Q x y) → Forall2 Q l k.
Proof.
  intros H. induction H as [|x y l k Hxy H IH]; intros Himp; [constructor|].
  constructor.
  - apply Himp; [by left..|done].
  - apply IH. intros x' y' Hx' Hy'. apply Himp; by right.
Qed.

Lemma region_derives lo hi s :
  gen_region lo hi s →
  ∀ h r a nd,
    (lo ≤ a < hi)%nat → tree_within s h a →
    node_at s a = Some nd → id nd = rule_id r → derives s h r a.
Proof.
  intros G. induction h as [|h IH]; intros r a nd Ha Ht Hnd Hid; [done|].
  destruct Ht as (nd' & Hnd' & Hall).
  rewrite Hnd in Hnd'. injection Hnd' as <-.
  destruct (G a Ha) as (nd' & Hnd' & Hbound & _ & Hgen).
  rewrite Hnd in Hnd'. injection Hnd' as <-.
  exists nd. split; [done|]. split; [done|].
  destruct Hgen as [(Hterm & _)|(r0 & Hr0 & Hgen)].
  { rewrite Hid in Hterm. by destruct (rule_id_not_term r). }
  assert (r0 = r) as -> by (apply rule_id_inj; congruence).
  destruct Hgen as [(i & str & Hi & Hval & Hlen & Hsub & _)
                   |(Hval & syms & Hsyms & Hkids & _)].
  - left. exists str. split; [by eapply list_elem_of_lookup_2|done].
  - right. split; [done|]. exists syms. split; [done|].
    rewrite Forall_forall in Hall, Hbound.
    eapply Forall2_elem_impl; [exact Hkids|].
    intros sym c Hsym Hc (k & Hk & Hchild).
    destruct (case_sym_checks r syms sym Hsyms Hsym) as [Hlit _].
    specialize (Hbound c Hc). destruct sym as [str n|r'|r']; simpl in *.
    + apply N.eqb_eq in Hlit as ->.
      destruct Hchild as (? & Hv & ? & ?).
      rewrite Nat2N.id, take_ge in Hv by lia.
      split; [|by exists k]. pose proof (Hall c Hc) as Hlive.
      destruct h; [done|lia].
    + eapply IH; [lia|by apply Hall|done..].
    + eapply IH; [lia|by apply Hall|done..].
Qed.

Lemma count_children r s syms kids :
  (∀ sym, sym ∈ syms → rec_self r sym = true) →
  Forall2 (sym_child s) syms kids →
  ∀ nd, id nd = rule_id r →
    count (non_term_child s) kids = count is_sub syms ∧
    count (same_type_child s nd) kids = count is_rec syms.
Proof.
  intros Hself H nd Hid. unfold count.
  induction H as [|sym c syms kids (k & Hk & Hchild) H IH]; [done|].
  destruct IH as [IH1 IH2]; [intros; apply Hself; by right|].
  specialize (Hself sym (list_elem_of_here _ _)).
  pose proof (rule_id_not_term r) as Hr.
  assert (non_term_child s c = is_sub sym ∧
          same_type_child s nd c = is_rec sym) as [E1 E2].
  { unfold non_term_child, same_type_child. rewrite Hk, Hid.
    destruct sym as [str n|r'|r']; simpl in *.
    - destruct Hchild as (-> & _). unfold TERM_NODE in *.
      by destruct (N.eqb_spec 0 (rule_id r)) as [E|_]; [destruct Hr|].
    - rewrite Hchild. pose proof (rule_id_not_term r') as Hr'.
      destruct (N.eqb_spec (rule_id r') TERM_NODE) as [E|_]; [done|].
      by destruct (rule_id r' =? rule_id r).
    - rewrite Hchild, Hself. pose proof (rule_id_not_term r') as Hr'.
      by destruct (N.eqb_spec (rule_id r') TERM_NODE) as [E|_]. }
  simpl. rewrite E1, E2.
  destruct (is_sub sym), (is_rec sym); simpl; by rewrite IH1, IH2.
Qed.


(** X1.  Every generator returns.  For every rule and every [depth], in
    every state whose [max_depth] is less than [INT_MAX], the call of the
    rule's generator ends with a node: [map_rand] is never called with 0,
    the index it draws never leaves the pool or misses the cases of the
    [switch], no pointer dangles, [depth + 1] never overflows, and the
    recursion is at most [max_depth - depth + 1] calls deep -- that much
    fuel gives the result, and more fuel gives the same. *)
Theorem generators_return (r : rule) (depth : Z) (s : state) :
  (max_depth s < INT_MAX)%Z →
  ∃ a s',
    gen_rule r depth s = Ret a s' ∧
    ∀ fuel, (Z.to_nat (max_depth s - depth + 1) ≤ fuel)%nat →
            gen_fuel fuel r depth s = Ret a s'.
Proof.
  intros Hint.
  destruct (gen_rule_returns r depth s Hint) as (a & s' & H).
  exists a, s'. split; [done|]. intros fuel Hfuel.
  rewrite <- H. unfold gen_rule. by apply gen_fuel_enough.
Qed.

(** X2.  A generator only allocates.  When a call returns, the node it
    returns is the first cell past the old end of the node store; the old
    store is a prefix of the new one, so no node that existed has been
    written or freed; every cell added is live; and the tree store, the
    global [max_depth] and the stream of [random()] are as before. *)
Theorem generator_only_allocates (r : rule) (depth : Z) (s : state)
    (a : addr) (s' : state) :
  gen_rule r depth s = Ret a s' →
  a = length (nodes s) ∧ (a < length (nodes s'))%nat ∧
  nodes s `prefix_of` nodes s' ∧
  (∀ x, (a ≤ x < length (nodes s'))%nat → is_Some (node_at s' x)) ∧
  trees s' = trees s ∧ max_depth s' = max_depth s ∧
  rand_src s' = rand_src s.
Proof.
  intros H.
  apply gen_rule_region in H as ((-> & (T & M & R) & K & _) & L & G & _).
  split; [done|]. split; [done|]. split.
  { apply prefix_of_lookup; [by destruct K|]. intros i Hi. by apply K. }
  split; [|done]. intros x Hx. destruct (G x Hx) as (nd & Hnd & _). eauto.
Qed.

(** X3.  A generator builds a derivation of its rule, of bounded height.
    In a state whose [max_depth] is less than [INT_MAX], so that no call
    computes [depth + 1] on [INT_MAX], the node returned has the type of the
    rule and either holds an entry of the rule's pool and has no children,
    or has no value and has as children, in order, what one case of the
    rule's [switch] lists: a [TERM_NODE] leaf holding the literal for each
    literal, and for each rule named a derivation of that rule.  The height
    of the tree is at most [max_depth - depth + 2], and 1 past the depth
    bound. *)
Theorem generated_tree_derives (r : rule) (depth : Z) (s : state)
    (a : addr) (s' : state) :
  (max_depth s < INT_MAX)%Z →
  gen_rule r depth s = Ret a s' →
  derives s' (S (Z.to_nat (max_depth s - depth + 1))) r a.
Proof.
  intros _ H.
  apply gen_rule_region in H as ((-> & _ & _ & nd & Hnd & Hid & _) & L & G & T).
  eapply region_derives; [exact G|split; [reflexivity|exact L]|done..].
Qed.

(** X4.  The counters of generated nodes count immediate children.  In
    every node a generator call has created, [non_term_size] is the value
    [node_create] gave it incremented once per non-terminal child of the
    node -- not per non-terminal of the subtree -- and
    [recursion_edge_size] is the number of children of the node's own type
    (both in [size_t] arithmetic). *)
Theorem generated_counters (r : rule) (depth : Z) (s : state)
    (a : addr) (s' : state) :
  gen_rule r depth s = Ret a s' →
  ∀ x nd,
    (length (nodes s) ≤ x)%nat → node_at s' x = Some nd →
    non_term_size nd =
      bump (count (non_term_child s') (subnodes nd)) node_create_size ∧
    recursion_edge_size nd =
      bump (count (same_type_child s' nd) (subnodes nd)) 0.
Proof.
  intros H x nd Hx Hnd.
  apply gen_rule_region in H as ((-> & _) & _ & G & _).
  destruct (G x) as (nd' & Hnd' & _ & _ & Hgen);
    [split; [done|by eapply cell_lt]|].
  rewrite Hnd in Hnd'. injection Hnd' as <-.
  destruct Hgen as [(_ & _ & -> & -> & ->)
                   |(r0 & Hr0 & [(_ & _ & _ & _ & _ & -> & -> & ->)
                                |(_ & syms & Hsyms & Hkids & -> & ->)])];
    [done..|].
  destruct (count_children r0 s' syms (subnodes nd)) with (nd := nd)
    as [-> ->]; [|done..].
  intros sym Hsym. by destruct (case_sym_checks r0 syms sym Hsyms Hsym).
Qed.

(** X5.  The generators never set a parent.  Every node a generator call
    has created -- the node returned and every node under it -- has a
    [NULL] parent: the generated code stores a child into
    [node->subnodes[i]] and never assigns [subnode->parent]. *)
Theorem generated_nodes_have_no_parent (r : rule) (depth : Z) (s : state)
    (a : addr) (s' : state) :
  gen_rule r depth s = Ret a s' →
  ∀ x nd, (length (nodes s) ≤ x)%nat → node_at s' x = Some nd →
          parent nd = None.
Proof.
  intros H x nd Hx Hnd.
  apply gen_rule_region in H as ((-> & _) & _ & G & _).
  destruct (G x) as (nd' & Hnd' & _ & Hpar & _);
    [split; [done|by eapply cell_lt]|].
  congruence.
Qed.

(** X6.  The tables of the generated code are consistent.  For every rule:
    the argument of [map_rand] past the depth bound is the number of entries
    of the rule's pool, which is not empty, and the length array gives every
    entry its byte length; the argument of [map_rand] before the [switch] is
    the number of its cases, which is not zero, so the [switch], which has
    no [default], always finds its case; every literal is stored with its
    byte length; and the recursion edge is counted for exactly the children
    generated by the rule's own generator. *)
Theorem generator_tables (r : rule) :
  pool_n (body_of r) = N.of_nat (length (pool (body_of r))) ∧
  pool_n (body_of r) ≠ 0 ∧
  pool_l (body_of r) = (λ str, N.of_nat (length str)) <$> pool (body_of r) ∧
  case_n (body_of r) = N.of_nat (length (cases (body_of r))) ∧
  case_n (body_of r) ≠ 0 ∧
  ∀ syms, syms ∈ cases (body_of r) →
    (∀ str n, Lit str n ∈ syms → n = N.of_nat (length str)) ∧
    (∀ r', Sub r' ∈ syms → r' ≠ r) ∧
    (∀ r', SubRec r' ∈ syms → r' = r).
Proof.
  destruct (pool_tables r) as (Hn & Hn0 & Hl).
  split; [done|]. split; [done|]. split; [done|].
  split; [apply case_count|]. split; [apply case_tables|].
  intros syms Hsyms. split; [|split].
  - intros str n Hsym.
    destruct (case_sym_checks r syms _ Hsyms Hsym) as [H _].
    by apply N.eqb_eq in H.
  - intros r' Hsym ->.
    destruct (case_sym_checks r syms _ Hsyms Hsym) as [_ H].
    simpl in H. by rewrite N.eqb_refl in H.
  - intros r' Hsym.
    destruct (case_sym_checks r syms _ Hsyms Hsym) as [_ H].
    simpl in H. apply N.eqb_eq in H. by apply rule_id_inj.
Qed.


Lemma derives_nodes s s' :
  nodes s' = nodes s → ∀ h r a, derives s h r a → derives s' h r a.
Proof.
  intros E. assert (∀ a, node_at s' a = node_at s a) as Hat
    by (intros; unfold node_at; by rewrite E).
  induction h as [|h IH]; intros r a H; [done|].
  destruct H as (nd & Hnd & Hid & H). exists nd. rewrite Hat.
  split; [done|]. split; [done|].
  destruct H as [H|(Hval & syms & Hsyms & Hkids)]; [by left|right].
  split; [done|]. exists syms. split; [done|].
  eapply Forall2_impl; [exact Hkids|]. intros [str n|r'|r'] c; simpl.
  - intros (Hh & k & Hk & ?). split; [done|]. exists k. by rewrite Hat.
  - apply IH.
  - apply IH.
Qed.

(** X7.  [gen_init__] returns a new tree that holds a derivation of the
    start rule.  From every state whose [max_depth] is less than [INT_MAX]
    (at [INT_MAX] a recursion that the draws do not end reaches depth
    [INT_MAX], where [depth + 1] overflows) the call returns; the tree
    object is new and its root is the first node allocated, the root of a
    derivation of [START] of height at most [max_depth + 2]; the nodes and
    the trees that existed are untouched and [max_depth] is not changed.
    With [max_depth] still at its initializer -1 the tree is a single leaf
    holding an entry of [pool_start]. *)
Theorem gen_init_builds_start_derivation (s : state) :
  (max_depth s < INT_MAX)%Z →
  ∃ s',
    gen_init__ s = Ret (length (trees s)) s' ∧
    trees s' = trees s ++ [Some (Tree (Some (length (nodes s))) 0 [] 0)] ∧
    nodes s `prefix_of` nodes s' ∧ max_depth s' = max_depth s ∧
    derives s' (S (Z.to_nat (max_depth s + 1))) START (length (nodes s)) ∧
    ((max_depth s < 0)%Z →
     ∃ nd str, node_at s' (length (nodes s)) = Some nd ∧
               str ∈ pool_start ∧ val_buf nd = Some str ∧ subnodes nd = [] ∧
               length (nodes s') = S (length (nodes s))).
Proof.
  intros Hint. unfold gen_init__, tree_create.
  erewrite bind_run by reflexivity.
  set (s0 := with_trees s (trees s ++ [Some (Tree None 0 [] 0)])).
  destruct (gen_rule_returns START 0 s0 Hint) as (a & s1 & Hgen).
  unfold gen_start. erewrite bind_run by exact Hgen.
  pose proof Hgen as Hreg.
  apply gen_rule_region in Hreg as ((-> & (T & M & R) & K & Hroot) & L & G & Hh).
  assert (derives s1 (S (Z.to_nat (max_depth s0 - 0 + 1))) START
                  (length (nodes s0))) as Hd.
  { destruct Hroot as (nd & Hnd & Hid & _).
    eapply region_derives; [exact G|split; [reflexivity|exact L]|done..]. }
  assert (tree_at s1 (length (trees s)) = Some (Tree None 0 [] 0)) as Ht.
  { unfold tree_at. rewrite T. apply cell_app_new. }
  erewrite bind_run by (unfold load_tree; by rewrite Ht).
  erewrite bind_run by (unfold store_tree; by rewrite Ht).
  eexists. split; [reflexivity|]. cbn [trees nodes max_depth with_trees].
  split.
  { rewrite T. simpl.
    rewrite insert_app_r_alt, Nat.sub_diag by lia. done. }
  split.
  { apply prefix_of_lookup; [by destruct K|]. intros i Hi. by apply K. }
  split; [done|]. split.
  { replace (max_depth s + 1)%Z with (max_depth s0 - 0 + 1)%Z
      by (simpl; lia).
    eapply derives_nodes; [|exact Hd]. done. }
  intros Hneg.
  replace (Z.to_nat (max_depth s0 - 0 + 1)) with 0%nat in Hd by (simpl; lia).
  destruct Hd as (nd & Hnd & _ & [(str & Hstr & Hval & _ & Hsub)|Hinner]).
  - exists nd, str. repeat split; try done.
    unfold gen_rule in Hgen.
    replace (Z.to_nat (max_depth s0 - 0 + 1)) with 0%nat in Hgen
      by (simpl; lia).
    rewrite gen_fuel_unfold in Hgen. cbv zeta in Hgen.
    destruct (Z.gtb_spec 0 (max_depth s0)) as [_|Hle]; [|simpl in Hle; lia].
    apply bind_Ret in Hgen as ([] & s2 & H2 & [_ ->]%ret_Ret).
    unfold gen_pool in H2.
    apply bind_Ret in H2 as (val & s3 & H3 & H2).
    apply map_rand_effect in H3 as (_ & N3 & _).
    destruct (pool (body_of START) !! N.to_nat val); [|done].
    destruct (pool_l (body_of START) !! N.to_nat val); [|done].
    apply modify_effect in H2 as (_ & _ & -> & _).
    rewrite N3. simpl. rewrite length_app. simpl. lia.
  - destruct Hinner as (_ & syms & Hsyms & Hkids). simpl in Hsyms.
    apply list_elem_of_singleton in Hsyms as ->.
    by apply Forall2_cons_inv_l in Hkids as (c & ? & Hc & _).
Qed.

(** ** The pick, draw by draw *)

Lemma preorder_nodes s s' :
  nodes s' = nodes s → ∀ fuel a, preorder fuel s' a = preorder fuel s a.
Proof.
  intros E. induction fuel as [|k IH]; intros a; [done|]. simpl.
  unfold node_at. rewrite E. destruct (cell (nodes s) a) as [nd|]; [|done].
  simpl. f_equal. induction (subnodes nd) as [|c l IHl]; [done|].
  simpl. by rewrite IH, IHl.
Qed.

Lemma first_odd_app src pos l1 l2 :
  first_odd src pos (l1 ++ l2) =
  match first_odd src pos l1 with
  | (Some x, p) => (Some x, p)
  | (None, p) => first_odd src p l2
  end.
Proof.
  revert pos. induction l1 as [|x l1 IH]; intros pos; [done|]. simpl.
  destruct (negb (src pos mod 2 =? 0)); [done|]. apply IH.
Qed.

Lemma pick_node_fuel_first_odd fuel :
  ∀ root ns ts md src pos l,
    preorder fuel (State ns ts md src pos) root = Some l →
    pick_node_fuel fuel root (State ns ts md src pos) =
      Ret (first_odd src pos l).1
          (State ns ts md src (first_odd src pos l).2).
Proof.
  induction fuel as [|k IH]; intros root ns ts md src pos l H; [done|].
  simpl in H.
  destruct (node_at (State ns ts md src pos) root) as [nd|] eqn:Hnd;
    [|done].
  simpl in H.
  destruct (mapM (preorder k (State ns ts md src pos)) (subnodes nd))
    as [kids|] eqn:Hkids; [|done].
  simpl in H. injection H as <-.
  cbn [pick_node_fuel first_odd]. unfold bind at 1, random.
  cbn [rand_src rand_pos nodes trees max_depth].
  destruct (negb (src pos mod 2 =? 0)); [done|].
  unfold bind at 1, load.
  assert (∀ p, node_at (State ns ts md src p) root = Some nd) as Hat
    by (intros; exact Hnd).
  rewrite Hat. clear Hnd Hat.
  assert (∀ subs kids p q,
    mapM (preorder k (State ns ts md src q)) subs = Some kids →
    first_picked (pick_node_fuel k) subs (State ns ts md src p) =
      Ret (first_odd src p (concat kids)).1
          (State ns ts md src (first_odd src p (concat kids)).2)) as Hloop.
  { induction subs as [|c subs IHl]; intros kids0 p q H0.
    { simpl in H0. injection H0 as <-. done. }
    simpl in H0.
    destruct (preorder k (State ns ts md src q) c) as [lc|] eqn:Hc; [|done].
    simpl in H0.
    destruct (mapM (preorder k (State ns ts md src q)) subs)
      as [krest|] eqn:Hrest; [|done].
    simpl in H0. injection H0 as <-.
    cbn [first_picked concat]. rewrite first_odd_app.
    erewrite bind_run; [|apply IH; rewrite <- Hc; by apply preorder_nodes].
    destruct (first_odd src p lc) as [[x|] p'] eqn:Hodd; simpl; [done|].
    eapply IHl. exact Hrest. }
  eapply Hloop. exact Hkids.
Qed.

(** X8.  [_pick_node] returns the first node, in pre-order, whose draw is
    odd.  On a tree whose nodes in pre-order are [l], the call draws one
    number per node visited, in pre-order, and returns the first node whose
    draw is odd, having consumed the draws up to that one; when the draws
    of all the nodes are even it returns [NULL], having drawn once for every
    node.  It writes nothing.  So the root is picked on the first draw
    whenever that draw is odd, and a node is never picked outside the
    tree. *)
Theorem pick_node_first_odd_in_preorder (root : addr) (s : state)
    (l : list addr) :
  preorder (heap_fuel s) s root = Some l →
  _pick_node root s =
    Ret (first_odd (rand_src s) (rand_pos s) l).1
        (State (nodes s) (trees s) (max_depth s) (rand_src s)
               (first_odd (rand_src s) (rand_pos s) l).2).
Proof.
  unfold _pick_node. destruct s as [ns ts md src pos].
  apply pick_node_fuel_first_odd.
Qed.


(** ** Derivations and the store *)

Lemma derives_mono s h h' r a :
  (h ≤ h')%nat → derives s h r a → derives s h' r a.
Proof.
  revert h' r a. induction h as [|h IH]; intros h' r a Hh H; [done|].
  destruct h' as [|h']; [lia|].
  destruct H as (nd & Hnd & Hid & H). exists nd.
  split; [done|]. split; [done|].
  destruct H as [H|(Hval & syms & Hsyms & Hkids)]; [by left|right].
  split; [done|]. exists syms. split; [done|].
  eapply Forall2_impl; [exact Hkids|]. intros [str n|r'|r'] c; simpl.
  - intros [? ?]. split; [lia|done].
  - apply IH. lia.
  - apply IH. lia.
Qed.

(** A derivation survives any change of the store that keeps, on a set of
    cells closed under children, the type, the value and the children of
    every node. *)
Lemma derives_transfer (P : addr → Prop) s s' :
  (∀ a nd, P a → node_at s a = Some nd →
     Forall P (subnodes nd) ∧
     ∃ nd', node_at s' a = Some nd' ∧ id nd' = id nd ∧
            val_buf nd' = val_buf nd ∧ val_len nd' = val_len nd ∧
            subnodes nd' = subnodes nd) →
  ∀ h r a, P a → derives s h r a → derives s' h r a.
Proof.
  intros HP. induction h as [|h IH]; intros r a Pa H; [done|].
  destruct H as (nd & Hnd & Hid & H).
  destruct (HP a nd Pa Hnd) as (Hall & nd' & Hnd' & Eid & Eval & Elen & Esub).
  exists nd'. split; [done|]. split; [congruence|].
  rewrite Eval, Elen, Esub.
  destruct H as [H|(Hval & syms & Hsyms & Hkids)]; [by left|right].
  split; [done|]. exists syms. split; [done|].
  rewrite Forall_forall in Hall.
  eapply Forall2_elem_impl; [exact Hkids|].
  intros [str n|r'|r'] c _ Hc; simpl.
  - intros (Hh & k & Hk & Hkid & Hkval & Hklen & Hksub).
    destruct (HP c k (Hall c Hc) Hk)
      as (_ & k' & Hk' & Eid' & Eval' & Elen' & Esub').
    split; [done|]. exists k'. split; [done|]. repeat split; congruence.
  - apply IH. by apply Hall.
  - apply IH. by apply Hall.
Qed.

Lemma derives_keeps s s' :
  (∀ a nd, node_at s a = Some nd → node_at s' a = Some nd) →
  ∀ h r a, derives s h r a → derives s' h r a.
Proof.
  intros K h r a. apply (derives_transfer (λ _, True)); [|done].
  intros x nd _ Hnd. split; [by apply Forall_forall|].
  exists nd. split; [by apply K|done].
Qed.

Lemma derives_live s h r a : derives s h r a → is_Some (node_at s a).
Proof. destruct h as [|h]; [done|]. intros (nd & Hnd & _). eauto. Qed.

(** ** Descendants *)

Lemma closed_region_descendant hi s a x :
  closed_region a hi s → (a < hi)%nat → descendant s a x → (a < x < hi)%nat.
Proof.
  intros C Ha H. revert C Ha.
  induction H as [a nd x Hnd Hin|a nd c x Hnd Hin H IH]; intros C Ha.
  - pose proof (C a nd (conj (Nat.le_refl _) Ha) Hnd) as Hall.
    rewrite Forall_forall in Hall. by apply Hall.
  - pose proof (C a nd (conj (Nat.le_refl _) Ha) Hnd) as Hall.
    rewrite Forall_forall in Hall. specialize (Hall c Hin).
    assert (c < x < hi)%nat; [|lia].
    apply IH; [|lia]. eapply closed_region_sub; [|exact C]. lia.
Qed.

Lemma descendant_last s a x :
  descendant s a x →
  ∃ q ndq, (q = a ∨ descendant s a q) ∧ node_at s q = Some ndq ∧
           x ∈ subnodes ndq.
Proof.
  induction 1 as [a nd x Hnd Hin|a nd c x Hnd Hin H IH].
  - exists a, nd. split; [by left|done].
  - destruct IH as (q & ndq & Hq & Hndq & Hx). exists q, ndq.
    split; [|done]. right. destruct Hq as [->|Hq].
    + by eapply descendant_child.
    + by eapply descendant_deeper.
Qed.

Lemma descendant_keeps s s' a x :
  (∀ b nd, node_at s b = Some nd → node_at s' b = Some nd) →
  descendant s a x → descendant s' a x.
Proof.
  intros K. induction 1 as [a nd x Hnd Hin|a nd c x Hnd Hin H IH].
  - eapply descendant_child; [by apply K|done].
  - eapply descendant_deeper; [by apply K|done..].
Qed.

(** ** [node_free] frees descendants only *)

Lemma node_free_fuel_only fuel :
  ∀ node s u s',
    node_free_fuel fuel node s = Ret u s' →
    ∀ a, nodes s' !! a = nodes s !! a ∨
         ((a = node ∨ descendant s node a) ∧ nodes s' !! a = Some None).
Proof.
  induction fuel as [|k IH]; intros node s u s' H; simpl in H;
    [discriminate H|].
  apply bind_Ret in H as (nd & s0 & [-> Hnd]%load_Ret & H).
  apply bind_Ret in H as ([] & s1 & H1 & H).
  assert (∀ l s0 u0 s0',
    (∀ b ndb, node_at s0 b = Some ndb → node_at s b = Some ndb) →
    (∀ c, c ∈ l → c ∈ subnodes nd) →
    for_each (node_free_fuel k) l s0 = Ret u0 s0' →
    ∀ a, nodes s0' !! a = nodes s0 !! a ∨
         (descendant s node a ∧ nodes s0' !! a = Some None)) as Hloop.
  { induction l as [|c l IHl]; intros s0 u0 s0' Hsub Hl H0 a; simpl in H0.
    - apply ret_Ret in H0 as [-> ->]. by left.
    - apply bind_Ret in H0 as ([] & sc & Hc & H0).
      pose proof (IH _ _ _ _ Hc) as Fc.
      assert (∀ b ndb, node_at sc b = Some ndb → node_at s b = Some ndb)
        as Hsub'.
      { intros b ndb Hb. apply Hsub. unfold node_at, cell in *.
        destruct (Fc b) as [<-|[_ E]]; [done|]. by rewrite E in Hb. }
      destruct (IHl _ _ _ Hsub' (λ c' Hc', Hl c' (list_elem_of_further _ _ _ Hc'))
                    H0 a) as [E|[Hd E]]; [|by right].
      rewrite E. destruct (Fc a) as [?|[Hd E']]; [by left|right].
      split; [|done].
      assert (descendant s node c) as Hchild.
      { eapply descendant_child; [exact Hnd|]. apply Hl. by left. }
      destruct Hd as [->|Hd]; [done|].
      eapply descendant_deeper; [exact Hnd|apply Hl; by left|].
      eapply descendant_keeps; [exact Hsub|exact Hd]. }
  intros a. apply dealloc_Ret in H as [-> Hlive]. simpl.
  destruct (decide (a = node)) as [->|Hne].
  - right. split; [by left|]. apply list_lookup_insert_eq.
    destruct Hlive as [x Hx]. by eapply cell_lt.
  - rewrite list_lookup_insert_ne by done.
    destruct (Hloop _ _ _ _ (λ b ndb Hb, Hb) (λ c Hc, Hc) H1 a)
      as [?|[Hd E]]; [by left|right]. split; [by right|done].
Qed.


(** ** What a clone copies *)

Lemma clone_edges_frame lo hi s s' :
  closed_region lo hi s →
  (∀ b, (lo ≤ b < hi)%nat → nodes s' !! b = nodes s !! b) →
  clone_edges lo hi s → clone_edges lo hi s'.
Proof.
  intros C K E q ndq Hq Hndq.
  rewrite (node_at_lookup s s' q (K q Hq)) in Hndq.
  destruct (E q ndq Hq Hndq) as [Hnd Hpar]. split; [done|].
  intros c Hc. destruct (Hpar c Hc) as (ndc & Hndc & Hp).
  exists ndc. split; [|done].
  pose proof (C q ndq Hq Hndq) as Hall. rewrite Forall_forall in Hall.
  specialize (Hall c Hc).
  rewrite (node_at_lookup s s' c); [done|]. apply K. lia.
Qed.

Lemma clone_edges_app lo mid hi s :
  clone_edges lo mid s → clone_edges mid hi s → clone_edges lo hi s.
Proof.
  intros E1 E2 q ndq Hq. destruct (decide (q < mid)%nat).
  - apply E1. lia.
  - apply E2. lia.
Qed.

Lemma keeps_below_live s s' :
  keeps_below (length (nodes s)) s s' →
  ∀ a nd, node_at s a = Some nd → node_at s' a = Some nd.
Proof.
  intros K a nd Hnd.
  rewrite (keeps_below_node_at _ _ _ _ K); [done|]. by eapply cell_lt.
Qed.

Lemma Forall2_compose {A B C} (P : A → B → Prop) (R : B → C → Prop)
    (Q : A → C → Prop) l k m :
  Forall2 P l k → Forall2 R k m →
  (∀ x y z, y ∈ k → z ∈ m → P x y → R y z → Q x z) → Forall2 Q l m.
Proof.
  intros H. revert m. induction H as [|x y l k Hxy H IH]; intros m HR Himp.
  - apply Forall2_nil_inv_l in HR as ->. constructor.
  - apply Forall2_cons_inv_l in HR as (z & m' & Hyz & HR & ->).
    constructor.
    + eapply Himp; [by left|by left|done..].
    + apply IH; [done|]. intros x' y' z' Hy' Hz'. apply Himp; by right.
Qed.

Lemma map_each_clone_copy (clone : addr → M addr) (owner : addr) :
  (∀ c s a s', clone c s = Ret a s' →
     clone_post (Some owner) s a s' ∧ clone_copy s c s' a) →
  ∀ l s subs s',
    map_each clone l s = Ret subs s' →
    clone_edges (length (nodes s)) (length (nodes s')) s' ∧
    NoDup subs ∧
    Forall2 (λ c y, copies_node s c s' y ∧
                    ∀ h r, derives s h r c → derives s' h r y) l subs.
Proof.
  intros Hclone. induction l as [|c l IH]; intros s subs s' H; simpl in H.
  - apply ret_Ret in H as [-> ->]. split; [intros q ndq Hq; lia|].
    split; constructor.
  - apply bind_Ret in H as (y & s1 & H1 & H).
    apply bind_Ret in H as (ys & s2 & H2 & [-> ->]%ret_Ret).
    pose proof H2 as Htail.
    eapply map_each_clone_effect in Htail as (_ & _ & K2 & F2 & _);
      [|intros; eapply Hclone; eassumption].
    destruct (Hclone _ _ _ _ H1)
      as ((-> & _ & _ & K1 & Hreg) & E1 & Hcopy & Hder).
    destruct (IH _ _ _ H2) as (E2 & Hnd & Hall).
    pose proof (keeps_below_live _ _ K1) as Live1.
    pose proof (keeps_below_live _ _ K2) as Live2.
    split.
    { apply (clone_edges_app _ (length (nodes s1))); [|done].
      eapply clone_edges_frame; [by eapply clone_region_closed| |exact E1].
      intros b Hb. apply K2. lia. }
    split.
    { constructor; [|done]. intros Hin. rewrite Forall_forall in F2.
      specialize (F2 _ Hin). destruct Hreg. lia. }
    constructor.
    + split.
      * intros nd Hnd'. destruct (Hcopy nd Hnd') as (nd' & Hnd'' & ?).
        exists nd'. split; [by apply Live2|done].
      * intros h r Hd. eapply derives_keeps; [exact Live2|]. by apply Hder.
    + eapply Forall2_impl; [exact Hall|]. simpl.
      intros c' y' [Hc' Hd']. split.
      * intros nd Hnd'. apply Hc'. by apply Live1.
      * intros h r Hd. apply Hd'. eapply derives_keeps; [exact Live1|done].
Qed.

Lemma node_clone_fuel_copy fuel :
  ∀ par node s copy s',
    node_clone_fuel fuel par node s = Ret copy s' →
    clone_copy s node s' copy.
Proof.
  induction fuel as [|k IH]; intros par node s copy s' H; simpl in H;
    [discriminate H|].
  apply bind_Ret in H as (nd & sl & [-> Hnd]%load_Ret & H).
  apply bind_Ret in H as (cp & sa & [-> ->]%alloc_Ret & H).
  apply bind_Ret in H as (subs & s2 & H2 & H).
  apply bind_Ret in H as ([] & s3 & H3 & [-> ->]%ret_Ret).
  remember (with_nodes s _) as s1 eqn:Es1.
  assert (length (nodes s1) = S (length (nodes s))) as Ls1
    by (rewrite Es1; simpl; rewrite length_app; simpl; lia).
  assert (node_at s1 (length (nodes s)) =
          Some (Node (id nd) (recursion_edge_size nd) (non_term_size nd)
                     (val_buf nd) (val_len nd) par [])) as Hcp
    by (rewrite Es1; apply cell_app_new).
  assert (∀ a x, node_at s a = Some x → node_at s1 a = Some x) as Live1.
  { intros a x Hx. rewrite Es1. unfold node_at. simpl.
    rewrite cell_app_l; [done|]. by eapply cell_lt. }
  pose proof H2 as Heff.
  eapply map_each_clone_effect in Heff as (_ & _ & K2 & F2 & C2);
    [|intros; eapply node_clone_fuel_effect; eassumption].
  eapply map_each_clone_copy in H2 as (E2 & Hnodup & Hall);
    [|intros c0 s0 a0 s0' H0; split;
      [eapply node_clone_fuel_effect; exact H0|eapply IH; exact H0]].
  pose proof (proj1 K2) as L2.
  rewrite <- (keeps_below_node_at _ _ _ _ K2) in Hcp by lia.
  apply modify_effect in H3 as (_ & _ & L3 & (c0 & Hc0 & Hc3) & K3).
  rewrite Hcp in Hc0. injection Hc0 as <-. simpl in Hc3.
  assert (∀ a, (length (nodes s) < a)%nat → node_at s3 a = node_at s2 a)
    as Above.
  { intros a Ha. apply node_at_lookup. apply K3. lia. }
  assert (∀ a x, (length (nodes s) < a)%nat → node_at s2 a = Some x →
                 Forall (λ c, (length (nodes s) < c)%nat) (subnodes x))
    as Closed.
  { intros a x Ha Hx. destruct (C2 a) as (x' & Hx' & Fx & _).
    { split; [lia|by eapply cell_lt]. }
    rewrite Hx in Hx'. injection Hx' as <-.
    eapply Forall_impl; [exact Fx|]. simpl. intros; lia. }
  split; [|split].
  - rewrite L3. intros q ndq Hq Hndq.
    destruct (decide (q = length (nodes s))) as [->|Hne].
    + rewrite Hc3 in Hndq. injection Hndq as <-. simpl.
      split; [done|]. intros c Hc.
      rewrite Forall_forall in F2. pose proof (F2 c Hc) as Hrange.
      destruct (C2 c Hrange) as (ndc & Hndc & _ & Hpar & _).
      exists ndc. rewrite Above by lia. split; [done|]. by apply Hpar.
    + rewrite Above in Hndq by lia.
      destruct (E2 q ndq) as [Hnd' Hpar]; [lia|done|].
      split; [done|]. intros c Hc.
      destruct (Hpar c Hc) as (ndc & Hndc & Hp). exists ndc.
      split; [|done]. rewrite Above; [done|].
      pose proof (Closed q ndq) as Hcl. rewrite Forall_forall in Hcl.
      apply Hcl; [lia|done..].
  - intros nd' Hnd'. rewrite Hnd in Hnd'. injection Hnd' as <-.
    eexists. split; [exact Hc3|]. simpl. repeat split.
    symmetry. by eapply Forall2_length.
  - intros h r Hd. destruct h as [|h]; [done|].
    destruct Hd as (nd' & Hnd' & Hid & Hd).
    rewrite Hnd in Hnd'. injection Hnd' as <-.
    eexists. split; [exact Hc3|]. simpl. split; [done|].
    destruct Hd as [(str & Hstr & Hval & Hlen & Hsub)
                   |(Hval & syms & Hsyms & Hkids)].
    + left. exists str. repeat split; try done.
      rewrite Hsub in Hall. by apply Forall2_nil_inv_l in Hall.
    + right. split; [done|]. exists syms. split; [done|].
      rewrite Forall_forall in F2.
      eapply Forall2_compose; [exact Hkids|exact Hall|].
      intros sym c y _ Hy Hsym [Hcopy Hder].
      pose proof (F2 y Hy) as Hrange. rewrite Ls1 in Hrange.
      destruct sym as [str n|r'|r']; simpl in *.
      * destruct Hsym as (Hh & k0 & Hk0 & Hkid & Hkval & Hklen & Hksub).
        destruct (Hcopy k0 (Live1 _ _ Hk0))
          as (k' & Hk' & Eid & Eval & Elen & Esub).
        split; [done|]. exists k'. rewrite Above by lia. split; [done|].
        rewrite Hksub in Esub. apply nil_length_inv in Esub.
        repeat split; congruence.
      * apply (derives_transfer (λ a, (length (nodes s) < a)%nat) s2);
          [|lia|].
        { intros a x Ha Hx. split; [by eapply Closed|].
          exists x. rewrite Above by done. done. }
        apply Hder. eapply derives_keeps; [exact Live1|done].
      * apply (derives_transfer (λ a, (length (nodes s) < a)%nat) s2);
          [|lia|].
        { intros a x Ha Hx. split; [by eapply Closed|].
          exists x. rewrite Above by done. done. }
        apply Hder. eapply derives_keeps; [exact Live1|done].
Qed.


(** ** Replacing a subtree of a clone by a derivation *)

(** The child branch of [splice] on a clone laid out in [lo .. hi): the
    replacement, a derivation of the rule of the picked node that lies past
    the clone, takes the picked node's slot, the picked subtree is freed,
    and what was a derivation at the root of the clone still is one. *)
Lemma replace_free_derives lo hi p node repl i ndp nd ndr r hg s4 b s5 u s' :
  closed_region lo hi s4 → clone_edges lo hi s4 →
  (lo ≤ p < node)%nat → (node < hi)%nat → (hi ≤ repl)%nat →
  node_at s4 p = Some ndp → subnodes ndp !! i = Some node →
  node_at s4 node = Some nd → parent nd = Some p → id nd = rule_id r →
  node_at s4 repl = Some ndr →
  derives s4 hg r repl →
  (∀ a x, (hi ≤ a)%nat → node_at s4 a = Some x →
          Forall (λ c, (hi ≤ c)%nat) (subnodes x)) →
  node_replace_subnode p node repl s4 = Ret b s5 →
  node_free node s5 = Ret u s' →
  trees s' = trees s4 ∧
  ∀ h r0, derives s4 h r0 lo → derives s' (h + hg) r0 lo.
Proof.
  intros C4 E4 Hp Hnode Hrepl Hndp Hi Hnd Hpar Hid Hndr Hgen Hclosed Hrep Hfree.
  assert (node ∈ subnodes ndp) as Hin by (by eapply list_elem_of_lookup_2).
  eapply node_replace_child in Hrep as (i' & sm & Hi' & -> & Hm & Hsp);
    [|exact Hndp|exact Hin].
  assert (i' = i) as ->.
  { destruct (E4 p ndp) as [Hnodup _]; [lia|done|].
    eapply NoDup_lookup; eauto. }
  apply modify_effect in Hm as ((Tm & _) & _ & Lm & (x & Hx & Hx') & Km).
  rewrite Hndp in Hx. injection Hx as <-.
  apply modify_effect in Hsp as ((T5 & _) & _ & L5 & (y & Hy & Hy') & K5).
  assert (node_at sm repl = Some ndr) as Hndrm.
  { rewrite (node_at_lookup s4 sm repl); [done|]. apply Km. lia. }
  rewrite Hndrm in Hy. injection Hy as <-.
  assert (∀ a, a ≠ p → a ≠ repl → node_at s5 a = node_at s4 a) as F2.
  { intros a Hap Har. rewrite (node_at_lookup sm s5 a) by (by apply K5).
    apply node_at_lookup. by apply Km. }
  assert (node_at s5 p =
          Some (Node (id ndp) (recursion_edge_size ndp) (non_term_size ndp)
                     (val_buf ndp) (val_len ndp) (parent ndp)
                     (<[i := repl]> (subnodes ndp)))) as F3.
  { rewrite (node_at_lookup sm s5 p); [done|]. apply K5. lia. }
  assert (closed_region node hi s5) as C5.
  { intros a x Ha Hx. rewrite F2 in Hx by lia. apply (C4 a x); [lia|done]. }
  pose proof (node_free_fuel_only _ _ _ _ _ Hfree) as Ffree.
  pose proof (node_free_fuel_effect _ _ _ _ _ hi C5 Hnode Hfree)
    as ((T6 & _) & _).
  set (D := λ a, a = node ∨ descendant s5 node a).
  assert (∀ a, D a → (node ≤ a < hi)%nat) as Drange.
  { intros a [->|Hd]; [lia|].
    pose proof (closed_region_descendant _ _ _ _ C5 Hnode Hd). lia. }
  assert (∀ a, ¬ D a → node_at s' a = node_at s5 a) as F1.
  { intros a Ha. apply node_at_lookup.
    by destruct (Ffree a) as [?|[? _]]. }
  assert (∀ q ndq c, (lo ≤ q < hi)%nat → ¬ D q → node_at s4 q = Some ndq →
                     c ∈ subnodes ndq → c ≠ node → ¬ D c) as Avoid.
  { intros q ndq c Hq HDq Hndq Hc Hne [->|Hd]; [done|].
    apply descendant_last in Hd as (q' & ndq' & Hq' & Hndq' & Hc').
    assert (D q') as HD' by exact Hq'.
    pose proof (Drange q' HD') as Hr'.
    rewrite F2 in Hndq' by lia.
    destruct (E4 q' ndq') as [_ P']; [lia|done|].
    destruct (E4 q ndq Hq Hndq) as [_ P].
    destruct (P c Hc) as (ndc & Hndc & Hpc).
    destruct (P' c Hc') as (ndc' & Hndc' & Hpc').
    rewrite Hndc in Hndc'. injection Hndc' as <-.
    assert (q = q') as -> by congruence. done. }
  assert (∀ q ndq, (lo ≤ q < hi)%nat → node_at s4 q = Some ndq →
                   node ∈ subnodes ndq → q = p) as Owner.
  { intros q ndq Hq Hndq Hc. destruct (E4 q ndq Hq Hndq) as [_ P].
    destruct (P node Hc) as (ndc & Hndc & Hpc).
    rewrite Hnd in Hndc. injection Hndc as <-. congruence. }
  assert (derives s' hg r repl) as Hgen'.
  { apply (derives_transfer (λ a, (hi ≤ a)%nat) s4); [|done..].
    intros a x Ha Hx. split; [by eapply Hclosed|].
    assert (¬ D a) as HDa by (intros HD; apply Drange in HD; lia).
    rewrite F1 by done. destruct (decide (a = repl)) as [->|Hne].
    - rewrite Hndr in Hx. injection Hx as <-. eexists. split; [exact Hy'|].
      done.
    - exists x. rewrite F2 by lia. done. }
  split; [congruence|].
  assert (∀ h r0 a, (lo ≤ a < hi)%nat → ¬ D a →
                    derives s4 h r0 a → derives s' (h + hg) r0 a) as Survive.
  { induction h as [|h IH]; intros r0 a Ha HDa Hd; [done|].
    destruct Hd as (nda & Hnda & Hida & Hd).
    assert (∀ sym c,
      c ∈ subnodes nda → c ≠ node →
      match sym with
      | Lit str _ =>
          (0 < h)%nat ∧
          ∃ k, node_at s4 c = Some k ∧ id k = TERM_NODE ∧
               val_buf k = Some str ∧ val_len k = N.of_nat (length str) ∧
               subnodes k = []
      | Sub r' | SubRec r' => derives s4 h r' c
      end →
      match sym with
      | Lit str _ =>
          (0 < h + hg)%nat ∧
          ∃ k, node_at s' c = Some k ∧ id k = TERM_NODE ∧
               val_buf k = Some str ∧ val_len k = N.of_nat (length str) ∧
               subnodes k = []
      | Sub r' | SubRec r' => derives s' (h + hg) r' c
      end) as Child.
    { intros sym c Hc Hne Hsym.
      pose proof (C4 a nda Ha Hnda) as Hall. rewrite Forall_forall in Hall.
      specialize (Hall c Hc).
      pose proof (Avoid a nda c Ha HDa Hnda Hc Hne) as HDc.
      destruct sym as [str n|r'|r'].
      - destruct Hsym as (Hh & k & Hk & Hkid & Hkval & Hklen & Hksub).
        split; [lia|]. exists k. rewrite F1, F2; [done| |lia|done].
        intros ->. rewrite Hndp in Hk. injection Hk as <-.
        by rewrite Hksub in Hi.
      - apply IH; [lia|done..].
      - apply IH; [lia|done..]. }
    destruct (decide (a = p)) as [->|Hap].
    - rewrite Hndp in Hnda. injection Hnda as <-.
      eexists. split; [rewrite F1 by done; exact F3|]. simpl.
      split; [done|].
      destruct Hd as [(str & _ & _ & _ & Hsub)
                     |(Hval & syms & Hsyms & Hkids)].
      { by rewrite Hsub in Hi. }
      right. split; [done|]. exists syms. split; [done|].
      pose proof Hkids as Hlook.
      rewrite Forall2_same_length_lookup in Hlook.
      destruct Hlook as [Hlen Hlook].
      apply Forall2_same_length_lookup. split; [by rewrite length_insert|].
      intros j sym c Hsym Hc.
      destruct (decide (j = i)) as [->|Hji].
      + rewrite list_lookup_insert_eq in Hc
          by (by eapply lookup_lt_Some).
        injection Hc as <-.
        pose proof (Hlook i sym node Hsym Hi) as Hold.
        destruct sym as [str n|r'|r'].
        * destruct Hold as (_ & k & Hk & Hkid & _).
          rewrite Hnd in Hk. injection Hk as <-.
          rewrite Hid in Hkid. by destruct (rule_id_not_term r).
        * assert (r' = r) as ->.
          { destruct h as [|h']; [done|].
            destruct Hold as (k & Hk & Hkid & _).
            rewrite Hnd in Hk. injection Hk as <-.
            apply rule_id_inj. congruence. }
          eapply derives_mono; [|exact Hgen']. lia.
        * assert (r' = r) as ->.
          { destruct h as [|h']; [done|].
            destruct Hold as (k & Hk & Hkid & _).
            rewrite Hnd in Hk. injection Hk as <-.
            apply rule_id_inj. congruence. }
          eapply derives_mono; [|exact Hgen']. lia.
      + rewrite list_lookup_insert_ne in Hc by done.
        apply Child; [by eapply list_elem_of_lookup_2| |by eapply Hlook].
        intros ->. destruct (E4 p ndp) as [Hnodup _]; [lia|done|].
        apply Hji. eapply NoDup_lookup; eauto.
    - exists nda. split; [by rewrite F1, F2 by (done || lia)|].
      split; [done|].
      destruct Hd as [Hd|(Hval & syms & Hsyms & Hkids)]; [by left|right].
      split; [done|]. exists syms. split; [done|].
      eapply Forall2_elem_impl; [exact Hkids|].
      intros sym c _ Hc Hsym. apply Child; [done| |done].
      intros ->. apply Hap. by eapply Owner. }
  intros h r0. apply Survive; [lia|].
  intros HD. apply Drange in HD. lia.
Qed.


Lemma tree_clone_copy tree s mt s1 rt :
  tree_clone tree s = Ret mt s1 → root_of s tree = Some rt →
  clone_edges (length (nodes s)) (length (nodes s1)) s1 ∧
  ∀ h r, derives s h r rt → derives s1 h r (length (nodes s)).
Proof.
  unfold tree_clone, root_of. intros H Hroot.
  apply bind_Ret in H as (tr & s0 & [-> Htr]%load_tree_Ret & H).
  rewrite Htr in Hroot. simpl in Hroot. rewrite Hroot in H.
  apply bind_Ret in H as (r & s2 & Hr & H).
  apply bind_Ret in Hr as (c & s3 & Hc & [-> ->]%ret_Ret).
  unfold alloc_tree in H. injection H as <- <-.
  pose proof (node_clone_fuel_effect _ _ _ _ _ _ Hc) as (-> & _).
  apply node_clone_fuel_copy in Hc as (E & _ & Hd).
  split; [exact E|]. intros h r Hder.
  eapply derives_keeps; [|apply Hd; exact Hder]. done.
Qed.

(** A run of [random_mutation] on a derivation: the clone is a derivation,
    the replacement is one of the rule of the node picked, and the splice
    puts the one into the other. *)
Lemma random_mutation_derives (tree : tree_ptr) (s : state)
    (t' : tree_ptr) (s' : state) (rt : addr) (h : nat) (r0 : rule) :
  random_mutation tree s = Ret t' s' →
  root_of s tree = Some rt → derives s h r0 rt →
  ∃ rt', root_of s' t' = Some rt' ∧ derives s' (h + 17) r0 rt'.
Proof.
  intros H Hrt Hder.
  apply random_mutation_run in H
    as (s1 & picked & s2 & node & nd & r & repl & s4 & ndr & Hclone & -> & T1
        & K1 & Hroot & Hreg & Hpick & N2 & T2 & -> & Hnode & Hnd & Hid
        & Hdisp & Hgen & -> & Hpost & Hndr & Hidr & Hreg4 & Hnd4 & K4 & Hsrc
        & Hsplice).
  set (lo := length (nodes s)) in *. set (hi := length (nodes s1)) in *.
  destruct (tree_clone_copy _ _ _ _ _ Hclone Hrt) as [E1 D1].
  fold lo hi in E1, D1.
  assert (∀ a, (a < hi)%nat → nodes s4 !! a = nodes s1 !! a) as K14
    by (intros a Ha; by rewrite K4, N2).
  assert (∀ a x, node_at s1 a = Some x → node_at s4 a = Some x) as Live14.
  { intros a x Hx. rewrite (node_at_lookup s1 s4 a); [done|].
    apply K14. by eapply cell_lt. }
  pose proof (clone_region_closed _ _ _ _ Hreg) as C1.
  pose proof (clone_region_closed _ _ _ _ Hreg4) as C4.
  assert (clone_edges lo hi s4) as E4
    by (eapply clone_edges_frame; [exact C1| |exact E1];
        intros b0 Hb0; apply K14; lia).
  assert (derives s4 h r0 lo) as D4
    by (eapply derives_keeps; [exact Live14|by apply D1]).
  pose proof Hgen as Hg.
  apply gen_rule_region in Hg as (_ & Lg & G & Tg).
  set (hg := S (Z.to_nat (max_depth (with_depth_drawn s2) - 0 + 1))) in *.
  assert (derives s4 hg r hi) as Dg
    by (eapply region_derives; [exact G|split; [reflexivity|exact Lg]|done..]).
  assert (hg ≤ 17)%nat as Hhg.
  { unfold hg, with_depth_drawn. cbn [max_depth].
    assert (rand_src s2 (rand_pos s2) mod 15 < 15) as Hlt
      by (by apply N.mod_lt).
    revert Hlt. generalize (rand_src s2 (rand_pos s2) mod 15). intros; lia. }
  assert (∀ a x, (hi ≤ a)%nat → node_at s4 a = Some x →
                 Forall (λ c, (hi ≤ c)%nat) (subnodes x)) as Hclosed.
  { intros a x Ha Hx. destruct (G a) as (x' & Hx' & Fx & _).
    { split; [done|by eapply cell_lt]. }
    rewrite Hx in Hx'. injection Hx' as <-.
    eapply Forall_impl; [exact Fx|]. simpl. intros; lia. }
  assert (root_of s4 (length (trees s)) = Some lo) as Hroot4.
  { destruct Hpost as (_ & (T4 & _) & _).
    unfold root_of, tree_at in *. rewrite T4. simpl. by rewrite T2. }
  destruct Hreg4 as [_ Hcells].
  destruct (Hcells _ Hnode) as (nd' & Hnd' & _ & Proot & Pin).
  rewrite Hnd4 in Hnd'. injection Hnd' as <-.
  unfold splice in Hsplice. destruct (parent nd) as [p|] eqn:Hpar.
  - assert (default lo picked ≠ lo) as Hne
      by (intros Heq; by specialize (Proot Heq)).
    destruct (Pin Hne) as (p' & ndp & [= <-] & Hp & Hndp & Hin).
    apply bind_Ret in Hsplice as (b & s5 & H5 & Hsplice).
    apply bind_Ret in Hsplice as ([] & s6 & H6 & [_ ->]%ret_Ret).
    apply list_elem_of_lookup_1 in Hin as [i Hi].
    edestruct (replace_free_derives lo hi p (default lo picked) hi i)
      as [T6 Hsurv]; [exact C4|exact E4|lia|lia|lia|exact Hndp|exact Hi
                      |exact Hnd4|exact Hpar|exact Hid|exact Hndr|exact Dg
                      |exact Hclosed|exact H5|exact H6|].
    exists lo. split.
    + unfold root_of, tree_at in *. by rewrite T6.
    + eapply derives_mono; [|apply Hsurv; exact D4]. lia.
  - assert (default lo picked = lo) as Hlo.
    { destruct (decide (default lo picked = lo)) as [|Hne]; [done|].
      by destruct (Pin Hne) as (? & ? & ? & _). }
    rewrite Hlo in *.
    apply bind_Ret in Hsplice as ([] & s5 & H5 & Hsplice).
    apply bind_Ret in Hsplice as ([] & s6 & H6 & [_ ->]%ret_Ret).
    eapply node_free_fuel_effect in H5 as F; [|exact C4|lia].
    unfold set_root in H6.
    apply bind_Ret in H6 as (tr & s7 & [-> Htr]%load_tree_Ret & H6).
    apply store_tree_Ret in H6 as [-> _].
    exists hi. split.
    + unfold root_of, tree_at. simpl. rewrite cell_insert_eq; [done|].
      by eapply cell_lt.
    + assert (r = r0) as ->.
      { destruct h as [|h']; [done|].
        destruct D4 as (k & Hk & Hkid & _).
        rewrite Hnd4 in Hk. injection Hk as <-.
        apply rule_id_inj. congruence. }
      eapply derives_mono; [|
        apply (derives_transfer (λ a, (hi ≤ a)%nat) s4); [|done|exact Dg]].
      { lia. }
      intros a x Ha Hx. split; [by eapply Hclosed|]. exists x.
      split; [|done]. unfold node_at. simpl.
      rewrite <- Hx. apply node_at_lookup.
      apply (frees_within_outside _ _ _ _ a F). lia.
Qed.

(** ** Where the replacement goes *)

Lemma with_depth_drawn_bound s :
  (1 ≤ max_depth (with_depth_drawn s) ≤ 15)%Z.
Proof.
  unfold with_depth_drawn. cbn [max_depth].
  assert (rand_src s (rand_pos s) mod 15 < 15) as Hlt by (by apply N.mod_lt).
  revert Hlt. generalize (rand_src s (rand_pos s) mod 15). intros; lia.
Qed.

(** The tail of [random_mutation] draws nothing and writes no cell past the
    clone but the [parent] of the replacement. *)
Lemma splice_above lo hi mt node nd repl ndr s t s' :
  clone_region None lo hi s → (lo ≤ node < hi)%nat →
  node_at s node = Some nd →
  (hi ≤ repl)%nat → node_at s repl = Some ndr →
  splice mt node (parent nd) repl s = Ret t s' →
  rand_pos s' = rand_pos s ∧ rand_src s' = rand_src s ∧
  (∀ a, (hi ≤ a)%nat → a ≠ repl → nodes s' !! a = nodes s !! a) ∧
  ∃ ndr', node_at s' repl = Some ndr' ∧ id ndr' = id ndr ∧
          val_buf ndr' = val_buf ndr ∧ val_len ndr' = val_len ndr ∧
          subnodes ndr' = subnodes ndr.
Proof.
  intros Hreg Hnode Hnd Hrepl Hndr H.
  pose proof H as Heff.
  eapply splice_effect in Heff as (_ & _ & _ & _ & _ & _ & Hplace); [|done..].
  pose proof (clone_region_closed _ _ _ _ Hreg) as Hclosed.
  destruct Hreg as [_ Hreg].
  destruct (Hreg node Hnode) as (nd' & Hnd' & _ & Proot & Pin).
  rewrite Hnd in Hnd'. injection Hnd' as <-.
  unfold splice in H. destruct (parent nd) as [p|] eqn:Hpar.
  - assert (node ≠ lo) as Hne by (intros ->; by specialize (Proot eq_refl)).
    destruct (Pin Hne) as (p' & ndp & [= <-] & Hp & Hndp & Hin).
    apply bind_Ret in H as (b & s1 & H1 & H).
    apply bind_Ret in H as ([] & s2 & H2 & [-> ->]%ret_Ret).
    eapply node_replace_child in H1 as (i & s0 & Hi & -> & Hm & Hsp);
      [|exact Hndp|exact Hin].
    apply modify_effect in Hm as ((_ & _ & S0) & R0 & L0 & _ & K0).
    apply modify_effect in Hsp as ((_ & _ & S1) & R1 & L1 & _ & K1).
    assert (closed_region node hi s1) as Hclosed1.
    { intros a nda Ha Hnda. apply (Hclosed a nda); [lia|].
      unfold node_at, cell in *. rewrite K1, K0 in Hnda by lia. done. }
    eapply node_free_fuel_effect in H2 as F; [|exact Hclosed1|lia].
    pose proof F as ((_ & _ & S2) & R2 & _).
    split; [congruence|]. split; [congruence|]. split.
    { intros a Ha Har. rewrite (frees_within_outside _ _ _ _ a F) by lia.
      rewrite K1, K0 by lia. done. }
    destruct Hplace as (ndp' & i' & _ & _ & _ & _ & Hndr').
    eexists. split; [exact Hndr'|done].
  - apply bind_Ret in H as ([] & s1 & H1 & H).
    apply bind_Ret in H as ([] & s2 & H2 & [-> ->]%ret_Ret).
    assert (node = lo) as ->.
    { destruct (decide (node = lo)) as [|Hne]; [done|].
      by destruct (Pin Hne) as (? & ? & ? & _). }
    eapply node_free_fuel_effect in H1 as F; [|exact Hclosed|lia].
    pose proof F as ((_ & _ & S1) & R1 & _).
    unfold set_root in H2.
    apply bind_Ret in H2 as (tr & s3 & [-> Htr]%load_tree_Ret & H2).
    apply store_tree_Ret in H2 as [-> _]. simpl.
    split; [done|]. split; [done|]. split.
    { intros a Ha Har. by rewrite (frees_within_outside _ _ _ _ a F) by lia. }
    destruct Hplace as (_ & _ & Hndr'). exists ndr. done.
Qed.

(** A derivation that lies past the clone survives the splice. *)
Lemma splice_generated lo hi mt node nd repl ndr s t s' :
  clone_region None lo hi s → (lo ≤ node < hi)%nat →
  node_at s node = Some nd →
  (hi ≤ repl)%nat → node_at s repl = Some ndr →
  (∀ a x, (hi ≤ a)%nat → node_at s a = Some x →
          Forall (λ c, (hi ≤ c)%nat) (subnodes x)) →
  splice mt node (parent nd) repl s = Ret t s' →
  ∀ h r, derives s h r repl → derives s' h r repl.
Proof.
  intros Hreg Hnode Hnd Hrepl Hndr Hclosed H h r.
  eapply splice_above in H as (_ & _ & Kab & ndr' & Hndr' & ?); [|done..].
  apply (derives_transfer (λ a, (hi ≤ a)%nat) s s'); [|done].
  intros a x Ha Hx. split; [by eapply Hclosed|].
  destruct (decide (a = repl)) as [->|Hne].
  - rewrite Hndr in Hx. injection Hx as <-. by exists ndr'.
  - exists x. rewrite (node_at_lookup s s' a) by (by apply Kab). done.
Qed.

Lemma splice_takes_place lo hi mt node nd repl ndr s2 s4 t s' :
  clone_region None lo hi s4 → (lo ≤ node < hi)%nat →
  node_at s4 node = Some nd → node_at s2 node = Some nd →
  (∀ a, (a < hi)%nat → nodes s4 !! a = nodes s2 !! a) →
  root_of s2 mt = Some lo →
  (hi ≤ repl)%nat → node_at s4 repl = Some ndr →
  splice mt node (parent nd) repl s4 = Ret t s' →
  takes_place s2 node s' mt repl.
Proof.
  intros Hreg Hnode Hnd4 Hnd2 K Hroot Hrepl Hndr H.
  eapply splice_effect in H as (_ & _ & _ & _ & _ & _ & Hplace); [|done..].
  exists nd. split; [done|]. destruct (parent nd) as [p|].
  - destruct Hplace as (ndp & i & Hp & Hndp & Hi & Hndp' & Hndr').
    exists ndp, i. eexists. split.
    { rewrite <- (node_at_lookup s2 s4 p); [done|]. apply K. lia. }
    split; [done|]. split; [done|]. split; [exact Hndr'|done].
  - destruct Hplace as (-> & Hroot' & _). done.
Qed.

(** The replacement of a run of [random_mutation]: what the generator of
    the picked node's rule returns under the bound drawn, a derivation of
    that rule that stands where the picked node stood. *)
Lemma random_mutation_replacement tree s t' s' :
  random_mutation tree s = Ret t' s' →
  ∃ s1 picked s2 nd r repl s4,
    tree_clone tree s = Ret t' s1 ∧
    root_of s1 t' = Some (length (nodes s)) ∧
    _pick_node (length (nodes s)) s1 = Ret picked s2 ∧
    rand_src s2 = rand_src s ∧
    node_at s2 (default (length (nodes s)) picked) = Some nd ∧
    id nd = rule_id r ∧
    gen_rule r 0 (with_depth_drawn s2) = Ret repl s4 ∧
    node_at s2 repl = None ∧
    takes_place s2 (default (length (nodes s)) picked) s' t' repl ∧
    derives s' (S (Z.to_nat (max_depth (with_depth_drawn s2) + 1))) r repl ∧
    max_depth s4 = max_depth (with_depth_drawn s2) ∧
    max_depth s' = max_depth (with_depth_drawn s2) ∧
    rand_pos s' = rand_pos s4 ∧ rand_src s' = rand_src s ∧
    length (nodes s') = length (nodes s4) ∧
    (∀ a, (repl < a)%nat → nodes s' !! a = nodes s4 !! a) ∧
    ∃ ndr,
      node_at s4 repl = Some ndr ∧
      node_at s' repl =
        Some (Node (id ndr) (recursion_edge_size ndr) (non_term_size ndr)
                   (val_buf ndr) (val_len ndr) (parent nd) (subnodes ndr)).
Proof.
  intros H.
  apply random_mutation_run in H
    as (s1 & picked & s2 & node & nd & r & repl & s4 & ndr & Hclone & -> & T1
        & K1 & Hroot & Hreg & Hpick & N2 & T2 & -> & Hnode & Hnd & Hid
        & Hdisp & Hgen & -> & Hpost & Hndr & Hidr & Hreg4 & Hnd4 & K4 & Hsrc
        & Hsplice).
  set (lo := length (nodes s)) in *. set (hi := length (nodes s1)) in *.
  pose proof Hgen as Hg.
  apply gen_rule_region in Hg as (_ & Lg & G & Tg).
  assert (derives s4 (S (Z.to_nat (max_depth (with_depth_drawn s2) + 1))) r hi)
    as Dg.
  { replace (max_depth (with_depth_drawn s2) + 1)%Z
      with (max_depth (with_depth_drawn s2) - 0 + 1)%Z by lia.
    eapply region_derives; [exact G|split; [reflexivity|exact Lg]|done..]. }
  assert (∀ a x, (hi ≤ a)%nat → node_at s4 a = Some x →
                 Forall (λ c, (hi ≤ c)%nat) (subnodes x)) as Hclosed.
  { intros a x Ha Hx. destruct (G a) as (x' & Hx' & Fx & _).
    { split; [done|by eapply cell_lt]. }
    rewrite Hx in Hx'. injection Hx' as <-.
    eapply Forall_impl; [exact Fx|]. simpl. intros; lia. }
  destruct Hpost as (_ & (T4 & M4 & S4) & _ & ndr0 & Hndr0 & _ & Hpar0).
  rewrite Hndr in Hndr0. injection Hndr0 as <-.
  pose proof Hsplice as Hab.
  eapply splice_above in Hab as (R5 & S5 & Kab & _); [|done..].
  pose proof Hsplice as Heff.
  eapply splice_effect in Heff as (_ & M5 & L5 & _ & _ & _ & Hplace);
    [|done..].
  exists s1, picked, s2, nd, r, hi, s4.
  split; [done|]. split; [done|]. split; [done|]. split; [done|].
  split; [done|]. split; [done|]. split; [done|]. split.
  { unfold node_at, cell. rewrite N2.
    by rewrite (lookup_ge_None_2 (nodes s1) hi). }
  split.
  { eapply splice_takes_place; [exact Hreg4|exact Hnode|exact Hnd4|exact Hnd
                                | | |reflexivity|exact Hndr|exact Hsplice].
    - intros a Ha. by apply K4.
    - unfold root_of, tree_at in *. by rewrite T2. }
  split.
  { eapply splice_generated; [exact Hreg4|exact Hnode|exact Hnd4|reflexivity
                              |exact Hndr|exact Hclosed|exact Hsplice|exact Dg]. }
  split; [done|]. split; [congruence|]. split; [done|]. split.
  { rewrite S5, S4. simpl. exact Hsrc. }
  split; [done|]. split; [intros a Ha; apply Kab; lia|].
  exists ndr. split; [done|]. destruct (parent nd) as [p|].
  - by destruct Hplace as (ndp & i & _ & _ & _ & _ & Hndr').
  - destruct Hplace as (_ & _ & ->). destruct ndr. simpl in Hpar0.
    by rewrite Hpar0.
Qed.

(** X9.  [random_mutation] keeps a derivation a derivation, with a new
    derivation in the place of the picked node.  When the tree given is a
    derivation of a rule -- as the trees of [gen_init__] and of the
    generators are -- and the call returns, the tree returned is a
    derivation of the same rule, of a height that has grown by at most 17.
    Where the node picked in the clone stood -- at the root of the tree, or
    in its slot of its parent -- now stands a node that did not exist when
    the generator was called, the root of a derivation of the rule of the
    picked node of height at most 17, the height of a derivation generated
    with [max_depth] at most 15. *)
Theorem random_mutation_preserves_derivation (tree : tree_ptr) (s : state)
    (t' : tree_ptr) (s' : state) (rt : addr) (h : nat) (r0 : rule) :
  random_mutation tree s = Ret t' s' →
  root_of s tree = Some rt → derives s h r0 rt →
  ∃ rt' s1 crt picked s2 nd r repl,
    root_of s' t' = Some rt' ∧ derives s' (h + 17) r0 rt' ∧
    tree_clone tree s = Ret t' s1 ∧ root_of s1 t' = Some crt ∧
    _pick_node crt s1 = Ret picked s2 ∧
    node_at s2 (default crt picked) = Some nd ∧ id nd = rule_id r ∧
    node_at s2 repl = None ∧
    takes_place s2 (default crt picked) s' t' repl ∧
    derives s' 17 r repl.
Proof.
  intros H Hrt Hder.
  destruct (random_mutation_derives _ _ _ _ _ _ _ H Hrt Hder)
    as (rt' & Hrt' & Hd').
  apply random_mutation_replacement in H
    as (s1 & picked & s2 & nd & r & repl & s4 & Hclone & Hroot & Hpick & _
        & Hnd & Hid & _ & Hnew & Hplace & Hd & _).
  exists rt', s1, (length (nodes s)), picked, s2, nd, r, repl.
  split; [done|]. split; [done|]. split; [done|]. split; [done|].
  split; [done|]. split; [done|]. split; [done|]. split; [done|].
  split; [done|].
  eapply derives_mono; [|exact Hd].
  pose proof (with_depth_drawn_bound s2). lia.
Qed.


(** ** One draw per generated non-terminal *)

Lemma types_of_modify f a s u s' :
  (∀ nd, id (f nd) = id nd) →
  modify f a s = Ret u s' →
  types_of (nodes s') = types_of (nodes s) ∧ rand_pos s' = rand_pos s.
Proof.
  intros Hf (nd & Hnd & ->)%modify_Ret. split; [|done]. simpl.
  unfold types_of. rewrite list_fmap_insert. apply list_insert_id.
  rewrite list_lookup_fmap. apply cell_lookup in Hnd. rewrite Hnd. simpl.
  by rewrite Hf.
Qed.

Lemma count_app {A} (p : A → bool) l k :
  count p (l ++ k) = (count p l + count p k)%nat.
Proof. unfold count. by rewrite List.filter_app, length_app. Qed.

Lemma count_cons {A} (p : A → bool) x l :
  count p (x :: l) = if p x then S (count p l) else count p l.
Proof. unfold count. simpl. by destruct (p x). Qed.

Lemma gen_symbols_draws (gen : rule → M addr) node :
  (∀ r s a s', gen r s = Ret a s' →
     ∃ ext, types_of (nodes s') = types_of (nodes s) ++ ext ∧
            rand_pos s' = (rand_pos s + count is_rule_cell ext)%nat) →
  ∀ syms s u s',
    gen_symbols gen node syms s = Ret u s' →
    ∃ ext, types_of (nodes s') = types_of (nodes s) ++ ext ∧
           rand_pos s' = (rand_pos s + count is_rule_cell ext)%nat.
Proof.
  intros Hgen. induction syms as [|sym rest IH]; intros s u s' H.
  { simpl in H. apply ret_Ret in H as [-> ->]. exists [].
    rewrite app_nil_r. split; [done|]. unfold count. simpl. lia. }
  destruct sym as [str n|r|r]; simpl in H.
  - apply bind_Ret in H as (sub & s1 & H1 & H).
    apply bind_Ret in H as ([] & s3 & H3 & H).
    unfold node_create_with_val in H1.
    apply bind_Ret in H1 as (nw & s0 & H0 & H1).
    apply bind_Ret in H1 as ([] & s0' & H1 & [-> ->]%ret_Ret).
    apply node_create_effect in H0 as (_ & _ & R0 & N0).
    apply types_of_modify in H1 as [T1 R1]; [|done].
    apply types_of_modify in H3 as [T3 R3]; [|done].
    apply IH in H as (ext & Hext & Hpos).
    exists (Some TERM_NODE :: ext). split.
    + rewrite Hext, T3, T1, N0. unfold types_of. rewrite fmap_app. simpl.
      by rewrite <- app_assoc.
    + rewrite Hpos, R3, R1, R0. unfold count. simpl. lia.
  - apply bind_Ret in H as (sub & s1 & H1 & H).
    apply bind_Ret in H as ([] & s2 & H2 & H).
    apply bind_Ret in H as ([] & s3 & H3 & H).
    apply Hgen in H1 as (ext1 & Hext1 & Hpos1).
    apply types_of_modify in H2 as [T2 R2]; [|done].
    apply types_of_modify in H3 as [T3 R3]; [|done].
    apply IH in H as (ext & Hext & Hpos).
    exists (ext1 ++ ext). split.
    + rewrite Hext, T3, T2, Hext1. by rewrite <- app_assoc.
    + rewrite Hpos, R3, R2, Hpos1, count_app. lia.
  - apply bind_Ret in H as (sub & s1 & H1 & H).
    apply bind_Ret in H as ([] & s2 & H2 & H).
    apply bind_Ret in H as ([] & s3 & H3 & H).
    apply bind_Ret in H as ([] & s4 & H4 & H).
    apply Hgen in H1 as (ext1 & Hext1 & Hpos1).
    apply types_of_modify in H2 as [T2 R2]; [|done].
    apply types_of_modify in H3 as [T3 R3]; [|done].
    apply types_of_modify in H4 as [T4 R4]; [|done].
    apply IH in H as (ext & Hext & Hpos).
    exists (ext1 ++ ext). split.
    + rewrite Hext, T4, T3, T2, Hext1. by rewrite <- app_assoc.
    + rewrite Hpos, R4, R3, R2, Hpos1, count_app. lia.
Qed.

Lemma gen_fuel_draws fuel :
  ∀ r depth s a s',
    gen_fuel fuel r depth s = Ret a s' →
    ∃ ext, types_of (nodes s') = types_of (nodes s) ++ ext ∧
           rand_pos s' = (rand_pos s + count is_rule_cell ext)%nat.
Proof.
  induction fuel as [|k IH]; intros r depth s a s' H.
  all: rewrite gen_fuel_unfold in H; cbv zeta in H.
  all: remember (with_nodes s _) as s1 eqn:Es1.
  all: assert (types_of (nodes s1) =
               types_of (nodes s) ++ [Some (rule_id r)]) as T1
         by (rewrite Es1; simpl; unfold types_of; by rewrite fmap_app).
  all: assert (rand_pos s1 = rand_pos s) as R1 by (by rewrite Es1).
  all: assert (is_rule_cell (Some (rule_id r)) = true) as Hrule
         by (simpl; pose proof (rule_id_not_term r);
             by destruct (N.eqb_spec (rule_id r) TERM_NODE)).
  all: destruct (depth >? max_depth s)%Z.
  2: discriminate H.
  3: {
    apply bind_Ret in H as ([] & s2 & H2 & [-> ->]%ret_Ret).
    unfold gen_switch in H2.
    apply bind_Ret in H2 as (val & s3 & H3 & H2).
    apply map_rand_Ret in H3 as (_ & _ & ->).
    destruct (cases (body_of r) !! N.to_nat val) as [syms|].
    - eapply gen_symbols_draws in H2 as (ext & Hext & Hpos);
        [|intros r' s0 a0 s0' [_ H0]%deeper_Ret; exact (IH _ _ _ _ _ H0)].
      simpl in Hext, Hpos. exists (Some (rule_id r) :: ext). split.
      + rewrite Hext, T1. by rewrite <- app_assoc.
      + rewrite Hpos, R1, count_cons, Hrule. lia.
    - apply ret_Ret in H2 as [_ ->]. simpl. exists [Some (rule_id r)].
      split; [done|]. rewrite R1, count_cons, Hrule. unfold count. simpl.
      lia. }
  all: apply bind_Ret in H as ([] & s2 & H2 & [-> ->]%ret_Ret).
  all: unfold gen_pool in H2.
  all: apply bind_Ret in H2 as (val & s3 & H3 & H2).
  all: apply map_rand_Ret in H3 as (_ & _ & ->).
  all: destruct (pool (body_of r) !! N.to_nat val) as [str|];
         [|discriminate H2].
  all: destruct (pool_l (body_of r) !! N.to_nat val) as [str_l|];
         [|discriminate H2].
  all: apply types_of_modify in H2 as [T2 R2]; [|done].
  all: simpl in T2, R2; exists [Some (rule_id r)]; split;
         [by rewrite T2, T1|].
  all: rewrite R2, R1, count_cons, Hrule; unfold count; simpl; lia.
Qed.

(** X10.  A generator draws [random()] once per non-terminal it creates.
    When a call returns, the position in the stream of [random()] has
    advanced by the number of nodes the call has created that are not
    literal leaves: every invocation of a generator function calls
    [map_rand] exactly once, for the pool past the depth bound and for the
    [switch] otherwise, and a literal costs no draw. *)
Theorem generator_draws_once_per_rule_node (r : rule) (depth : Z)
    (s : state) (a : addr) (s' : state) :
  gen_rule r depth s = Ret a s' →
  rand_pos s' =
    (rand_pos s + rule_cells (drop (length (nodes s)) (nodes s')))%nat.
Proof.
  intros H. apply gen_fuel_draws in H as (ext & Hext & ->).
  f_equal. unfold rule_cells. f_equal.
  assert (types_of (drop (length (nodes s)) (nodes s')) =
          drop (length (types_of (nodes s))) (types_of (nodes s'))) as ->.
  { unfold types_of. by rewrite fmap_drop, length_fmap. }
  by rewrite Hext, drop_app_length.
Qed.


(** X11.  [random_mutation] is undefined when the pick lands on a node that
    has no generator.  If the node [_pick_node] returns in the clone (the
    root when it returns [NULL]) is a literal leaf, whose type [TERM_NODE]
    indexes the [NULL] entry of [gen_funcs], or has a type past the 31
    entries of the table, then the call [gen_func(0)] goes through a null
    or out-of-bounds function pointer, whatever the draws that follow. *)
Theorem random_mutation_faults_on_terminal_pick (tree : tree_ptr)
    (s : state) (mt : tree_ptr) (s1 : state) (rt : addr)
    (picked : option addr) (s2 : state) (nd : node_t) :
  tree_clone tree s = Ret mt s1 → root_of s1 mt = Some rt →
  _pick_node rt s1 = Ret picked s2 →
  node_at s2 (default rt picked) = Some nd →
  id nd = TERM_NODE ∨ 31 ≤ id nd →
  random_mutation tree s = Fault.
Proof.
  intros Hclone Hroot Hpick Hnd Hid. unfold random_mutation.
  erewrite bind_run by exact Hclone.
  unfold root_of in Hroot.
  destruct (tree_at s1 mt) as [tr|] eqn:Htr; [|done]. simpl in Hroot.
  erewrite bind_run by (unfold load_tree; by rewrite Htr).
  rewrite Hroot. erewrite bind_run by exact Hpick.
  assert (match picked with Some n => n | None => rt end = default rt picked)
    as -> by (by destruct picked).
  erewrite bind_run by (unfold load; by rewrite Hnd).
  erewrite bind_run by reflexivity.
  erewrite bind_run by reflexivity.
  unfold bind, dispatch.
  destruct Hid as [->|Hid]; [done|].
  rewrite (lookup_ge_None_2 gen_funcs (N.to_nat (id nd))); [done|].
  simpl. lia.
Qed.


(** ** [node_free] returns on a clone *)

Lemma descendant_trans s a b c :
  descendant s a b → descendant s b c → descendant s a c.
Proof.
  induction 1 as [a nd b Hnd Hin|a nd x b Hnd Hin H IH]; intros Hbc.
  - by eapply descendant_deeper.
  - eapply descendant_deeper; [done..|]. by apply IH.
Qed.

(** The subtrees under two different children of a node of a clone share no
    node. *)
Lemma subtrees_disjoint hi s node nd c c' :
  closed_region node hi s → (node < hi)%nat → subtree_ok s node →
  node_at s node = Some nd → c ∈ subnodes nd → c' ∈ subnodes nd → c ≠ c' →
  ∀ x, (x = c ∨ descendant s c x) → (x = c' ∨ descendant s c' x) → False.
Proof.
  intros C Hlt Hok Hnd Hc Hc' Hne.
  pose proof (C node nd (conj (Nat.le_refl _) Hlt) Hnd) as Hall.
  rewrite Forall_forall in Hall.
  assert (∀ k, k ∈ subnodes nd → closed_region k hi s ∧ (k < hi)%nat)
    as Hsub.
  { intros k Hk. specialize (Hall k Hk). split; [|lia].
    eapply closed_region_sub; [|exact C]. lia. }
  assert (∀ k x, k ∈ subnodes nd → descendant s k x → descendant s node x)
    as Hup.
  { intros k x Hk Hd. by eapply descendant_deeper. }
  assert (∀ k, k ∈ subnodes nd →
               ∃ ndk, node_at s k = Some ndk ∧ parent ndk = Some node)
    as Hpar.
  { destruct (Hok node (or_introl eq_refl)) as (nd' & Hnd' & _ & P).
    rewrite Hnd in Hnd'. injection Hnd' as <-. exact P. }
  assert (∀ k x, k ∈ subnodes nd → descendant s k x →
                 ∃ q ndq ndx, (q = k ∨ descendant s k q) ∧
                              node_at s q = Some ndq ∧ x ∈ subnodes ndq ∧
                              node_at s x = Some ndx ∧ parent ndx = Some q ∧
                              (k ≤ q < x)%nat) as Hlast.
  { intros k x Hk Hd. pose proof Hd as Hd'.
    apply descendant_last in Hd' as (q & ndq & Hq & Hndq & Hx).
    assert (q = node ∨ descendant s node q) as Hq'.
    { right. destruct Hq as [->|Hq]; [by eapply descendant_child|eauto]. }
    destruct (Hok q Hq') as (ndq' & Hndq' & _ & P).
    rewrite Hndq in Hndq'. injection Hndq' as <-.
    destruct (P x Hx) as (ndx & Hndx & Hpx).
    exists q, ndq, ndx. repeat split; try done.
    - destruct Hq as [->|Hq]; [lia|].
      destruct (Hsub k Hk) as [Ck Hk'].
      pose proof (closed_region_descendant _ _ _ _ Ck Hk' Hq). lia.
    - assert (closed_region q hi s ∧ (q < hi)%nat) as [Cq Hq''].
      { destruct (Hsub k Hk) as [Ck Hk']. destruct Hq as [->|Hq]; [done|].
        pose proof (closed_region_descendant _ _ _ _ Ck Hk' Hq).
        split; [|lia]. eapply closed_region_sub; [|exact Ck]. lia. }
      pose proof (Cq q ndq (conj (Nat.le_refl _) Hq'') Hndq) as Hq3.
      rewrite Forall_forall in Hq3. specialize (Hq3 x Hx). lia. }
  intros x. induction x as [x IHx] using lt_wf_ind. intros Hx Hx'.
  destruct Hx as [->|Hx], Hx' as [->|Hx'].
  - done.
  - destruct (Hlast c' c Hc' Hx') as (q & ndq & ndx & Hq & _ & _ & Hndx & Hp & Hr).
    destruct (Hpar c Hc) as (ndk & Hndk & Hpk).
    rewrite Hndx in Hndk. injection Hndk as <-.
    assert (q = node) as -> by congruence.
    specialize (Hall c' Hc'). lia.
  - destruct (Hlast c c' Hc Hx) as (q & ndq & ndx & Hq & _ & _ & Hndx & Hp & Hr).
    destruct (Hpar c' Hc') as (ndk & Hndk & Hpk).
    rewrite Hndx in Hndk. injection Hndk as <-.
    assert (q = node) as -> by congruence.
    specialize (Hall c Hc). lia.
  - destruct (Hlast c x Hc Hx) as (q & ndq & ndx & Hq & _ & _ & Hndx & Hp & Hr).
    destruct (Hlast c' x Hc' Hx')
      as (q' & ndq' & ndx' & Hq' & _ & _ & Hndx' & Hp' & Hr').
    rewrite Hndx in Hndx'. injection Hndx' as <-.
    assert (q' = q) as -> by congruence.
    apply (IHx q); [lia|done..].
Qed.

Lemma descendant_same s s' a x :
  (∀ y, y = a ∨ descendant s a y → node_at s' y = node_at s y) →
  descendant s a x → descendant s' a x.
Proof.
  intros K H. revert K.
  induction H as [a nd x Hnd Hin|a nd c x Hnd Hin H IH]; intros K.
  - eapply descendant_child; [|done]. rewrite K; [done|by left].
  - eapply descendant_deeper; [|done|].
    + rewrite K; [done|by left].
    + apply IH. intros y Hy. apply K. right.
      destruct Hy as [->|Hy]; [by eapply descendant_child|].
      by eapply descendant_deeper.
Qed.

(** On a subtree laid out as a clone, [node_free] returns and has freed the
    node and every descendant of it. *)
Lemma node_free_fuel_returns hi fuel :
  ∀ node s,
    (hi - node ≤ fuel)%nat → (node < hi)%nat →
    closed_region node hi s → subtree_ok s node →
    ∃ s', node_free_fuel fuel node s = Ret tt s' ∧
          ∀ x, x = node ∨ descendant s node x → nodes s' !! x = Some None.
Proof.
  induction fuel as [|k IH]; intros node s Hfuel Hlt C Hok; [lia|].
  destruct (Hok node (or_introl eq_refl)) as (nd & Hnd & Hnodup & Hpar).
  pose proof (C node nd (conj (Nat.le_refl _) Hlt) Hnd) as Hall.
  rewrite Forall_forall in Hall.
  simpl. erewrite bind_run by (unfold load; by rewrite Hnd).
  assert (∀ l s0 (F : addr → Prop),
    (∀ c, c ∈ l → c ∈ subnodes nd) → NoDup l →
    (∀ a, nodes s0 !! a = nodes s !! a ∨ (F a ∧ nodes s0 !! a = Some None)) →
    (∀ c x, c ∈ l → (x = c ∨ descendant s c x) → ¬ F x) →
    (∀ x, F x → (node < x)%nat) →
    ∃ s1, for_each (node_free_fuel k) l s0 = Ret tt s1 ∧
          nodes s1 !! node = nodes s !! node ∧
          (∀ x, nodes s0 !! x = Some None → nodes s1 !! x = Some None) ∧
          (∀ c x, c ∈ l → (x = c ∨ descendant s c x) →
                  nodes s1 !! x = Some None)) as Hloop.
  { induction l as [|c l IHl]; intros s0 F Hl Hnd' Inv Hdisj HF.
    - exists s0. split; [done|]. split.
      { destruct (Inv node) as [?|[HFn _]]; [done|]. apply HF in HFn. lia. }
      split; [done|]. intros c x Hc. by apply elem_of_nil in Hc.
    - apply NoDup_cons in Hnd' as [Hcl Hnd'].
      assert (c ∈ subnodes nd) as Hc by (apply Hl; by left).
      pose proof (Hall c Hc) as Hrange.
      assert (closed_region c hi s) as Cc
        by (eapply closed_region_sub; [|exact C]; lia).
      assert (∀ x, (x = c ∨ descendant s c x) →
                   nodes s0 !! x = nodes s !! x) as Same.
      { intros x Hx. destruct (Inv x) as [?|[HFx _]]; [done|].
        by destruct (Hdisj c x (list_elem_of_here _ _) Hx). }
      assert (∀ b ndb, node_at s0 b = Some ndb → node_at s b = Some ndb)
        as Sub0.
      { intros b ndb Hb. unfold node_at, cell in *.
        destruct (Inv b) as [<-|[_ E]]; [done|]. by rewrite E in Hb. }
      assert (∀ x, descendant s0 c x → descendant s c x) as Down
        by (intros x; by apply descendant_keeps).
      assert (∀ x, descendant s c x → descendant s0 c x) as Up.
      { intros x. apply descendant_same. intros y Hy.
        apply node_at_lookup. by apply Same. }
      destruct (IH c s0) as (s1 & H1 & All1); [lia|lia| |
        |].
      { intros a x Ha Hx. apply (Cc a x Ha). by apply Sub0. }
      { intros q Hq.
        assert (q = c ∨ descendant s c q) as Hq'
          by (destruct Hq as [->|Hq]; [by left|right; by apply Down]).
        destruct (Hok q) as (ndq & Hndq & Hnq & Pq).
        { right. destruct Hq' as [->|Hq']; [by eapply descendant_child|].
          by eapply descendant_deeper. }
        exists ndq. rewrite (node_at_lookup s s0 q (Same q Hq')).
        split; [done|]. split; [done|]. intros c0 Hc0.
        destruct (Pq c0 Hc0) as (ndc & Hndc & Hpc). exists ndc.
        split; [|done]. rewrite (node_at_lookup s s0 c0); [done|].
        apply Same. right. destruct Hq' as [->|Hq'].
        - by eapply descendant_child.
        - by eapply descendant_snoc. }
      pose proof (node_free_fuel_only _ _ _ _ _ H1) as Only.
      simpl. erewrite bind_run by exact H1.
      destruct (IHl s1 (λ x, F x ∨ (x = c ∨ descendant s c x)))
        as (s2 & H2 & E2 & Keep2 & All2).
      + intros c' Hc'. apply Hl. by right.
      + done.
      + intros a. destruct (Only a) as [E|[Hd E]].
        * rewrite E. destruct (Inv a) as [?|[HFa E']]; [by left|right].
          split; [by left|done].
        * right. split; [|done]. right.
          destruct Hd as [->|Hd]; [by left|right; by apply Down].
      + intros c' x Hc' Hx [HFx|Hx'].
        * by apply (Hdisj c' x (list_elem_of_further _ _ _ Hc') Hx).
        * eapply (subtrees_disjoint hi s node nd c' c); try done.
          -- apply Hl. by right.
          -- intros ->. done.
      + intros x [HFx|[->|Hd]]; [by apply HF|lia|].
        assert (c < hi)%nat as Hchi by lia.
        pose proof (closed_region_descendant _ _ _ _ Cc Hchi Hd). lia.
      + exists s2. split; [done|]. split; [done|]. split.
        * intros x Hx. apply Keep2.
          destruct (Only x) as [->|[_ ?]]; done.
        * intros c' x [->|Hc']%elem_of_cons Hx; [|by eapply All2].
          apply Keep2, All1.
          destruct Hx as [->|Hx]; [by left|right; by apply Up]. }
  destruct (Hloop (subnodes nd) s (λ _, False)) as (s1 & H1 & E1 & _ & All);
    [done|done|by left|by intros ? ? ? ? ?|done|].
  erewrite bind_run by exact H1.
  unfold dealloc, node_at, cell. rewrite E1.
  apply cell_lookup in Hnd. rewrite Hnd.
  eexists. split; [reflexivity|]. simpl. intros x [->|Hx].
  - apply list_lookup_insert_eq. rewrite <- E1 in Hnd.
    by eapply lookup_lt_Some.
  - pose proof (closed_region_descendant _ _ _ _ C Hlt Hx) as Hr.
    rewrite list_lookup_insert_ne by lia.
    inversion Hx as [a0 nd0 x0 Hnd0 Hin|a0 nd0 c0 x0 Hnd0 Hin Hd]; subst.
    + apply cell_lookup in Hnd0. rewrite Hnd in Hnd0.
      injection Hnd0 as <-. eapply All; [exact Hin|by left].
    + apply cell_lookup in Hnd0. rewrite Hnd in Hnd0.
      injection Hnd0 as <-. eapply All; [exact Hin|by right].
Qed.


(** ** [random_mutation] returns *)

Lemma rule_of_id n : 1 ≤ n ≤ 30 → ∃ r, n = rule_id r.
Proof.
  intros Hn.
  destruct (gen_funcs !! N.to_nat n) as [[g|]|] eqn:E.
  - apply gen_funcs_lookup in E as (r & Hr & _). exists r.
    by apply N2Nat.inj.
  - assert (N.to_nat n = 0%nat ∨ (1 ≤ N.to_nat n ≤ 30)%nat) as [H0|H1]
      by lia; [lia|].
    exfalso. revert E H1. generalize (N.to_nat n). intros m.
    do 31 (destruct m as [|m]; [simpl; intros; (discriminate || lia)|]).
    intros _ ?. lia.
  - apply lookup_ge_None in E. simpl in E. lia.
Qed.

Lemma clone_subtree_ok lo hi s s' node :
  clone_region None lo hi s → clone_edges lo hi s →
  (lo ≤ node < hi)%nat →
  (∀ b, (node ≤ b < hi)%nat → nodes s' !! b = nodes s !! b) →
  closed_region node hi s' ∧ subtree_ok s' node.
Proof.
  intros Hreg E Hnode K.
  pose proof (clone_region_closed _ _ _ _ Hreg) as C.
  assert (closed_region node hi s') as C'.
  { intros a x Ha Hx. rewrite (node_at_lookup s s' a (K a Ha)) in Hx.
    apply (C a x); [lia|done]. }
  split; [done|]. intros q Hq.
  assert (node ≤ q < hi)%nat as Hr.
  { destruct Hq as [->|Hq]; [lia|].
    pose proof (closed_region_descendant _ _ _ _ C' (proj2 Hnode) Hq). lia. }
  destruct Hreg as [_ Hcells].
  destruct (Hcells q) as (ndq & Hndq & Fq & _); [lia|].
  destruct (E q ndq) as [Hnodup P]; [lia|done|].
  exists ndq. rewrite (node_at_lookup s s' q (K q Hr)).
  split; [done|]. split; [done|]. intros c Hc.
  destruct (P c Hc) as (ndc & Hndc & Hpc). exists ndc. split; [|done].
  rewrite Forall_forall in Fq. specialize (Fq c Hc).
  rewrite (node_at_lookup s s' c); [done|]. apply K. lia.
Qed.

Lemma splice_returns lo hi mt node nd repl ndr s :
  clone_region None lo hi s → clone_edges lo hi s →
  (lo ≤ node < hi)%nat → node_at s node = Some nd →
  (hi ≤ repl)%nat → node_at s repl = Some ndr →
  is_Some (tree_at s mt) →
  ∃ s', splice mt node (parent nd) repl s = Ret mt s'.
Proof.
  intros Hreg E Hnode Hnd Hrepl Hndr [tr Htr].
  pose proof (cell_lt _ _ _ Hndr) as Hlen.
  destruct Hreg as [Hlo Hcells].
  destruct (Hcells node Hnode) as (nd' & Hnd' & _ & Proot & Pin).
  rewrite Hnd in Hnd'. injection Hnd' as <-.
  unfold splice. destruct (parent nd) as [p|] eqn:Hpar.
  - assert (node ≠ lo) as Hne by (intros ->; by specialize (Proot eq_refl)).
    destruct (Pin Hne) as (p' & ndp & [= <-] & Hp & Hndp & Hin).
    assert (∃ s5, node_replace_subnode p node repl s = Ret true s5 ∧
                  ∀ b, b ≠ p → b ≠ repl → nodes s5 !! b = nodes s !! b)
      as (s5 & H5 & K5).
    { unfold node_replace_subnode, heap_fuel.
      destruct (length (nodes s)) as [|k]; [lia|]. simpl.
      erewrite bind_run by (unfold load; by rewrite Hndp).
      destruct (list_find_elem_of (λ c, c = node) (subnodes ndp) node Hin
                                  eq_refl) as [[i x] Hfind].
      rewrite Hfind.
      erewrite bind_run by (by apply modify_live).
      assert (node_at (with_nodes s (<[p := Some
                (Node (id ndp) (recursion_edge_size ndp) (non_term_size ndp)
                      (val_buf ndp) (val_len ndp) (parent ndp)
                      (<[i := repl]> (subnodes ndp)))]> (nodes s))) repl =
              Some ndr) as Hndr'.
      { unfold node_at. simpl. rewrite cell_insert_ne by lia. exact Hndr. }
      unfold set_parent. erewrite bind_run by (by apply modify_live).
      eexists. split; [reflexivity|]. intros b Hb Hb'. simpl.
      by rewrite !list_lookup_insert_ne by done. }
    erewrite bind_run by exact H5.
    destruct (clone_subtree_ok lo hi s s5 node) as [C5 Hok];
      [by split|done|done| |].
    { intros b Hb. apply K5; lia. }
    destruct (node_free_fuel_returns hi (heap_fuel s5) node s5)
      as (s6 & H6 & _);
      [|lia|done|done|].
    { unfold heap_fuel.
      assert (node_at s5 node = Some nd) as Hnd5.
      { rewrite (node_at_lookup s s5 node); [done|]. apply K5; lia. }
      apply cell_lt in Hnd5.
      destruct (Hok node (or_introl eq_refl)) as (x & Hx & _).
      assert (hi ≤ length (nodes s5))%nat; [|lia].
      destruct (decide (hi ≤ length (nodes s5))%nat) as [|Hn]; [done|].
      exfalso. destruct (Hcells (length (nodes s5))) as (y & Hy & _); [lia|].
      assert (node_at s5 (length (nodes s5)) = Some y) as Hy5.
      { rewrite (node_at_lookup s s5); [done|]. apply K5; lia. }
      apply cell_lt in Hy5. lia. }
    unfold node_free at 1. erewrite bind_run by exact H6. by eexists.
  - destruct (clone_subtree_ok lo hi s s node) as [C Hok];
      [by split|done|done|done|].
    destruct (node_free_fuel_returns hi (heap_fuel s) node s)
      as (s5 & H5 & _);
      [|lia|done|done|].
    { unfold heap_fuel. lia. }
    unfold node_free at 1. erewrite bind_run by exact H5.
    eapply node_free_fuel_effect in H5 as ((T5 & _) & _); [|exact C|lia].
    unfold set_root.
    assert (tree_at s5 mt = Some tr) as Htr5
      by (unfold tree_at in *; by rewrite T5).
    erewrite bind_run;
      [|erewrite bind_run by (unfold load_tree; by rewrite Htr5);
        unfold store_tree; by rewrite Htr5].
    by eexists.
Qed.

(** A run whose pick lands on a node that has the type of a rule
    returns. *)
Lemma random_mutation_returns (tree : tree_ptr) (s : state)
    (mt : tree_ptr) (s1 : state) (rt : addr) (picked : option addr)
    (s2 : state) (nd : node_t) :
  tree_clone tree s = Ret mt s1 → root_of s1 mt = Some rt →
  _pick_node rt s1 = Ret picked s2 →
  node_at s2 (default rt picked) = Some nd →
  1 ≤ id nd ≤ 30 →
  ∃ s', random_mutation tree s = Ret mt s'.
Proof.
  intros Hclone Hroot Hpick Hnd Hid.
  pose proof Hclone as Hc.
  apply tree_clone_effect in Hc
    as (tr & r0 & Htr & -> & T1 & M1 & S1 & R1 & K1 & Hr0).
  assert (tree_at s1 (length (trees s)) =
          Some (Tree r0 (depth tr) (data_buf tr) (data_len tr))) as Hmt
    by (unfold tree_at; rewrite T1; apply cell_app_new).
  unfold root_of in Hroot. rewrite Hmt in Hroot. simpl in Hroot. subst r0.
  destruct (root tr) as [n|] eqn:Hn; [|done].
  destruct Hr0 as [[= ->] Hreg].
  set (lo := length (nodes s)) in *. set (hi := length (nodes s1)) in *.
  destruct (tree_clone_copy tree s _ s1 n Hclone) as [E1 _].
  { unfold root_of. by rewrite Htr. }
  fold lo hi in E1.
  pose proof Hpick as Hp.
  apply pick_node_fuel_effect in Hp as (N2 & (T2 & M2 & S2) & Pin).
  assert (lo ≤ default lo picked < hi)%nat as Hnode.
  { destruct picked as [x|]; simpl.
    - eapply Pin; [by eapply clone_region_closed|apply Hreg|done].
    - destruct Hreg. lia. }
  destruct (rule_of_id _ Hid) as [r Hr].
  destruct (gen_rule_returns r 0 (with_depth_drawn s2)) as (repl & s4 & Hgen).
  { pose proof (with_depth_drawn_bound s2). unfold INT_MAX. lia. }
  pose proof Hgen as Hg.
  apply gen_rule_effect in Hg as (Hrepl & (T4 & _) & K4 & ndr & Hndr & _).
  simpl in Hrepl, T4. rewrite N2 in Hrepl. fold hi in Hrepl.
  assert (∀ a, (a < hi)%nat → nodes s4 !! a = nodes s1 !! a) as K14.
  { intros a Ha. rewrite (proj2 K4) by lia. simpl. by rewrite N2. }
  destruct (splice_returns lo hi (length (trees s)) (default lo picked) nd
                           repl ndr s4) as [s' Hs'].
  - eapply clone_region_keeps; [exact K14|exact Hreg].
  - eapply clone_edges_frame; [by eapply clone_region_closed| |exact E1].
    intros b Hb. apply K14. lia.
  - done.
  - rewrite (node_at_lookup s2 s4); [done|]. rewrite K14 by lia.
    by rewrite N2.
  - lia.
  - done.
  - eexists. unfold tree_at in *. rewrite T4, T2. exact Hmt.
  - exists s'. unfold random_mutation.
    erewrite bind_run by exact Hclone.
    erewrite bind_run by (unfold load_tree; by rewrite Hmt).
    cbn [root]. erewrite bind_run by exact Hpick.
    assert (match picked with Some x => x | None => lo end =
            default lo picked) as -> by (by destruct picked).
    erewrite bind_run by (unfold load; by rewrite Hnd).
    erewrite bind_run by reflexivity.
    erewrite bind_run by reflexivity.
    fold (with_depth_drawn s2).
    erewrite bind_run
      by (unfold dispatch; by rewrite Hr, gen_funcs_rule).
    erewrite bind_run by exact Hgen.
    exact Hs'.
Qed.


(** ** The pick on a tree *)

Lemma tree_within_preorder s h a :
  tree_within s h a → is_Some (preorder h s a).
Proof.
  revert a. induction h as [|h IH]; intros a Ht; [done|].
  destruct Ht as (nd & Hnd & Hall). simpl. rewrite Hnd. simpl.
  assert (is_Some (mapM (preorder h s) (subnodes nd))) as [kids ->].
  { induction Hall as [|c l Hc Hall IHl]; [by eexists|]. simpl.
    destruct (IH c Hc) as [lc ->]. destruct IHl as [ks ->]. by eexists. }
  by eexists.
Qed.

Lemma elem_of_concat {A} (x : A) (ls : list (list A)) :
  x ∈ concat ls → ∃ l, x ∈ l ∧ l ∈ ls.
Proof.
  induction ls as [|l ls IH]; simpl; [by intros ?%elem_of_nil|].
  intros [Hx|Hx]%elem_of_app.
  - exists l. split; [done|by left].
  - destruct (IH Hx) as (l' & ? & ?). exists l'. split; [done|by right].
Qed.

Lemma preorder_members fuel s :
  ∀ a l, preorder fuel s a = Some l →
         ∀ x, x ∈ l → x = a ∨ descendant s a x.
Proof.
  induction fuel as [|k IH]; intros a l H x Hx; [done|]. simpl in H.
  destruct (node_at s a) as [nd|] eqn:Hnd; [|done]. simpl in H.
  destruct (mapM (preorder k s) (subnodes nd)) as [kids|] eqn:Hkids; [|done].
  simpl in H. injection H as <-.
  apply elem_of_cons in Hx as [->|Hx]; [by left|right].
  apply elem_of_concat in Hx as (lc & Hx & Hlc).
  apply mapM_Some in Hkids.
  apply list_elem_of_lookup_1 in Hlc as [i Hi].
  destruct (Forall2_lookup_r _ _ _ _ _ Hkids Hi) as (c & Hc & Hpre).
  apply list_elem_of_lookup_2 in Hc.
  destruct (IH c lc Hpre x Hx) as [->|Hd].
  - by eapply descendant_child.
  - by eapply descendant_deeper.
Qed.

Lemma first_odd_spec src pos l :
  (∀ x, (first_odd src pos l).1 = Some x → x ∈ l) ∧
  (pos ≤ (first_odd src pos l).2 ≤ pos + length l)%nat ∧
  (l ≠ [] → (pos < (first_odd src pos l).2)%nat).
Proof.
  revert pos. induction l as [|y l IH]; intros pos; simpl.
  { split; [done|]. split; [lia|done]. }
  destruct (negb (src pos mod 2 =? 0)); simpl.
  - split; [intros x [= <-]; by left|]. split; [lia|]. intros; lia.
  - destruct (IH (S pos)) as (Hin & Hpos & _).
    split; [intros x Hx; right; by apply Hin|]. split; [lia|]. intros; lia.
Qed.

(** X13.  [_pick_node] returns on every tree.  When the structure under the
    root is a tree of live nodes, the call returns; it has written nothing,
    it has drawn at least once, and a result that is not [NULL] is the root
    or one of its descendants. *)
Theorem pick_node_returns_on_tree (root : addr) (s : state) :
  tree_within s (heap_fuel s) root →
  ∃ picked s',
    _pick_node root s = Ret picked s' ∧
    nodes s' = nodes s ∧ trees s' = trees s ∧
    max_depth s' = max_depth s ∧ rand_src s' = rand_src s ∧
    (rand_pos s < rand_pos s')%nat ∧
    ∀ x, picked = Some x → x = root ∨ descendant s root x.
Proof.
  destruct s as [ns ts md src pos]. intros Ht.
  destruct (tree_within_preorder _ _ _ Ht) as [l Hl].
  destruct (first_odd_spec src pos l) as (Hin & _ & Hpos).
  eexists _, _. split; [by apply pick_node_fuel_first_odd|].
  cbn [nodes trees max_depth rand_src rand_pos].
  split; [done|]. split; [done|]. split; [done|]. split; [done|]. split.
  - apply Hpos. intros ->. revert Hl. unfold heap_fuel. simpl.
    destruct (length ns) as [|k]; [done|]. simpl.
    destruct (node_at _ root); [|done]. simpl.
    destruct (mapM _ (subnodes n)); done.
  - intros x Hx. eapply preorder_members; [exact Hl|]. by apply Hin.
Qed.


(** ** What a mutation leaves of the clone *)

Lemma clone_region_length par lo hi s :
  clone_region par lo hi s → (hi ≤ length (nodes s))%nat.
Proof.
  intros [Hlt Hcells].
  destruct (Hcells (hi - 1)%nat) as (nd & Hnd & _); [lia|].
  apply cell_lt in Hnd. lia.
Qed.

Lemma splice_cells lo hi mt node nd repl ndr s t s' :
  clone_region None lo hi s → clone_edges lo hi s →
  (lo ≤ node < hi)%nat → node_at s node = Some nd →
  (hi ≤ repl)%nat → node_at s repl = Some ndr →
  splice mt node (parent nd) repl s = Ret t s' →
  (∀ a, a = node ∨ descendant s node a → nodes s' !! a = Some None) ∧
  (∀ a, (a < hi)%nat → ¬ (a = node ∨ descendant s node a) →
        parent nd ≠ Some a → nodes s' !! a = nodes s !! a).
Proof.
  intros Hreg E Hnode Hnd Hrepl Hndr H.
  pose proof (clone_region_length _ _ _ _ Hreg) as Hlen.
  pose proof (clone_region_closed _ _ _ _ Hreg) as C.
  assert (closed_region node hi s) as Cn
    by (eapply closed_region_sub; [|exact C]; lia).
  pose proof Hreg as [_ Hcells].
  destruct (Hcells node Hnode) as (nd' & Hnd' & _ & Proot & Pin).
  rewrite Hnd in Hnd'. injection Hnd' as <-.
  unfold splice in H. destruct (parent nd) as [p|] eqn:Hpar.
  - assert (node ≠ lo) as Hne by (intros ->; by specialize (Proot eq_refl)).
    destruct (Pin Hne) as (p' & ndp & [= <-] & Hp & Hndp & Hin).
    apply bind_Ret in H as (b & s5 & H5 & H).
    apply bind_Ret in H as ([] & s6 & H6 & [_ ->]%ret_Ret).
    eapply node_replace_child in H5 as (i & sm & Hi & -> & Hm & Hsp);
      [|exact Hndp|exact Hin].
    apply modify_effect in Hm as (_ & _ & Lm & _ & Km).
    apply modify_effect in Hsp as (_ & _ & L5 & _ & K5).
    assert (∀ b, b ≠ p → b ≠ repl → nodes s5 !! b = nodes s !! b) as K.
    { intros b Hb Hb'. by rewrite K5, Km. }
    destruct (clone_subtree_ok lo hi s s5 node) as [C5 Hok];
      [done|done|done| |].
    { intros b Hb. apply K; lia. }
    assert (∀ x, x = node ∨ descendant s node x →
                 node_at s5 x = node_at s x) as Same.
    { intros x Hx. apply node_at_lookup. apply K.
      - destruct Hx as [->|Hx]; [lia|].
        pose proof (closed_region_descendant _ _ _ _ Cn (proj2 Hnode) Hx).
        lia.
      - destruct Hx as [->|Hx]; [lia|].
        pose proof (closed_region_descendant _ _ _ _ Cn (proj2 Hnode) Hx).
        lia. }
    assert (∀ x, x = node ∨ descendant s5 node x →
                 node_at s x = node_at s5 x) as Same'.
    { intros x Hx. symmetry. apply node_at_lookup. apply K.
      - destruct Hx as [->|Hx]; [lia|].
        pose proof (closed_region_descendant _ _ _ _ C5 (proj2 Hnode) Hx).
        lia.
      - destruct Hx as [->|Hx]; [lia|].
        pose proof (closed_region_descendant _ _ _ _ C5 (proj2 Hnode) Hx).
        lia. }
    destruct (node_free_fuel_returns hi (heap_fuel s5) node s5)
      as (s6' & H6' & All); [unfold heap_fuel; lia|lia|done|done|].
    unfold node_free in H6. rewrite H6 in H6'. injection H6' as <-.
    pose proof (node_free_fuel_only _ _ _ _ _ H6) as Only.
    split.
    + intros a Ha. apply All.
      destruct Ha as [->|Ha]; [by left|right].
      by apply (descendant_same s s5).
    + intros a Ha HD Hpa.
      destruct (Only a) as [->|[Hd _]].
      * apply K; [congruence|lia].
      * destruct HD. destruct Hd as [->|Hd]; [by left|right].
        by apply (descendant_same s5 s).
  - apply bind_Ret in H as ([] & s5 & H5 & H).
    apply bind_Ret in H as ([] & s6 & H6 & [_ ->]%ret_Ret).
    unfold set_root in H6.
    apply bind_Ret in H6 as (tr & s7 & [-> Htr]%load_tree_Ret & H6).
    apply store_tree_Ret in H6 as [-> _]. simpl.
    destruct (clone_subtree_ok lo hi s s node) as [_ Hok];
      [done|done|done|done|].
    destruct (node_free_fuel_returns hi (heap_fuel s) node s)
      as (s5' & H5' & All); [unfold heap_fuel; lia|lia|done|done|].
    unfold node_free in H5. rewrite H5 in H5'. injection H5' as <-.
    pose proof (node_free_fuel_only _ _ _ _ _ H5) as Only.
    split; [exact All|].
    intros a Ha HD _. by destruct (Only a) as [?|[? _]].
Qed.

(** What a run frees and what it keeps of the clone. *)
Lemma random_mutation_frees (tree : tree_ptr)
    (s : state) (t' : tree_ptr) (s' : state) :
  random_mutation tree s = Ret t' s' →
  ∃ s1 rt picked s2 node nd,
    tree_clone tree s = Ret t' s1 ∧ root_of s1 t' = Some rt ∧
    _pick_node rt s1 = Ret picked s2 ∧ node = default rt picked ∧
    node_at s1 node = Some nd ∧
    (∀ a, a = node ∨ descendant s1 node a →
          is_Some (node_at s1 a) ∧ node_at s' a = None) ∧
    (∀ a, (a < length (nodes s1))%nat →
          ¬ (a = node ∨ descendant s1 node a) → parent nd ≠ Some a →
          node_at s' a = node_at s1 a).
Proof.
  intros H.
  apply random_mutation_run in H
    as (s1 & picked & s2 & node & nd & r & repl & s4 & ndr & Hclone & -> & T1
        & K1 & Hroot & Hreg & Hpick & N2 & T2 & -> & Hnode & Hnd & Hid
        & Hdisp & Hgen & -> & Hpost & Hndr & Hidr & Hreg4 & Hnd4 & K4 & Hsrc
        & Hsplice).
  set (lo := length (nodes s)) in *. set (hi := length (nodes s1)) in *.
  assert (clone_edges lo hi s1) as E1.
  { pose proof Hclone as Hc.
    apply tree_clone_effect in Hc as (tr & r0 & Htr & _ & Tc & _ & _ & _ & _ & Hr0).
    destruct (root tr) as [n|] eqn:Hn.
    - eapply tree_clone_copy; [exact Hclone|].
      unfold root_of. rewrite Htr. exact Hn.
    - subst r0. unfold root_of, tree_at in Hroot.
      rewrite Tc, cell_app_new in Hroot. done. }
  assert (∀ a, (a < hi)%nat → nodes s4 !! a = nodes s1 !! a) as K14
    by (intros a Ha; by rewrite K4, N2).
  pose proof (clone_region_closed _ _ _ _ Hreg) as C1.
  pose proof (clone_region_closed _ _ _ _ Hreg4) as C4.
  assert (clone_edges lo hi s4) as E4
    by (eapply clone_edges_frame; [exact C1| |exact E1];
        intros b Hb; apply K14; lia).
  assert (node_at s1 (default lo picked) = Some nd) as Hnd1.
  { rewrite <- (node_at_lookup s1 s4); [done|]. apply K14. lia. }
  assert (∀ x, (x = default lo picked ∨ descendant s1 (default lo picked) x)
               → (default lo picked ≤ x < hi)%nat) as R1.
  { intros x [->|Hx]; [lia|].
    assert (closed_region (default lo picked) hi s1) as Cn
      by (eapply closed_region_sub; [|exact C1]; lia).
    pose proof (closed_region_descendant _ _ _ _ Cn (proj2 Hnode) Hx). lia. }
  assert (∀ x, (x = default lo picked ∨ descendant s4 (default lo picked) x)
               → (default lo picked ≤ x < hi)%nat) as R4.
  { intros x [->|Hx]; [lia|].
    assert (closed_region (default lo picked) hi s4) as Cn
      by (eapply closed_region_sub; [|exact C4]; lia).
    pose proof (closed_region_descendant _ _ _ _ Cn (proj2 Hnode) Hx). lia. }
  eapply splice_cells in Hsplice as [Hfreed Hkept];
    [|exact Hreg4|exact E4|exact Hnode|exact Hnd4|reflexivity|exact Hndr].
  exists s1, lo, picked, s2, (default lo picked), nd.
  split; [done|]. split; [done|]. split; [done|]. split; [done|].
  split; [done|]. split.
  - intros a Ha. pose proof (R1 a Ha) as Hr. split.
    + destruct Hreg as [_ Hcells].
      destruct (Hcells a) as (x & Hx & _); [lia|]. eauto.
    + unfold node_at, cell. rewrite Hfreed; [done|].
      destruct Ha as [->|Ha]; [by left|right].
      apply (descendant_same s1 s4); [|done].
      intros y Hy. apply node_at_lookup. apply K14.
      specialize (R1 y Hy). lia.
  - intros a Ha HD Hpa.
    rewrite <- (node_at_lookup s1 s4 a (K14 a Ha)).
    apply node_at_lookup. apply Hkept; [done| |done].
    intros HD4. apply HD. destruct HD4 as [->|HD4]; [by left|right].
    apply (descendant_same s4 s1); [|done].
    intros y Hy. symmetry. apply node_at_lookup. apply K14.
    specialize (R4 y Hy). lia.
Qed.


(** X12.  [random_mutation] returns when the pick lands on a non-terminal,
    with the replacement in the place of the picked node.  If the node
    [_pick_node] returns in the clone (the root when it returns [NULL]) has
    the type of a rule, 1 to 30, the call returns the clone: the generator
    of that rule, dispatched at depth 0 under the bound drawn, returns a
    node that did not exist before; this node stands where the picked node
    stood, at the root of the tree or in the picked node's slot of its
    parent; and the picked node and every descendant of it have been
    freed. *)
Theorem random_mutation_returns_on_rule_pick (tree : tree_ptr) (s : state)
    (mt : tree_ptr) (s1 : state) (rt : addr) (picked : option addr)
    (s2 : state) (nd : node_t) :
  tree_clone tree s = Ret mt s1 → root_of s1 mt = Some rt →
  _pick_node rt s1 = Ret picked s2 →
  node_at s2 (default rt picked) = Some nd →
  1 ≤ id nd ≤ 30 →
  ∃ s' r repl s4,
    random_mutation tree s = Ret mt s' ∧
    id nd = rule_id r ∧
    gen_rule r 0 (with_depth_drawn s2) = Ret repl s4 ∧
    node_at s2 repl = None ∧
    takes_place s2 (default rt picked) s' mt repl ∧
    ∀ a, a = default rt picked ∨ descendant s2 (default rt picked) a →
         is_Some (node_at s2 a) ∧ node_at s' a = None.
Proof.
  intros Hclone Hroot Hpick Hnd Hid.
  destruct (random_mutation_returns _ _ _ _ _ _ _ _ Hclone Hroot Hpick Hnd Hid)
    as [s' Hrun].
  pose proof Hrun as Hrepl.
  apply random_mutation_replacement in Hrepl
    as (s1' & picked' & s2' & nd' & r & repl & s4 & Hclone' & Hroot' & Hpick'
        & _ & Hnd' & Hid' & Hgen & Hnew & Hplace & _).
  rewrite Hclone in Hclone'. injection Hclone' as <-.
  rewrite Hroot in Hroot'. injection Hroot' as ->.
  rewrite Hpick in Hpick'. injection Hpick' as <- <-.
  rewrite Hnd in Hnd'. injection Hnd' as <-.
  pose proof Hrun as Hfree.
  apply random_mutation_frees in Hfree
    as (s1' & rt' & picked' & s2' & node & nd' & Hclone' & Hroot' & Hpick'
        & -> & Hnd' & Hfreed & _).
  rewrite Hclone in Hclone'. injection Hclone' as <-.
  rewrite Hroot in Hroot'. injection Hroot' as <-.
  rewrite Hpick in Hpick'. injection Hpick' as <- <-.
  assert (nodes s2 = nodes s1) as N2.
  { by apply pick_node_fuel_effect in Hpick as (? & _). }
  assert (∀ a, node_at s2 a = node_at s1 a) as Hat
    by (intros; apply node_at_lookup; by rewrite N2).
  exists s', r, repl, s4.
  split; [done|]. split; [done|]. split; [done|]. split; [done|].
  split; [done|]. intros a Ha. rewrite Hat. apply Hfreed.
  destruct Ha as [->|Ha]; [by left|right].
  eapply descendant_same; [|exact Ha]. intros y _. symmetry. apply Hat.
Qed.

(** X14.  A mutation frees the picked subtree of the clone, puts the
    replacement into its place, and touches nothing else.  In a run of
    [random_mutation] that returns, the node picked in the clone and every
    descendant of it has been freed, and every other node that existed
    after cloning -- the nodes of the input and of the other trees, and the
    nodes of the clone outside the picked subtree -- is exactly as it was,
    except the parent of the picked node: its slot that held the picked
    node now holds the replacement, a node that did not exist after
    cloning, and nothing else of it has changed.  When the picked node is
    the root of the clone, the replacement is the root of the tree
    returned. *)
Theorem random_mutation_frees_picked_subtree_only (tree : tree_ptr)
    (s : state) (t' : tree_ptr) (s' : state) :
  random_mutation tree s = Ret t' s' →
  ∃ s1 rt picked s2 node nd repl,
    tree_clone tree s = Ret t' s1 ∧ root_of s1 t' = Some rt ∧
    _pick_node rt s1 = Ret picked s2 ∧ node = default rt picked ∧
    node_at s1 node = Some nd ∧
    (∀ a, a = node ∨ descendant s1 node a →
          is_Some (node_at s1 a) ∧ node_at s' a = None) ∧
    (∀ a, (a < length (nodes s1))%nat →
          ¬ (a = node ∨ descendant s1 node a) → parent nd ≠ Some a →
          node_at s' a = node_at s1 a) ∧
    node_at s1 repl = None ∧
    takes_place s2 node s' t' repl.
Proof.
  intros H.
  pose proof H as Hrepl.
  apply random_mutation_replacement in Hrepl
    as (s1 & picked & s2 & nd0 & r & repl & s4 & Hclone & Hroot & Hpick
        & _ & Hnd0 & _ & _ & Hnew & Hplace & _).
  apply random_mutation_frees in H
    as (s1' & rt' & picked' & s2' & node & nd & Hclone' & Hroot' & Hpick'
        & -> & Hnd & Hfreed & Hkept).
  rewrite Hclone in Hclone'. injection Hclone' as <-.
  rewrite Hroot in Hroot'. injection Hroot' as <-.
  rewrite Hpick in Hpick'. injection Hpick' as <- <-.
  assert (nodes s2 = nodes s1) as N2.
  { by apply pick_node_fuel_effect in Hpick as (? & _). }
  exists s1, (length (nodes s)), picked, s2, (default (length (nodes s)) picked),
    nd, repl.
  split; [done|]. split; [done|]. split; [done|]. split; [done|].
  split; [done|]. split; [done|]. split; [done|]. split; [|done].
  rewrite <- Hnew. symmetry. apply node_at_lookup. by rewrite N2.
Qed.


(** ** The draws a run reads *)


















(** ** Sentences *)

Lemma bytes_eqb_eq a b : bytes_eqb a b = true → a = b.
Proof.
  revert b. induction a as [|x a IH]; intros [|y b]; simpl; try done.
  intros [Hxy Hab]%andb_prop. apply Byte.byte_dec_bl in Hxy as ->.
  by rewrite (IH b Hab).
Qed.

Lemma match_syms_sound (m : rule → list byte → bool) (Q : rule → list byte → Prop) :
  (∀ r w, m r w = true → Q r w) →
  ∀ syms w,
    match_syms m syms w = true →
    ∃ ws, w = concat ws ∧
          Forall2 (λ sym v,
                     match sym with
                     | Lit str _ => v = str
                     | Sub r' | SubRec r' => Q r' v
                     end) syms ws.
Proof.
  intros Hm. induction syms as [|sym rest IH]; intros w H; simpl in H.
  { apply bytes_eqb_eq in H as ->. exists []. split; [done|constructor]. }
  assert (∀ r',
    existsb (λ n, m r' (take n w) && match_syms m rest (drop n w))
            (seq 0 (S (length w))) = true →
    ∃ ws, w = concat ws ∧
          Forall2 (λ sym v,
                     match sym with
                     | Lit str _ => v = str
                     | Sub r' | SubRec r' => Q r' v
                     end) (Sub r' :: rest) ws) as Hsub.
  { intros r' Hex. apply existsb_exists in Hex as (n & _ & Hn).
    apply andb_prop in Hn as [Hhead Hrest].
    destruct (IH _ Hrest) as (ws & Hws & Hall).
    exists (take n w :: ws). split.
    - simpl. by rewrite <- Hws, take_drop.
    - constructor; [by apply Hm|done]. }
  destruct sym as [str n|r'|r'].
  - apply andb_prop in H as [Hhead Hrest].
    apply bytes_eqb_eq in Hhead.
    destruct (IH _ Hrest) as (ws & Hws & Hall).
    exists (str :: ws). split.
    + simpl. rewrite <- Hws. rewrite Hhead at 1. by rewrite take_drop.
    + by constructor.
  - by apply Hsub.
  - destruct (Hsub r' H) as (ws & Hws & Hall). exists ws. split; [done|].
    inversion Hall; subst. by constructor.
Qed.

Lemma matches_sound h : ∀ r w, matches h r w = true → lang h r w.
Proof.
  induction h as [|h IH]; intros r w H; [done|]. simpl in H.
  apply existsb_exists in H as (syms & Hsyms & H).
  apply (match_syms_sound _ (lang h) IH) in H as (ws & Hws & Hall).
  exists syms, ws. split; [by apply list_elem_of_In|done].
Qed.

Lemma pools_match r : forallb (matches 6 r) (pool (body_of r)) = true.
Proof. destruct r; vm_compute; reflexivity. Qed.

Lemma pools_lang r str : str ∈ pool (body_of r) → lang 6 r str.
Proof.
  intros Hstr. apply matches_sound.
  pose proof (pools_match r) as H. rewrite forallb_forall in H.
  by apply H, list_elem_of_In.
Qed.

Lemma lang_mono h h' r w : (h ≤ h')%nat → lang h r w → lang h' r w.
Proof.
  revert h' r w. induction h as [|h IH]; intros h' r w Hh H; [done|].
  destruct h' as [|h']; [lia|].
  destruct H as (syms & ws & Hsyms & Hw & Hall). exists syms, ws.
  split; [done|]. split; [done|].
  eapply Forall2_impl; [exact Hall|]. intros [str n|r'|r'] v; simpl.
  - done.
  - apply IH. lia.
  - apply IH. lia.
Qed.

(** A derivation stands for a sentence of its rule. *)
Lemma derives_sentence s h :
  ∀ r a, derives s h r a →
         ∃ w, yield h s a = Some w ∧ lang (h + 6) r w.
Proof.
  induction h as [|h IH]; intros r a H; [done|].
  destruct H as (nd & Hnd & Hid & H).
  remember (S h + 6)%nat as hh eqn:Ehh. simpl. rewrite Hnd. simpl.
  destruct H as [(str & Hstr & Hval & _)|(Hval & syms & Hsyms & Hkids)].
  - rewrite Hval. exists str. split; [done|].
    eapply lang_mono; [|by apply pools_lang]. lia.
  - rewrite Hval.
    assert (∃ ws, mapM (yield h s) (subnodes nd) = Some ws ∧
                  Forall2 (λ sym v,
                             match sym with
                             | Lit str _ => v = str
                             | Sub r' | SubRec r' => lang (h + 6) r' v
                             end) syms ws) as (ws & Hws & Hall).
    { clear Hsyms Hnd.
      induction Hkids as [|sym c syms kids Hc Hkids IHk].
      - exists []. split; [done|constructor].
      - destruct IHk as (ws & Hws & Hall).
        assert (∃ v, yield h s c = Some v ∧
                     match sym with
                     | Lit str _ => v = str
                     | Sub r' | SubRec r' => lang (h + 6) r' v
                     end) as (v & Hv & Hsym).
        { destruct sym as [str n|r'|r'].
          - destruct Hc as (Hh & k & Hk & _ & Hkval & _).
            exists str. split; [|done].
            destruct h as [|h']; [lia|]. simpl. rewrite Hk. simpl.
            by rewrite Hkval.
          - by apply IH.
          - by apply IH. }
        exists (v :: ws). split; [|by constructor].
        simpl. by rewrite Hv, Hws. }
    rewrite Hws. simpl. exists (concat ws). split; [done|].
    subst hh. change (S h + 6)%nat with (S (h + 6)).
    exists syms, ws. done.
Qed.


(** X15.  Every pool entry is a sentence of its rule.  For each of the 30
    rules, every string of the rule's pool can be derived from the rule by
    the cases of the generators alone, with a derivation of height at most
    6: cutting the recursion off with a pool entry never leaves the
    language of the grammar. *)
Theorem pool_entries_are_sentences (r : rule) :
  Forall (lang 6 r) (pool (body_of r)).
Proof. apply Forall_forall. intros str. apply pools_lang. Qed.

(** X16.  What a generator builds stands for a sentence of its rule.  The
    values at the leaves of the tree returned, read from left to right,
    form a string that the rule derives by the cases of the grammar. *)
Theorem generated_tree_yields_sentence (r : rule) (depth : Z) (s : state)
    (a : addr) (s' : state) :
  gen_rule r depth s = Ret a s' →
  ∃ w, yield (S (Z.to_nat (max_depth s - depth + 1))) s' a = Some w ∧
       lang (S (Z.to_nat (max_depth s - depth + 1)) + 6) r w.
Proof.
  intros H. apply derives_sentence.
  apply gen_rule_region in H as ((-> & _ & _ & nd & Hnd & Hid & _) & L & G & T).
  eapply region_derives; [exact G|split; [reflexivity|exact L]|done..].
Qed.

(** X17.  A mutated derivation stands for a sentence of the same rule.
    When the tree given to [random_mutation] is a derivation of a rule and
    the call returns, the values at the leaves of the tree returned, read
    from left to right, form a string that the same rule derives by the
    cases of the grammar. *)
Theorem random_mutation_yields_sentence (tree : tree_ptr) (s : state)
    (t' : tree_ptr) (s' : state) (rt : addr) (h : nat) (r0 : rule) :
  random_mutation tree s = Ret t' s' →
  root_of s tree = Some rt → derives s h r0 rt →
  ∃ rt' w, root_of s' t' = Some rt' ∧
           yield (h + 17) s' rt' = Some w ∧ lang (h + 17 + 6) r0 w.
Proof.
  intros H Hrt Hd.
  destruct (random_mutation_derives _ _ _ _ _ _ _ H Hrt Hd) as (rt' & Hrt' & Hd').
  destruct (derives_sentence _ _ _ _ Hd') as (w & Hw & Hl).
  by exists rt', w.
Qed.


End Engine.

(** * Instances

    The theorems above, applied to concrete runs.  [node_create] starts the
    counter at 0 here. *)

Lemma random_mutation_keeps_input_witness :
  ∃ t s t' s',
    first_mutation 0 (boot sample_draws) = Ret t s ∧
    random_mutation 0 t s = Ret t' s' ∧
    nodes s `prefix_of` nodes s' ∧ trees s `prefix_of` trees s' ∧
    t' = length (trees s) ∧
    tree_at s' t = tree_at s t ∧
    (∀ a nd, node_at s a = Some nd → node_at s' a = Some nd).
Proof.
  eexists _, _, _, _. split; [vm_compute; reflexivity|].
  split; [vm_compute; reflexivity|].
  apply (random_mutation_keeps_input 0). vm_compute; reflexivity.
Defined.

Lemma random_mutation_preserves_rule_id_witness :
  ∃ t s t' s',
    first_mutation 0 (boot sample_draws) = Ret t s ∧
    random_mutation 0 t s = Ret t' s' ∧
    (∀ r, gen_funcs 0 !! N.to_nat (rule_id r) = Some (Some (gen_rule 0 r))) ∧
    (∀ r d s0 a s0',
        gen_rule 0 r d s0 = Ret a s0' →
        ∃ nd0, node_at s0' a = Some nd0 ∧ id nd0 = rule_id r) ∧
    (∀ r d s0, (max_depth s0 < INT_MAX)%Z →
               ∃ a s0', gen_rule 0 r d s0 = Ret a s0') ∧
    ∃ s1 rt picked s2 node nd r repl s4 ndr,
      tree_clone t s = Ret t' s1 ∧ root_of s1 t' = Some rt ∧
      _pick_node rt s1 = Ret picked s2 ∧ node = default rt picked ∧
      node_at s2 node = Some nd ∧
      gen_funcs 0 !! N.to_nat (id nd) = Some (Some (gen_rule 0 r)) ∧
      gen_rule 0 r 0 (with_depth_drawn s2) = Ret repl s4 ∧
      node_at s2 repl = None ∧
      node_at s' repl = Some ndr ∧ id ndr = id nd ∧
      match parent nd with
      | None => node = rt ∧ root_of s' t' = Some repl
      | Some p =>
          ∃ ndp ndp' i,
            node_at s2 p = Some ndp ∧ subnodes ndp !! i = Some node ∧
            node_at s' p = Some ndp' ∧
            subnodes ndp' = <[i := repl]> (subnodes ndp) ∧
            parent ndr = Some p
      end.
Proof.
  eexists _, _, _, _. split; [vm_compute; reflexivity|].
  split; [vm_compute; reflexivity|].
  apply (random_mutation_preserves_rule_id 0). vm_compute; reflexivity.
Defined.


(** In the tree of the first mutation, [START -> JSON -> ELEMENT -> ...],
    the [JSON] node at address 3 is replaced under the root at address 2 by
    the node at address 0. *)
Lemma node_replace_subnode_contract_witness :
  ∃ t s,
    first_mutation 0 (boot sample_draws) = Ret t s ∧
    tree_within s (heap_fuel s) 2 ∧ is_Some (node_at s 0%nat) ∧
    ∃ b s',
      node_replace_subnode 2 3 0 s = Ret b s' ∧
      length (nodes s') = length (nodes s) ∧
      (∀ a, is_Some (node_at s a) → is_Some (node_at s' a)) ∧
      (3%nat ≠ 0%nat → node_at s' 3%nat = node_at s 3%nat) ∧
      (b = false ↔ ¬ descendant s 2 3) ∧
      (b = false → s' = s) ∧
      (b = true →
       ∃ p ndp ndp' ndn' i,
         (p = 2%nat ∨ descendant s 2 p) ∧ node_at s p = Some ndp ∧
         subnodes ndp !! i = Some 3%nat ∧
         node_at s' p = Some ndp' ∧
         subnodes ndp' = <[i := 0%nat]> (subnodes ndp) ∧
         node_at s' 0%nat = Some ndn' ∧ parent ndn' = Some p).
Proof.
  eexists _, _. split; [vm_compute; reflexivity|].
  assert (tree_within
            (State
               [Some (Node 1 0 0 (Some (bytes "null")) 4 None []); None;
                Some (Node 1 0 1 None 0 None [3%nat]);
                Some (Node 2 0 1 None 0 None [4%nat]);
                Some (Node 3 0 3 None 0 None [5%nat; 6%nat; 7%nat]);
                Some (Node 23 0 0 (Some []) 0 None []);
                Some (Node 4 0 0 (Some (bytes "null")) 4 None []);
                Some (Node 23 0 0 (Some []) 0 None [])]
               [Some (Tree (Some 0%nat) 0 [] 0);
                Some (Tree (Some 2%nat) 0 [] 0)]
               2 sample_draws 9) 8 2) as Htree.
  { simpl. eexists. split; [reflexivity|]. repeat constructor.
    eexists. split; [reflexivity|]. repeat constructor.
    eexists. split; [reflexivity|]. repeat constructor.
    all: eexists; split; [reflexivity|]; constructor. }
  split; [exact Htree|]. split; [by eexists|].
  apply node_replace_subnode_contract; [exact Htree | by eexists].
Defined.

Lemma gen_past_max_depth_pool_terminal_witness :
  (0 > max_depth (boot (draws [])))%Z ∧
  gen_funcs 0 !! N.to_nat (rule_id MEMBER) = Some (Some (gen_rule 0 MEMBER)) ∧
  (∀ i str, pool (body_of MEMBER) !! i = Some str →
            pool_l (body_of MEMBER) !! i = Some (N.of_nat (length str))) ∧
  ∃ a s' nd i str,
    gen_rule 0 MEMBER 0 (boot (draws [])) = Ret a s' ∧
    node_at s' a = Some nd ∧
    i = N.to_nat (rand_src (boot (draws [])) (rand_pos (boot (draws [])))
                  mod N.of_nat (length (pool (body_of MEMBER)))) ∧
    pool (body_of MEMBER) !! i = Some str ∧
    id nd = rule_id MEMBER ∧ subnodes nd = [] ∧
    val_buf nd = Some str ∧ val_len nd = N.of_nat (length str).
Proof.
  split; [simpl; lia|].
  apply (gen_past_max_depth_pool_terminal 0 MEMBER 0%Z (boot (draws []))).
  simpl. lia.
Defined.

(** The object [{ }] with a whitespace node that derives nothing and an empty
    literal. *)
Lemma struct_round_trip_witness :
  let t := Inner 5 [Leaf 0 (bytes "{"); Inner 23 []; Leaf 0 [];
                    Leaf 0 (bytes "}")] in
  shape_ok t = true ∧
  (∃ t', tree_from_buf (struct_encode t) = Some t' ∧
         node_equal t t' = true ∧ t' = t) ∧
  ∀ rid rest,
    rid < 2 ^ 32 → known_id rid = false →
    tree_from_buf (le_bytes 4 rid ++ rest) = None.
Proof.
  intros t. split; [reflexivity|]. apply (struct_round_trip t). reflexivity.
Defined.

(** The generator of [OBJECT] at depth 0 with [max_depth] 1 and the draws
    1, 0, 0, 2, 0: an object with one member, cut off by pool entries. *)
Lemma generators_return_witness :
  let s := State [None] [] 1 (draws [1; 0; 0; 2; 0]) 0 in
  (max_depth s < INT_MAX)%Z ∧
  ∃ a s',
    gen_rule 0 OBJECT 0 s = Ret a s' ∧
    ∀ fuel, (Z.to_nat (max_depth s - 0 + 1) ≤ fuel)%nat →
            gen_fuel 0 fuel OBJECT 0 s = Ret a s'.
Proof.
  intros s. split; [reflexivity|].
  apply (generators_return 0 OBJECT 0 s). reflexivity.
Defined.

Lemma generator_only_allocates_witness :
  let s := State [None] [] 1 (draws [1; 0; 0; 2; 0]) 0 in
  ∃ a s',
    gen_rule 0 OBJECT 0 s = Ret a s' ∧
    a = length (nodes s) ∧ (a < length (nodes s'))%nat ∧
    nodes s `prefix_of` nodes s' ∧
    (∀ x, (a ≤ x < length (nodes s'))%nat → is_Some (node_at s' x)) ∧
    trees s' = trees s ∧ max_depth s' = max_depth s ∧
    rand_src s' = rand_src s.
Proof.
  intros s. eexists _, _. split; [vm_compute; reflexivity|].
  apply (generator_only_allocates 0 OBJECT 0 s). vm_compute; reflexivity.
Defined.

Lemma generated_tree_derives_witness :
  let s := State [None] [] 1 (draws [1; 0; 0; 2; 0]) 0 in
  (max_depth s < INT_MAX)%Z ∧
  ∃ a s',
    gen_rule 0 OBJECT 0 s = Ret a s' ∧
    derives s' (S (Z.to_nat (max_depth s - 0 + 1))) OBJECT a.
Proof.
  intros s. split; [reflexivity|].
  eexists _, _. split; [vm_compute; reflexivity|].
  apply (generated_tree_derives 0 OBJECT 0 s);
    [reflexivity|vm_compute; reflexivity].
Defined.

(** [gen_init__] at program start: [max_depth] is -1 and the tree is one
    leaf. *)
Lemma gen_init_builds_start_derivation_witness :
  let s := boot (draws []) in
  (max_depth s < INT_MAX)%Z ∧
  ∃ s',
    gen_init__ 0 s = Ret (length (trees s)) s' ∧
    trees s' = trees s ++ [Some (Tree (Some (length (nodes s))) 0 [] 0)] ∧
    nodes s `prefix_of` nodes s' ∧ max_depth s' = max_depth s ∧
    derives s' (S (Z.to_nat (max_depth s + 1))) START (length (nodes s)) ∧
    ((max_depth s < 0)%Z →
     ∃ nd str, node_at s' (length (nodes s)) = Some nd ∧
               str ∈ pool_start ∧ val_buf nd = Some str ∧ subnodes nd = [] ∧
               length (nodes s') = S (length (nodes s))).
Proof.
  intros s. split; [reflexivity|].
  apply (gen_init_builds_start_derivation 0 s). reflexivity.
Defined.

(** The generator of [WS] with a recursion edge: [WS -> SP1 WS]. *)
Lemma generated_counters_witness :
  let s := State [] [] 1 (draws [1; 3; 0]) 0 in
  ∃ a s',
    gen_rule 0 WS 0 s = Ret a s' ∧
    ∀ x nd,
      (length (nodes s) ≤ x)%nat → node_at s' x = Some nd →
      non_term_size nd =
        bump (count (non_term_child s') (subnodes nd)) 0 ∧
      recursion_edge_size nd =
        bump (count (same_type_child s' nd) (subnodes nd)) 0.
Proof.
  intros s. eexists _, _. split; [vm_compute; reflexivity|].
  eapply (generated_counters 0 WS 0 s). vm_compute; reflexivity.
Defined.

Lemma generated_nodes_have_no_parent_witness :
  let s := State [] [] 1 (draws [1; 3; 0]) 0 in
  ∃ a s',
    gen_rule 0 WS 0 s = Ret a s' ∧
    ∀ x nd, (length (nodes s) ≤ x)%nat → node_at s' x = Some nd →
            parent nd = None.
Proof.
  intros s. eexists _, _. split; [vm_compute; reflexivity|].
  eapply (generated_nodes_have_no_parent 0 WS 0 s). vm_compute; reflexivity.
Defined.

(** The tree of the first mutation, [START -> JSON -> ELEMENT -> (WS, VALUE,
    WS)], with the draws 0, 1: the root is skipped and its child picked. *)
Lemma pick_node_first_odd_in_preorder_witness :
  ∃ t s rt l,
    first_mutation 0 (boot sample_draws) = Ret t s ∧
    root_of s t = Some rt ∧
    preorder (heap_fuel s) s rt = Some l ∧
    _pick_node rt s =
      Ret (first_odd (rand_src s) (rand_pos s) l).1
          (State (nodes s) (trees s) (max_depth s) (rand_src s)
                 (first_odd (rand_src s) (rand_pos s) l).2).
Proof.
  eexists _, _, _, _. split; [vm_compute; reflexivity|].
  split; [vm_compute; reflexivity|].
  split; [vm_compute; reflexivity|].
  apply pick_node_first_odd_in_preorder. vm_compute; reflexivity.
Defined.

(** The tree of the first mutation, [START -> JSON -> ELEMENT -> (WS, VALUE,
    WS)], is a derivation of [START] of height 4; the second mutation
    replaces its [JSON] subtree. *)
Lemma random_mutation_preserves_derivation_witness :
  ∃ t s rt t' s',
    first_mutation 0 (boot sample_draws) = Ret t s ∧
    root_of s t = Some rt ∧ derives s 4 START rt ∧
    random_mutation 0 t s = Ret t' s' ∧
    ∃ rt' s1 crt picked s2 nd r repl,
      root_of s' t' = Some rt' ∧ derives s' (4 + 17) START rt' ∧
      tree_clone t s = Ret t' s1 ∧ root_of s1 t' = Some crt ∧
      _pick_node crt s1 = Ret picked s2 ∧
      node_at s2 (default crt picked) = Some nd ∧ id nd = rule_id r ∧
      node_at s2 repl = None ∧
      takes_place s2 (default crt picked) s' t' repl ∧
      derives s' 17 r repl.
Proof.
  eexists _, _, _, _, _. split; [vm_compute; reflexivity|].
  split; [vm_compute; reflexivity|].
  match goal with
  | |- derives ?s _ _ _ ∧ _ => assert (derives s 4 START 2) as Hd
  end.
  { eexists. split; [reflexivity|]. split; [reflexivity|].
    right. split; [reflexivity|]. exists [Sub JSON]. split; [by left|].
    constructor; [|constructor].
    eexists. split; [reflexivity|]. split; [reflexivity|].
    right. split; [reflexivity|]. exists [Sub ELEMENT]. split; [by left|].
    constructor; [|constructor].
    eexists. split; [reflexivity|]. split; [reflexivity|].
    right. split; [reflexivity|].
    exists [Sub WS; Sub VALUE; Sub WS]. split; [by left|].
    constructor; [|constructor; [|constructor; [|constructor]]].
    all: eexists; split; [reflexivity|]; split; [reflexivity|]; left.
    all: eexists; split; [|split; [reflexivity|split; reflexivity]].
    all: by left. }
  split; [exact Hd|]. split; [vm_compute; reflexivity|].
  match type of Hd with
  | derives ?s _ _ _ =>
      apply (random_mutation_preserves_derivation 0 1%nat s _ _ 2%nat 4 START)
  end; [vm_compute; reflexivity|vm_compute; reflexivity|exact Hd].
Defined.

Lemma generator_draws_once_per_rule_node_witness :
  let s := State [None] [] 1 (draws [1; 0; 0; 2; 0]) 0 in
  ∃ a s',
    gen_rule 0 OBJECT 0 s = Ret a s' ∧
    rand_pos s' =
      (rand_pos s + rule_cells (drop (length (nodes s)) (nodes s')))%nat.
Proof.
  intros s. eexists _, _. split; [vm_compute; reflexivity|].
  eapply (generator_draws_once_per_rule_node 0 OBJECT 0 s).
  vm_compute; reflexivity.
Defined.

(** The second mutation of the tree [START -> JSON -> ELEMENT -> (WS, VALUE
    -> "false", WS)]: the draws 0, 0, 0, 0, 0, 1 skip five nodes and pick
    the literal leaf. *)
Lemma random_mutation_faults_on_terminal_pick_witness :
  let src := draws [0; 1; 2; 0; 0; 0; 0; 0; 0; 0; 0; 0; 0; 0; 1] in
  ∃ t s mt s1 rt picked s2 nd,
    first_mutation 0 (boot src) = Ret t s ∧
    tree_clone t s = Ret mt s1 ∧ root_of s1 mt = Some rt ∧
    _pick_node rt s1 = Ret picked s2 ∧
    node_at s2 (default rt picked) = Some nd ∧
    (id nd = TERM_NODE ∨ 31 ≤ id nd) ∧
    random_mutation 0 t s = Fault.
Proof.
  intros src. eexists _, _, _, _, _, _, _, _.
  split; [vm_compute; reflexivity|].
  split; [vm_compute; reflexivity|].
  split; [vm_compute; reflexivity|].
  split; [vm_compute; reflexivity|].
  split; [vm_compute; reflexivity|].
  split; [by left|].
  eapply (random_mutation_faults_on_terminal_pick 0);
    [vm_compute; reflexivity|vm_compute; reflexivity|vm_compute; reflexivity
    |vm_compute; reflexivity|by left].
Defined.

(** The second mutation of the tree [START -> JSON -> ELEMENT -> (WS, VALUE,
    WS)] with the draws 0, 1: the [JSON] node is picked and regenerated. *)
Lemma random_mutation_returns_on_rule_pick_witness :
  ∃ t s mt s1 rt picked s2 nd,
    first_mutation 0 (boot sample_draws) = Ret t s ∧
    tree_clone t s = Ret mt s1 ∧ root_of s1 mt = Some rt ∧
    _pick_node rt s1 = Ret picked s2 ∧
    node_at s2 (default rt picked) = Some nd ∧
    1 ≤ id nd ≤ 30 ∧
    ∃ s' r repl s4,
      random_mutation 0 t s = Ret mt s' ∧
      id nd = rule_id r ∧
      gen_rule 0 r 0 (with_depth_drawn s2) = Ret repl s4 ∧
      node_at s2 repl = None ∧
      takes_place s2 (default rt picked) s' mt repl ∧
      ∀ a, a = default rt picked ∨ descendant s2 (default rt picked) a →
           is_Some (node_at s2 a) ∧ node_at s' a = None.
Proof.
  eexists _, _, _, _, _, _, _, _.
  split; [vm_compute; reflexivity|].
  split; [vm_compute; reflexivity|].
  split; [vm_compute; reflexivity|].
  split; [vm_compute; reflexivity|].
  split; [vm_compute; reflexivity|].
  split; [simpl; lia|].
  eapply (random_mutation_returns_on_rule_pick 0);
    [vm_compute; reflexivity|vm_compute; reflexivity|vm_compute; reflexivity
    |vm_compute; reflexivity|simpl; lia].
Defined.

Lemma pick_node_returns_on_tree_witness :
  ∃ t s rt,
    first_mutation 0 (boot sample_draws) = Ret t s ∧
    root_of s t = Some rt ∧ tree_within s (heap_fuel s) rt ∧
    ∃ picked s',
      _pick_node rt s = Ret picked s' ∧
      nodes s' = nodes s ∧ trees s' = trees s ∧
      max_depth s' = max_depth s ∧ rand_src s' = rand_src s ∧
      (rand_pos s < rand_pos s')%nat ∧
      ∀ x, picked = Some x → x = rt ∨ descendant s rt x.
Proof.
  eexists _, _, _. split; [vm_compute; reflexivity|].
  split; [vm_compute; reflexivity|].
  match goal with
  | |- tree_within ?s ?h ?a ∧ _ => assert (tree_within s h a) as Ht
  end.
  { simpl. eexists. split; [reflexivity|]. repeat constructor.
    eexists. split; [reflexivity|]. repeat constructor.
    eexists. split; [reflexivity|]. repeat constructor.
    all: eexists; split; [reflexivity|]; constructor. }
  split; [exact Ht|]. apply pick_node_returns_on_tree. exact Ht.
Defined.

Lemma random_mutation_frees_picked_subtree_only_witness :
  ∃ t s t' s',
    first_mutation 0 (boot sample_draws) = Ret t s ∧
    random_mutation 0 t s = Ret t' s' ∧
    ∃ s1 rt picked s2 node nd repl,
      tree_clone t s = Ret t' s1 ∧ root_of s1 t' = Some rt ∧
      _pick_node rt s1 = Ret picked s2 ∧ node = default rt picked ∧
      node_at s1 node = Some nd ∧
      (∀ a, a = node ∨ descendant s1 node a →
            is_Some (node_at s1 a) ∧ node_at s' a = None) ∧
      (∀ a, (a < length (nodes s1))%nat →
            ¬ (a = node ∨ descendant s1 node a) → parent nd ≠ Some a →
            node_at s' a = node_at s1 a) ∧
      node_at s1 repl = None ∧
      takes_place s2 node s' t' repl.
Proof.
  eexists _, _, _, _. split; [vm_compute; reflexivity|].
  split; [vm_compute; reflexivity|].
  apply (random_mutation_frees_picked_subtree_only 0).
  vm_compute; reflexivity.
Defined.

Lemma generated_tree_yields_sentence_witness :
  let s := State [None] [] 1 (draws [1; 0; 0; 2; 0]) 0 in
  ∃ a s',
    gen_rule 0 OBJECT 0 s = Ret a s' ∧
    ∃ w, yield (S (Z.to_nat (max_depth s - 0 + 1))) s' a = Some w ∧
         lang (S (Z.to_nat (max_depth s - 0 + 1)) + 6) OBJECT w.
Proof.
  intros s. eexists _, _. split; [vm_compute; reflexivity|].
  apply (generated_tree_yields_sentence 0 OBJECT 0 s). vm_compute; reflexivity.
Defined.

(** The second mutation of the tree [START -> JSON -> ELEMENT -> (WS, VALUE,
    WS)], a derivation of [START] of height 4. *)
Lemma random_mutation_yields_sentence_witness :
  ∃ t s rt t' s',
    first_mutation 0 (boot sample_draws) = Ret t s ∧
    root_of s t = Some rt ∧ derives s 4 START rt ∧
    random_mutation 0 t s = Ret t' s' ∧
    ∃ rt' w, root_of s' t' = Some rt' ∧
             yield (4 + 17) s' rt' = Some w ∧ lang (4 + 17 + 6) START w.
Proof.
  eexists _, _, _, _, _. split; [vm_compute; reflexivity|].
  split; [vm_compute; reflexivity|].
  match goal with
  | |- derives ?s _ _ _ ∧ _ => assert (derives s 4 START 2) as Hd
  end.
  { eexists. split; [reflexivity|]. split; [reflexivity|].
    right. split; [reflexivity|]. exists [Sub JSON]. split; [by left|].
    constructor; [|constructor].
    eexists. split; [reflexivity|]. split; [reflexivity|].
    right. split; [reflexivity|]. exists [Sub ELEMENT]. split; [by left|].
    constructor; [|constructor].
    eexists. split; [reflexivity|]. split; [reflexivity|].
    right. split; [reflexivity|].
    exists [Sub WS; Sub VALUE; Sub WS]. split; [by left|].
    constructor; [|constructor; [|constructor; [|constructor]]].
    all: eexists; split; [reflexivity|]; split; [reflexivity|]; left.
    all: eexists; split; [|split; [reflexivity|split; reflexivity]].
    all: by left. }
  split; [exact Hd|]. split; [vm_compute; reflexivity|].
  match type of Hd with
  | derives ?s _ _ _ =>
      apply (random_mutation_yields_sentence 0 1%nat s _ _ 2%nat 4 START)
  end; [vm_compute; reflexivity|vm_compute; reflexivity|exact Hd].
Defined.
